(** * TenuousBeliefs: a shallow embedding of [Tenuous.py]

    The numerical core of the robust-control solver ([FeynmanKac] and the
    methods of [StructuredModel]) is embedded once, over an abstract scalar
    type.  Two instances are used:

    - IEEE binary64 ([float]), which is what Python and NumPy compute with;
      it is executable and has NaN and infinity;
    - the real numbers ([R]), the exact-arithmetic reading in which the
      algebraic statements of the specification are meant.

    External numerical libraries (scipy's [solve_bvp], [fsolve],
    [CubicSpline]; the linear solvers of numpy and scipy) are not part of
    the repository.  They enter the model as an interface ([Libs]), so that
    statements about control flow hold for every behaviour of the libraries. *)

From Stdlib Require Import ZArith List Bool Lia.
From Stdlib Require Uint63.
From Stdlib Require Import Floats Reals Lra Psatz.
From Stdlib Require Import ClassicalDescription.
Import ListNotations.

Set Implicit Arguments.

(** ** Python exceptions and the two effect layers *)

Inductive exn : Type :=
| IndexError
| ValueError
| TypeError
| AttributeError
| ZeroDivisionError
| LinAlgError.

Inductive result (A : Type) : Type :=
| Ok (a : A)
| Raise (e : exn).
Arguments Ok {A} a.
Arguments Raise {A} e.

Class Monad (M : Type -> Type) : Type := {
  ret : forall A, A -> M A;
  bind : forall A B, M A -> (A -> M B) -> M B;
  throw : forall A, exn -> M A
}.
Arguments ret {M _ A} _.
Arguments bind {M _ A B} _ _.
Arguments throw {M _ A} _.

Declare Scope monad_scope.
Delimit Scope monad_scope with monad.
Notation "x <- c ;; k" := (bind c (fun x => k))
  (at level 61, c at next level, right associativity) : monad_scope.
Notation "' p <- c ;; k" := (bind c (fun p => k))
  (at level 61, p pattern, c at next level, right associativity) : monad_scope.
Notation "c ;;; k" := (bind c (fun _ => k))
  (at level 61, right associativity) : monad_scope.
Open Scope monad_scope.

#[export] Instance result_monad : Monad result := {
  ret := fun A a => Ok a;
  bind := fun A B c k => match c with Ok a => k a | Raise e => Raise e end;
  throw := fun A e => Raise e
}.

(** [lst[i]] for a non-negative index, and for a negative one ([lst[-k]]). *)
Definition getitem {A} (l : list A) (i : nat) : result A :=
  match nth_error l i with
  | Some a => Ok a
  | None => Raise IndexError
  end.

Definition getitem_neg {A} (l : list A) (k : nat) : result A :=
  if (Nat.leb k (length l) && Nat.ltb 0 k)%bool
  then getitem l (length l - k)
  else Raise IndexError.

(** ** Scalars *)

Class Scalar (T : Type) : Type := {
  ofZ : Z -> T;
  s_add : T -> T -> T;
  s_sub : T -> T -> T;
  s_mul : T -> T -> T;
  s_div : T -> T -> T;
  s_opp : T -> T;
  s_abs : T -> T;
  s_sqrt : T -> T;
  s_ltb : T -> T -> bool;
  s_leb : T -> T -> bool;
  s_eqb : T -> T -> bool;
  s_ceil : T -> Z
}.

(** Scalars with an infinity ([np.inf]). *)
Class Infinite (T : Type) : Type := { inf : T }.

Declare Scope num_scope.
Delimit Scope num_scope with num.
Notation "x + y" := (s_add x y) : num_scope.
Notation "x - y" := (s_sub x y) : num_scope.
Notation "x * y" := (s_mul x y) : num_scope.
Notation "x / y" := (s_div x y) : num_scope.
Notation "- x" := (s_opp x) : num_scope.
Notation "x <? y" := (s_ltb x y) : num_scope.
Notation "x <=? y" := (s_leb x y) : num_scope.
Notation "x =? y" := (s_eqb x y) : num_scope.

(** A decimal literal [n/d] with few digits, such as [0.01] = [dec 1 100]:
    on binary64 one correctly rounded division of two exactly represented
    integers is the literal's value. *)
Definition dec {T} `{Scalar T} (n d : Z) : T := (ofZ n / ofZ d)%num.

(** [x ** 2]. *)
Definition sqr {T} `{Scalar T} (x : T) : T := (x * x)%num.

(** The value of a comparison used as a number ([x * (a <= b)]). *)
Definition b2s {T} `{Scalar T} (b : bool) : T := if b then ofZ 1 else ofZ 0.

(** *** binary64 *)

Module F64.

Definition of_Z (z : Z) : float :=
  match z with
  | Z0 => PrimFloat.of_uint63 (Uint63.of_Z 0)
  | Zpos p => PrimFloat.of_uint63 (Uint63.of_Z (Zpos p))
  | Zneg p => PrimFloat.opp (PrimFloat.of_uint63 (Uint63.of_Z (Zpos p)))
  end.

(** Ceiling of a finite float; 0 on NaN and infinities (where NumPy
    raises). *)
Definition ceil (x : float) : Z :=
  match Prim2SF x with
  | S754_finite s m e =>
      let num := if s then Z.opp (Zpos m) else Zpos m in
      if (0 <=? e)%Z then (num * 2 ^ e)%Z
      else (- ((- num) / 2 ^ (- e)))%Z
  | _ => 0%Z
  end.

#[export] Instance scalar : Scalar float := {
  ofZ := of_Z;
  s_add := PrimFloat.add;
  s_sub := PrimFloat.sub;
  s_mul := PrimFloat.mul;
  s_div := PrimFloat.div;
  s_opp := PrimFloat.opp;
  s_abs := PrimFloat.abs;
  s_sqrt := PrimFloat.sqrt;
  s_ltb := PrimFloat.ltb;
  s_leb := PrimFloat.leb;
  s_eqb := PrimFloat.eqb;
  s_ceil := ceil
}.

#[export] Instance infinite : Infinite float := { inf := infinity }.

End F64.

(** *** exact reals *)

Module Exact.

Definition ltb (x y : R) : bool := if Rlt_dec x y then true else false.
Definition leb (x y : R) : bool := if Rle_dec x y then true else false.
Definition eqb (x y : R) : bool := if Req_dec_T x y then true else false.


(** [ceil x = - floor (- x)], from the Archimedean [up]. *)
Definition ceil (x : R) : Z := (1 - up (- x))%Z.

#[export] Instance scalar : Scalar R := {
  ofZ := IZR;
  s_add := Rplus;
  s_sub := Rminus;
  s_mul := Rmult;
  s_div := Rdiv;
  s_opp := Ropp;
  s_abs := Rabs;
  s_sqrt := sqrt;
  s_ltb := ltb;
  s_leb := leb;
  s_eqb := eqb;
  s_ceil := ceil
}.

End Exact.

(** ** NumPy values: a scalar or a one-dimensional array, with broadcasting *)

Inductive nd (T : Type) : Type :=
| Sc (s : T)
| Arr (xs : list T).
Arguments Sc {T} s.
Arguments Arr {T} xs.

Fixpoint map2 {A B C} (f : A -> B -> C) (l : list A) (m : list B) : list C :=
  match l, m with
  | p :: l', q :: m' => f p q :: map2 f l' m'
  | _, _ => []
  end.

Definition nd_map {T U} (f : T -> U) (p : nd T) : nd U :=
  match p with
  | Sc s => Sc (f s)
  | Arr xs => Arr (map f xs)
  end.

(** Elementwise operation; a scalar is broadcast over an array.  (Arrays of
    unequal lengths, on which NumPy raises, do not occur: the callers pass
    arrays of one mesh.) *)
Definition nd_map2 {T U V} (f : T -> U -> V) (p : nd T) (q : nd U) : nd V :=
  match p, q with
  | Sc s, Sc t => Sc (f s t)
  | Sc s, Arr ys => Arr (map (f s) ys)
  | Arr xs, Sc t => Arr (map (fun e => f e t) xs)
  | Arr xs, Arr ys => Arr (map2 f xs ys)
  end.

Declare Scope nd_scope.
Delimit Scope nd_scope with nd.
Notation "x + y" := (nd_map2 s_add x y) : nd_scope.
Notation "x - y" := (nd_map2 s_sub x y) : nd_scope.
Notation "x * y" := (nd_map2 s_mul x y) : nd_scope.
Notation "x / y" := (nd_map2 s_div x y) : nd_scope.
Notation "- x" := (nd_map s_opp x) : nd_scope.

Section Numpy.
Context {T : Type} `{Scalar T}.

Definition isnan (e : T) : bool := negb (e =? e)%num.

(** Python's builtin [min(p, q)]: the first argument, unless the second
    compares smaller. *)
Definition py_min (p q : T) : T := if (q <? p)%num then q else p.

(** [np.min] over two stacked rows: a NaN in either operand is returned. *)
Definition np_min (p q : T) : T :=
  if isnan p then p else if isnan q then q else if (q <? p)%num then q else p.

Definition np_sqrt (p : nd T) : nd T := nd_map s_sqrt p.
Definition np_squeeze (p : nd T) : nd T := p.
Definition nd_sqr (p : nd T) : nd T := nd_map sqr p.

(** [numpy.linalg.norm] of a vector of two entries. *)
Definition norm (w : T * T) : T :=
  s_sqrt (sqr (fst w) + sqr (snd w))%num.

(** [np.arange(start, stop, step)]: [ceil((stop - start) / step)] entries;
    NumPy stores [start] and [start + step] and fills the rest as
    [start + i * delta], where [delta] is the difference of the first two. *)
Definition arange (start stop step : T) : list T :=
  let delta := (start + step - start)%num in
  map (fun i =>
         match i with
         | O => start
         | S O => (start + step)%num
         | _ => (start + ofZ (Z.of_nat i) * delta)%num
         end)
      (seq 0 (Z.to_nat (s_ceil ((stop - start) / step)%num))).

(** [np.linspace(start, stop, num)] for [num >= 2]. *)
Definition linspace (start stop : T) (num : nat) : list T :=
  let step := ((stop - start) / ofZ (Z.of_nat (num - 1)))%num in
  map (fun i => (ofZ (Z.of_nat i) * step + start)%num) (seq 0 (num - 1))
    ++ [stop].

(** [np.argmin(abs(values))]: the first index of the least absolute value
    (a NaN, if any, wins). *)
Fixpoint argmin_abs_from (best : T) (bi : nat) (i : nat) (l : list T) : nat :=
  match l with
  | [] => bi
  | e :: l' =>
      if isnan best then bi
      else if (isnan (s_abs e) || (s_abs e <? best)%num)%bool
           then argmin_abs_from (s_abs e) i (S i) l'
           else argmin_abs_from best bi (S i) l'
  end.

Definition argmin_abs (l : list T) : nat :=
  match l with
  | [] => 0
  | e :: l' => argmin_abs_from (s_abs e) 0 1 l'
  end.

End Numpy.

(** ** External numerical libraries *)

(** What [solve_bvp] returns: the mesh [x] and the rows of the solution [y]. *)
Record bvp_result (T : Type) : Type := {
  sol_x : list T;
  sol_y : list (list T)
}.

(** The library calls of [Tenuous.py], as an interface.

    - [solve_bvp fun bc x y] is [scipy.integrate.solve_bvp];
    - [fsolve] is a root-finder that queries its objective adaptively:
      [fsolve_next x0 history] is the next trial point, or [None] to stop,
      and [fsolve_root x0 history] is the value returned;
    - [CubicSpline x y xnew] is [CubicSpline(x, y, axis = 1)(xnew)];
    - [solve] is [numpy.linalg.solve] and [spsolve] is
      [scipy.sparse.linalg.spsolve], on a dense copy of the matrix. *)
Class Libs (T : Type) : Type := {
  solve_bvp :
    (nd T -> nd T * nd T -> result (nd T * nd T)) ->
    (T * T -> T * T -> T * T) ->
    list T -> list (list T) -> result (bvp_result T);
  fsolve_next : T -> list (T * T) -> option T;
  fsolve_root : T -> list (T * T) -> T;
  CubicSpline : list T -> list (list T) -> list T -> result (list (list T));
  solve : list (list T) -> list T -> result (list T);
  spsolve : list (list T) -> list T -> result (list T)
}.

Section Helpers.
Context {T : Type} `{Scalar T}.

Fixpoint mapM {M} `{Monad M} {A B} (f : A -> M B) (l : list A) : M (list B) :=
  match l with
  | [] => ret []
  | e :: l' => r <- f e ;; rs <- mapM f l' ;; ret (r :: rs)
  end.

(** A one-element array, or a scalar, as a scalar. *)
Definition item (p : nd T) : result T :=
  match p with
  | Sc s => Ok s
  | Arr [s] => Ok s
  | Arr _ => Raise TypeError
  end.

(** The truth value of a NumPy boolean in an [if]. *)
Definition truth (p : nd bool) : result bool :=
  match p with
  | Sc t => Ok t
  | Arr [] => Ok false
  | Arr [t] => Ok t
  | Arr _ => Raise ValueError
  end.

(** [M[i, j]] on a dense matrix stored by rows. *)
Definition get2 (m : list (list T)) (i j : nat) : result T :=
  r <- getitem m i ;; getitem r j.

Fixpoint set_nth {A} (l : list A) (i : nat) (e : A) : option (list A) :=
  match l, i with
  | [], _ => None
  | _ :: l', O => Some (e :: l')
  | p :: l', S i' => option_map (cons p) (set_nth l' i' e)
  end.

(** [M[i, j] = e]. *)
Definition set2 (m : list (list T)) (i j : nat) (e : T) : result (list (list T)) :=
  match nth_error m i with
  | None => Raise IndexError
  | Some r =>
      match set_nth r j e with
      | None => Raise IndexError
      | Some r' =>
          match set_nth m i r' with
          | None => Raise IndexError
          | Some m' => Ok m'
          end
      end
  end.

Definition zeros (n : nat) : list T := repeat (ofZ 0) n.
Definition zeros2 (n m : nat) : list (list T) := repeat (zeros m) n.

(** Column [j] of a matrix stored by rows ([M[:, j]]). *)
Definition column (m : list (list T)) (j : nat) : result (list T) :=
  mapM (fun r => getitem r j) m.

Definition last_item (l : list T) : result T := getitem_neg l 1.

(** [[0.01, v1] . σ . σ.T . [[0.01], [v1]]], associated as NumPy's chained
    [dot] does. *)
Definition quadform (σ : (T * T) * (T * T)) (v1 : T) : T :=
  let c := dec 1 100 in
  let '((σ00, σ01), (σ10, σ11)) := σ in
  let u0 := (c * σ00 + v1 * σ10)%num in
  let u1 := (c * σ01 + v1 * σ11)%num in
  let w0 := (u0 * σ00 + u1 * σ01)%num in
  let w1 := (u0 * σ10 + u1 * σ11)%num in
  (w0 * c + w1 * v1)%num.

End Helpers.

(** ** [FeynmanKac] *)

(** [scipy.sparse.csr_matrix((value, (row, col)))]: the shape is read off the
    largest indices, and entries given twice are added. *)
Record csr_matrix (K : Type) : Type := {
  nrows : nat;
  ncols : nat;
  entries : list (K * nat * nat)
}.

Section FeynmanKac.
Context {K : Type} `{Scalar K} `{Libs K}.

(** [int(x)]: truncation towards zero. *)
Definition py_int (e : K) : Z :=
  if (e <? ofZ 0)%num then s_ceil e else (- s_ceil (- e)%num)%Z.

Definition csr_of_triples (l : list (K * nat * nat)) : csr_matrix K :=
  {| nrows := S (fold_right (fun '(_, r, _) acc => Nat.max r acc) 0 l);
     ncols := S (fold_right (fun '(_, _, c) acc => Nat.max c acc) 0 l);
     entries := l |}.

Definition csr_lookup (A : csr_matrix K) (i j : nat) : K :=
  fold_right
    (fun '(e, r, c) acc =>
       if (Nat.eqb r i && Nat.eqb c j)%bool then (e + acc)%num else acc)
    (ofZ 0) (entries A).

(** [A[i, j]]. *)
Definition csr_get (A : csr_matrix K) (i j : nat) : result K :=
  if (Nat.ltb i (nrows A) && Nat.ltb j (ncols A))%bool
  then Ok (csr_lookup A i j)
  else Raise IndexError.

(** [A[-i, -j]]. *)
Definition csr_get_neg (A : csr_matrix K) (i j : nat) : result K :=
  if (Nat.leb i (nrows A) && Nat.leb j (ncols A)
      && Nat.ltb 0 i && Nat.ltb 0 j)%bool
  then Ok (csr_lookup A (nrows A - i) (ncols A - j))
  else Raise IndexError.

(** [A[1:-1, 1:-1]], as the dense rows handed to the solver. *)
Definition csr_interior (A : csr_matrix K) : list (list K) :=
  map (fun i => map (fun j => csr_lookup A i j) (seq 1 (ncols A - 2)))
      (seq 1 (nrows A - 2)).

(** [l[1:-1]]. *)
Definition slice_inner {A} (l : list A) : list A := removelast (tl l).

(** The triples appended for row [j], in the order of the source. *)
Definition fk_row (μz : list K) (n2 Dz Dt : K) (Nz j : nat)
  : result (list (K * nat * nat)) :=
  if Nat.eqb j 0 then ret [(ofZ (-1), j, j)]
  else if Nat.eqb j (Nz - 1) then ret [(ofZ (-1), j, j)]
  else
    m <- getitem μz j ;;
    ret [ ((ofZ (-1) + Dt * (- n2 / sqr Dz))%num, j, j);
          ((Dt * (m / (ofZ 2 * Dz) + dec 1 2 * n2 / sqr Dz))%num, j, j + 1);
          ((Dt * (- m / (ofZ 2 * Dz) + dec 1 2 * n2 / sqr Dz))%num, j, j - 1) ].

(** One pass of the time loop: from [ϕold] to [ϕnew]. *)
Definition fk_step (A : list (list K)) (a1 a2 : K) (ϕold : list K)
  : result (list K) :=
  let b := map s_opp (slice_inner ϕold) in
  b0 <- getitem b 0 ;;
  ϕ0 <- getitem ϕold 0 ;;
  b <- match set_nth b 0 (b0 - a1 * ϕ0)%num with
       | Some b' => Ok b' | None => Raise IndexError end ;;
  bl <- getitem_neg b 1 ;;
  ϕl <- getitem_neg ϕold 1 ;;
  b <- match set_nth b (length b - 1) (bl - a2 * ϕl)%num with
       | Some b' => Ok b' | None => Raise IndexError end ;;
  ϕnew <- spsolve A b ;;
  p0 <- getitem ϕnew 0 ;;
  p1 <- getitem ϕnew 1 ;;
  q0 <- getitem_neg ϕnew 1 ;;
  q1 <- getitem_neg ϕnew 2 ;;
  ret ([(ofZ 2 * p0 - p1)%num] ++ ϕnew ++ [(ofZ 2 * q0 - q1)%num]).

(** The columns [sol[:, 1]], [sol[:, 2]], ... written by the loop. *)
Fixpoint fk_march (A : list (list K)) (a1 a2 : K) (Nz : nat)
         (ϕold : list K) (steps : nat) : result (list (list K)) :=
  match steps with
  | O => ret []
  | S n =>
      ϕnew <- fk_step A a1 a2 ϕold ;;
      if Nat.eqb (length ϕnew) Nz
      then cols <- fk_march A a1 a2 Nz ϕnew n ;; ret (ϕnew :: cols)
      else Raise ValueError
  end.

(** [FeynmanKac(μz, σz, zgrid, fintl, T, Dt)].  The array [sol] is returned
    by columns: the [t]-th list is [sol[:, t]]. *)
Definition FeynmanKac (μz : list K) (σz : K * K) (zgrid fintl : list K)
           (T Dt : K) : result (list (list K)) :=
  z1 <- getitem zgrid 1 ;;
  z0 <- getitem zgrid 0 ;;
  let Dz := (z1 - z0)%num in
  let Nz := length zgrid in
  rows <- mapM (fk_row μz (sqr (norm σz)) Dz Dt Nz) (seq 0 Nz) ;;
  let A := csr_of_triples (concat rows) in
  a1 <- csr_get A 1 0 ;;
  a2 <- csr_get_neg A 2 1 ;;
  let Ai := csr_interior A in
  if (Dt =? ofZ 0)%num then Raise ZeroDivisionError else
  let n := py_int (T / Dt)%num in
  if (n + 1 <? 0)%Z then Raise ValueError else
  if (n + 1 =? 0)%Z then Raise IndexError else
  col0 <- (if Nat.eqb (length fintl) Nz then Ok fintl
           else match fintl with
                | [e] => Ok (repeat e Nz)
                | _ => Raise ValueError
                end) ;;
  cols <- fk_march Ai a1 a2 Nz fintl (Z.to_nat n) ;;
  ret (col0 :: cols).

End FeynmanKac.

(** ** [InterpQuantile] is not needed by the properties below. *)

(** ** class [StructuredModel] *)

Module StructuredModel.

(** The dictionary [res] built by [__MatchODE]. *)
Record matched (T : Type) : Type := {
  res_x : list T;
  res_y : list (list T);
  res_possol : bvp_result T;
  res_negsol : bvp_result T;
  res_diff : T;
  res_dv0 : T
}.

(** The instance attributes.  Attributes that are [None] (or do not exist)
    before a method sets them are options. *)
Record self (T : Type) : Type := {
  θ : option T;
  αk : T; αz : T; βk : T; βz : T;
  σk : T * T; σz : T * T;
  δ : T; ρ1 : T; z̄ : T;
  σ : (T * T) * (T * T);
  a : T; b : T; d : T;
  q0s : T; qᵤₛ : T; ρ2 : T;
  zl : T; zr : T; Dz : T;
  dvl : option T; dvr : option T;
  s1 : option (list T); s2 : option (list T);
  status : Z;
  dvErr : option T;
  qErr : option (nd T);
  dv0 : option T;
  hl : option T;
  v : option (matched T);
  Distorted : option (list (list T));
  driftk : option (list T);
  driftz : option (list T)
}.

(** The dictionary [params] passed to the constructor. *)
Record params (T : Type) : Type := {
  p_αk : T; p_αz : T; p_βk : T; p_βz : T;
  p_σk : T * T; p_σz : T * T;
  p_δ : T; p_ρ1 : T; p_z̄ : T;
  p_σ : (T * T) * (T * T);
  p_a : T; p_b : T; p_d : T;
  p_zl : T; p_zr : T
}.

(** The local variables of [__mined] that the selection reads:
    [BB ** 2 - 4 * AA * CC], the two roots and the two objectives. *)
Record mined_locals (T : Type) : Type := {
  discriminant : nd T;
  s21 : nd T;
  s22 : nd T;
  mined1 : nd T;
  mined2 : nd T
}.

(** What [__mined] returns: the pair [(res, control)] on a scalar call, the
    array [res] alone on an array call. *)
Inductive mined_ret (T : Type) : Type :=
| MinedPair (res ctrl : nd T)
| MinedArr (res : nd T).
Arguments MinedPair {T} res ctrl.
Arguments MinedArr {T} res.

(** Calls recorded while a method runs (ghost state of the model). *)
Inductive call (T : Type) : Type :=
| CallCalibratingTheta (θ : T) (gridsearch : bool)
| CallFsolve (x0 : T)
| CallMatchODE (θ : T)
| CallDistortion (θ : T)
| CallRelativeEntropyUS.
Arguments CallRelativeEntropyUS {T}.

(** Methods that assign attributes: state is the object and the log. *)
Definition method (T A : Type) : Type :=
  self T * list (call T) -> result (A * (self T * list (call T))).

#[export] Instance method_monad {T} : Monad (method T) := {
  ret := fun A e => fun w => Ok (e, w);
  bind := fun A B c k => fun w =>
    match c w with
    | Ok (e, w') => k e w'
    | Raise x => Raise x
    end;
  throw := fun A x => fun w => Raise x
}.

Definition lift {T A} (r : result A) : method T A :=
  fun w => match r with Ok e => Ok (e, w) | Raise x => Raise x end.
Definition get_self {T} : method T (self T) := fun w => Ok (fst w, w).
Definition put_self {T} (s : self T) : method T unit :=
  fun w => Ok (tt, (s, snd w)).
Definition log {T} (c : call T) : method T unit :=
  fun w => Ok (tt, (fst w, snd w ++ [c])).

Section Methods.
Context {T : Type} `{Scalar T} `{Libs T}.

(** [__init__(self, params, q0s, qᵤₛ, ρ2 = None)]. *)
Definition __init__ (p : params T) (q0s qᵤₛ : T) (ρ2 : option T) : self T :=
  {| θ := None;
     αk := p_αk p; αz := p_αz p; βk := p_βk p; βz := p_βz p;
     σk := p_σk p; σz := p_σz p;
     δ := p_δ p; ρ1 := p_ρ1 p; z̄ := p_z̄ p; σ := p_σ p;
     a := p_a p; b := p_b p; d := p_d p;
     q0s := q0s; qᵤₛ := qᵤₛ;
     ρ2 := match ρ2 with
           | None => (sqr q0s / sqr (norm (p_σz p)))%num
           | Some r => r
           end;
     zl := p_zl p; zr := p_zr p; Dz := dec 1 100;
     dvl := None; dvr := None;
     s1 := None; s2 := None;
     status := 0;
     dvErr := None; qErr := None; dv0 := None; hl := None;
     v := None; Distorted := None;
     driftk := None; driftz := None |}.

Variable m : self T.

(** The coefficients [A], [B], [C] of [__S1(self, s2, z)]. *)
Definition S1_coeffs (s2 z : nd T) : nd T * nd T * nd T :=
  let A := (Sc (dec 1 2) * Sc (a m))%nd in
  let B := (Sc (b m) * s2)%nd in
  let C := (Sc (dec 1 2) * Sc (d m) * nd_sqr s2
            + (Sc (ρ1 m) + Sc (ρ2 m) * (z - Sc (z̄ m))) * s2
            + (Sc (ρ1 m) + Sc (ρ2 m) * (z - Sc (z̄ m)))
              * (Sc (αz m) - Sc (βz m) * (z - Sc (z̄ m)))
            + Sc (sqr (norm (σz m))) / Sc (ofZ 2) * Sc (ρ2 m)
            - Sc (sqr (q0s m)) / Sc (ofZ 2))%nd in
  (A, B, C).

(** The discriminant [B ** 2 - 4 * A * C] under the square root of [__S1]. *)
Definition S1_discriminant (s2 z : nd T) : nd T :=
  let '(A, B, C) := S1_coeffs s2 z in
  (nd_sqr B - Sc (ofZ 4) * A * C)%nd.

(** [__S1(self, s2, z)]. *)
Definition __S1 (s2 z : nd T) : nd T :=
  let '(A, B, C) := S1_coeffs s2 z in
  ((- B - np_sqrt (S1_discriminant s2 z)) / (Sc (ofZ 2) * A))%nd.

(** The quantities of [__mined] before the final selection. *)
Definition mined_branches (z dv : nd T) : mined_locals T :=
  let A := (Sc (dec 1 2) * Sc (a m))%nd in
  let C0 := ((Sc (ρ1 m) + Sc (ρ2 m) * (z - Sc (z̄ m)))
             * (Sc (αz m) - Sc (βz m) * (z - Sc (z̄ m)))
             + Sc (sqr (norm (σz m))) / Sc (ofZ 2) * Sc (ρ2 m)
             - Sc (sqr (q0s m)) / Sc (ofZ 2))%nd in
  let C1 := (Sc (ρ1 m) + Sc (ρ2 m) * (z - Sc (z̄ m)))%nd in
  let C2 := (Sc (dec 1 2) * Sc (d m))%nd in
  let D := (Sc (sqr (b m)) / (Sc (ofZ 2) * A) - Sc (ofZ 2) * C2)%nd in
  let E := nd_sqr (Sc (ofZ 100) * dv - Sc (b m) / (Sc (ofZ 2) * A))%nd in
  let AA := (E * Sc (sqr (b m)) - Sc (ofZ 4) * A * E * C2 - nd_sqr D)%nd in
  let BB := (Sc (ofZ 2) * C1 * D - Sc (ofZ 4) * A * E * C1)%nd in
  let CC := (Sc (ofZ (-4)) * A * C0 * E - nd_sqr C1)%nd in
  let disc := (nd_sqr BB - Sc (ofZ 4) * AA * CC)%nd in
  let s21 := ((- BB + np_sqrt disc) / (Sc (ofZ 2) * AA))%nd in
  let s22 := ((- BB - np_sqrt disc) / (Sc (ofZ 2) * AA))%nd in
  let mined1 :=
    np_squeeze
      (Sc (dec 1 100)
         * (Sc (αk m) + Sc (βk m) * (z - Sc (z̄ m)) + __S1 s21 z)
       + dv * (Sc (αz m) - Sc (βz m) * (z - Sc (z̄ m)) + s21))%nd in
  let mined2 :=
    np_squeeze
      (Sc (dec 1 100)
         * (Sc (αk m) + Sc (βk m) * (z - Sc (z̄ m)) + __S1 s22 z)
       + dv * (Sc (αz m) - Sc (βz m) * (z - Sc (z̄ m)) + s22))%nd in
  {| discriminant := disc; s21 := s21; s22 := s22;
     mined1 := mined1; mined2 := mined2 |}.

(** [__mined(self, z, dv)]. *)
Definition __mined (z dv : nd T) : mined_ret T :=
  let l := mined_branches z dv in
  match mined1 l with
  | Sc _ =>
      let res := nd_map2 py_min (mined1 l) (mined2 l) in
      MinedPair res
        (s21 l * nd_map2 (fun p q => b2s (p <=? q)%num) (mined1 l) (mined2 l)
         + s22 l * nd_map2 (fun p q => b2s (q <? p)%num) (mined1 l) (mined2 l))%nd
  | Arr _ =>
      let res := nd_map2 np_min (mined1 l) (mined2 l) in
      MinedArr res
  end.

(** Unpacking [(min_val, _) = self.__mined(z, v1)]. *)
Definition unpack2 (r : mined_ret T) : result (nd T * nd T) :=
  match r with
  | MinedPair res ctrl => Ok (res, ctrl)
  | MinedArr (Arr [p; q]) => Ok (Sc p, Sc q)
  | MinedArr _ => Raise ValueError
  end.

(** [__HJBODE(self, z, v, θ)]: the two stacked rows [(v1, v2)]. *)
Definition __HJBODE (z : nd T) (v : nd T * nd T) (θ : T)
  : result (nd T * nd T) :=
  let v0 := fst v in
  let v1 := snd v in
  match v1 with
  | Sc v1s =>
      '(min_val, _) <- unpack2 (__mined z v1) ;;
      let temp := Sc (quadform (σ m) v1s) in
      ret (v1,
           (Sc (ofZ 2) / Sc (sqr (norm (σz m)))
            * (Sc (δ m) * v0 - min_val
               + Sc (ofZ 1) / (Sc (ofZ 2) * Sc θ) * temp))%nd)
  | Arr v1s =>
      match __mined z v1 with
      | MinedArr min_val =>
          let temp := Arr (map (quadform (σ m)) v1s) in
          ret (v1,
               (Sc (ofZ 2) / Sc (sqr (norm (σz m)))
                * (Sc (δ m) * v0 - min_val
                   + Sc (ofZ 1) / (Sc (ofZ 2) * Sc θ) * temp))%nd)
      | MinedPair _ _ => Raise TypeError
      end
  end.

End Methods.

(** Attribute assignment [self.f = e]. *)
Section Assign.
Context {T : Type}.

Definition with_θ (s : self T) e : self T :=
  {| θ := e; αk := αk s; αz := αz s; βk := βk s; βz := βz s; σk := σk s; σz
     := σz s; δ := δ s; ρ1 := ρ1 s; z̄ := z̄ s; σ := σ s; a := a s; b := b s;
     d := d s; q0s := q0s s; qᵤₛ := qᵤₛ s; ρ2 := ρ2 s; zl := zl s; zr := zr
     s; Dz := Dz s; dvl := dvl s; dvr := dvr s; s1 := s1 s; s2 := s2 s;
     status := status s; dvErr := dvErr s; qErr := qErr s; dv0 := dv0 s; hl
     := hl s; v := v s; Distorted := Distorted s; driftk := driftk s; driftz
     := driftz s |}.

Definition with_status (s : self T) e : self T :=
  {| θ := θ s; αk := αk s; αz := αz s; βk := βk s; βz := βz s; σk := σk s; σz
     := σz s; δ := δ s; ρ1 := ρ1 s; z̄ := z̄ s; σ := σ s; a := a s; b := b s;
     d := d s; q0s := q0s s; qᵤₛ := qᵤₛ s; ρ2 := ρ2 s; zl := zl s; zr := zr
     s; Dz := Dz s; dvl := dvl s; dvr := dvr s; s1 := s1 s; s2 := s2 s;
     status := e; dvErr := dvErr s; qErr := qErr s; dv0 := dv0 s; hl := hl s;
     v := v s; Distorted := Distorted s; driftk := driftk s; driftz := driftz
     s |}.

Definition with_dvErr (s : self T) e : self T :=
  {| θ := θ s; αk := αk s; αz := αz s; βk := βk s; βz := βz s; σk := σk s; σz
     := σz s; δ := δ s; ρ1 := ρ1 s; z̄ := z̄ s; σ := σ s; a := a s; b := b s;
     d := d s; q0s := q0s s; qᵤₛ := qᵤₛ s; ρ2 := ρ2 s; zl := zl s; zr := zr
     s; Dz := Dz s; dvl := dvl s; dvr := dvr s; s1 := s1 s; s2 := s2 s;
     status := status s; dvErr := e; qErr := qErr s; dv0 := dv0 s; hl := hl
     s; v := v s; Distorted := Distorted s; driftk := driftk s; driftz :=
     driftz s |}.

Definition with_qErr (s : self T) e : self T :=
  {| θ := θ s; αk := αk s; αz := αz s; βk := βk s; βz := βz s; σk := σk s; σz
     := σz s; δ := δ s; ρ1 := ρ1 s; z̄ := z̄ s; σ := σ s; a := a s; b := b s;
     d := d s; q0s := q0s s; qᵤₛ := qᵤₛ s; ρ2 := ρ2 s; zl := zl s; zr := zr
     s; Dz := Dz s; dvl := dvl s; dvr := dvr s; s1 := s1 s; s2 := s2 s;
     status := status s; dvErr := dvErr s; qErr := e; dv0 := dv0 s; hl := hl
     s; v := v s; Distorted := Distorted s; driftk := driftk s; driftz :=
     driftz s |}.

Definition with_v (s : self T) e : self T :=
  {| θ := θ s; αk := αk s; αz := αz s; βk := βk s; βz := βz s; σk := σk s; σz
     := σz s; δ := δ s; ρ1 := ρ1 s; z̄ := z̄ s; σ := σ s; a := a s; b := b s;
     d := d s; q0s := q0s s; qᵤₛ := qᵤₛ s; ρ2 := ρ2 s; zl := zl s; zr := zr
     s; Dz := Dz s; dvl := dvl s; dvr := dvr s; s1 := s1 s; s2 := s2 s;
     status := status s; dvErr := dvErr s; qErr := qErr s; dv0 := dv0 s; hl
     := hl s; v := e; Distorted := Distorted s; driftk := driftk s; driftz :=
     driftz s |}.

Definition with_driftk (s : self T) e : self T :=
  {| θ := θ s; αk := αk s; αz := αz s; βk := βk s; βz := βz s; σk := σk s; σz
     := σz s; δ := δ s; ρ1 := ρ1 s; z̄ := z̄ s; σ := σ s; a := a s; b := b s;
     d := d s; q0s := q0s s; qᵤₛ := qᵤₛ s; ρ2 := ρ2 s; zl := zl s; zr := zr
     s; Dz := Dz s; dvl := dvl s; dvr := dvr s; s1 := s1 s; s2 := s2 s;
     status := status s; dvErr := dvErr s; qErr := qErr s; dv0 := dv0 s; hl
     := hl s; v := v s; Distorted := Distorted s; driftk := e; driftz :=
     driftz s |}.

Definition with_driftz (s : self T) e : self T :=
  {| θ := θ s; αk := αk s; αz := αz s; βk := βk s; βz := βz s; σk := σk s; σz
     := σz s; δ := δ s; ρ1 := ρ1 s; z̄ := z̄ s; σ := σ s; a := a s; b := b s;
     d := d s; q0s := q0s s; qᵤₛ := qᵤₛ s; ρ2 := ρ2 s; zl := zl s; zr := zr
     s; Dz := Dz s; dvl := dvl s; dvr := dvr s; s1 := s1 s; s2 := s2 s;
     status := status s; dvErr := dvErr s; qErr := qErr s; dv0 := dv0 s; hl
     := hl s; v := v s; Distorted := Distorted s; driftk := driftk s; driftz
     := e |}.

Definition with_dvl (s : self T) e : self T :=
  {| θ := θ s; αk := αk s; αz := αz s; βk := βk s; βz := βz s; σk := σk s; σz
     := σz s; δ := δ s; ρ1 := ρ1 s; z̄ := z̄ s; σ := σ s; a := a s; b := b s;
     d := d s; q0s := q0s s; qᵤₛ := qᵤₛ s; ρ2 := ρ2 s; zl := zl s; zr := zr
     s; Dz := Dz s; dvl := e; dvr := dvr s; s1 := s1 s; s2 := s2 s; status :=
     status s; dvErr := dvErr s; qErr := qErr s; dv0 := dv0 s; hl := hl s; v
     := v s; Distorted := Distorted s; driftk := driftk s; driftz := driftz s |}.

Definition with_dvr (s : self T) e : self T :=
  {| θ := θ s; αk := αk s; αz := αz s; βk := βk s; βz := βz s; σk := σk s; σz
     := σz s; δ := δ s; ρ1 := ρ1 s; z̄ := z̄ s; σ := σ s; a := a s; b := b s;
     d := d s; q0s := q0s s; qᵤₛ := qᵤₛ s; ρ2 := ρ2 s; zl := zl s; zr := zr
     s; Dz := Dz s; dvl := dvl s; dvr := e; s1 := s1 s; s2 := s2 s; status :=
     status s; dvErr := dvErr s; qErr := qErr s; dv0 := dv0 s; hl := hl s; v
     := v s; Distorted := Distorted s; driftk := driftk s; driftz := driftz s |}.

Definition with_Distorted (s : self T) e : self T :=
  {| θ := θ s; αk := αk s; αz := αz s; βk := βk s; βz := βz s; σk := σk s; σz
     := σz s; δ := δ s; ρ1 := ρ1 s; z̄ := z̄ s; σ := σ s; a := a s; b := b s;
     d := d s; q0s := q0s s; qᵤₛ := qᵤₛ s; ρ2 := ρ2 s; zl := zl s; zr := zr
     s; Dz := Dz s; dvl := dvl s; dvr := dvr s; s1 := s1 s; s2 := s2 s;
     status := status s; dvErr := dvErr s; qErr := qErr s; dv0 := dv0 s; hl
     := hl s; v := v s; Distorted := e; driftk := driftk s; driftz := driftz
     s |}.

End Assign.

Definition with_res_y {T} (r : matched T) (e : list (list T)) : matched T :=
  {| res_x := res_x r; res_y := e; res_possol := res_possol r;
     res_negsol := res_negsol r; res_diff := res_diff r;
     res_dv0 := res_dv0 r |}.

(** Reading an attribute that may be unset. *)
Definition attr {A} (o : option A) (x : exn) : result A :=
  match o with
  | Some e => Ok e
  | None => Raise x
  end.

Section Solver.
Context {T : Type} `{Scalar T} `{Infinite T} `{Libs T}.

(** [scipy.optimize.fsolve(func, x0, maxfev = fuel)] for one unknown: the
    objective is evaluated at [x0] and then at the points the root-finder
    asks for; each value must be a scalar or an array of one entry. *)
Fixpoint fsolve_loop {M} `{Monad M} (lift_r : forall A, result A -> M A)
         (func : T -> M (nd T)) (x0 : T) (history : list (T * T))
         (fuel : nat) : M T :=
  match fuel with
  | O => ret (fsolve_root x0 history)
  | S n =>
      match fsolve_next x0 history with
      | None => ret (fsolve_root x0 history)
      | Some x =>
          r <- func x ;;
          y <- lift_r _ (item r) ;;
          fsolve_loop lift_r func x0 (history ++ [(x, y)]) n
      end
  end.

Definition fsolve {M} `{Monad M} (lift_r : forall A, result A -> M A)
           (func : T -> M (nd T)) (x0 : T) (maxfev : nat) : M T :=
  r <- func x0 ;;
  y <- lift_r _ (item r) ;;
  fsolve_loop lift_r func x0 [(x0, y)] maxfev.

(** The canonical state grid of [__MatchODE]:
    [x_neg = np.append(np.arange(-2.5, 0, Dz), 0)],
    [x_pos = np.append(np.arange(0, 2.5, Dz), 2.5)] and
    [res['x'] = np.hstack([x_neg, x_pos[1:]])]. *)
Definition x_neg (Dz : T) : list T :=
  arange (- dec 5 2)%num (ofZ 0) Dz ++ [ofZ 0].
Definition x_pos (Dz : T) : list T :=
  arange (ofZ 0) (dec 5 2) Dz ++ [dec 5 2].
Definition zgrid (Dz : T) : list T := x_neg Dz ++ tl (x_pos Dz).

(** [np.hstack] of two arrays stored by rows. *)
Fixpoint hstack2 (p q : list (list T)) : result (list (list T)) :=
  match p, q with
  | [], [] => Ok []
  | r :: p', s :: q' => rest <- hstack2 p' q' ;; ret ((r ++ s) :: rest)
  | _, _ => Raise ValueError
  end.

Variable m : self T.

(** [ApproxBound(self)], given the array [bounds] of real roots that
    [sympy.solvers.solve] returns for the boundary system:
    [self.dvl = max(bounds[:, 0])], [self.dvr = min(bounds[:, 0])].  With
    no root the array has one axis only and [bounds[:, 0]] raises. *)
Definition ApproxBound (bounds : list (T * T * T)) : result (self T) :=
  match map (fun r => fst (fst r)) bounds with
  | [] => Raise IndexError
  | e :: l =>
      let hi := fold_left (fun p q => if (p <? q)%num then q else p) l e in
      let lo := fold_left (fun p q => if (q <? p)%num then q else p) l e in
      Ok (with_dvr (with_dvl m (Some hi)) (Some lo))
  end.

(** [__ODEsolver(self, zrange, bdl, bdr, θ)]. *)
Definition __ODEsolver (zrange : T * T) (bdl bdr θ : T)
  : result (bvp_result T) :=
  let tosolve := fun z v => __HJBODE m z v θ in
  let bc := fun (ya yb : T * T) => ((snd ya - bdl)%num, (snd yb - bdr)%num) in
  let temp :=
    if (s_abs (snd zrange) <=? s_abs (fst zrange))%num then bdr else bdl in
  let x := linspace (fst zrange) (snd zrange) 10 in
  let y := [ map (fun _ => (ofZ 1 * ofZ 0)%num) x;
             map (fun _ => (ofZ 1 * temp)%num) x ] in
  solve_bvp tosolve bc x y.

(** The local function [v0Diff] of [__MatchODE]. *)
Definition v0Diff (θ dv0 : T) : result T :=
  dvl' <- attr (dvl m) AttributeError ;;
  negsol <- __ODEsolver (zl m, ofZ 0) dvl' dv0 θ ;;
  dvr' <- attr (dvr m) AttributeError ;;
  possol <- __ODEsolver (ofZ 0, zr m) dv0 dvr' θ ;;
  rn <- getitem (sol_y negsol) 0 ;;
  yn <- last_item rn ;;
  rp <- getitem (sol_y possol) 0 ;;
  yp <- getitem rp 0 ;;
  ret (yn - yp)%num.

(** The second derivative recomputed at the kink (a value that
    [__MatchODE] only prints in commented-out code). *)
Definition kink_v2 (z : T) (sol : bvp_result T) (at_end : bool) (θ : T)
  : result T :=
  r0 <- getitem (sol_y sol) 0 ;;
  v0 <- (if at_end then last_item r0 else getitem r0 0) ;;
  r1 <- getitem (sol_y sol) 1 ;;
  v1 <- (if at_end then last_item r1 else getitem r1 0) ;;
  '(min_val, _) <- unpack2 (__mined m (Sc z) (Sc v1)) ;;
  min_val <- item min_val ;;
  ret (ofZ 2 / sqr (norm (σz m))
       * (δ m * v0 - min_val + ofZ 1 / (ofZ 2 * θ) * quadform (σ m) v1))%num.

(** [__MatchODE(self, θ, dv0guess = None)]. *)
Definition __MatchODE (θ : T) (dv0guess : option T) : result (matched T) :=
  dv0guess <-
    match dv0guess with
    | Some g => Ok g
    | None =>
        dvl' <- attr (dvl m) AttributeError ;;
        dvr' <- attr (dvr m) AttributeError ;;
        let dv0_lists :=
          linspace (dvr' + dec 2 10 * (dvl' - dvr'))%num
                   (dvl' - dec 2 10 * (dvl' - dvr'))%num 5 in
        gridsvalue <- mapM (v0Diff θ) dv0_lists ;;
        getitem dv0_lists (argmin_abs gridsvalue)
    end ;;
  dv0 <- fsolve (fun A r => r) (fun e => r <- v0Diff θ e ;; ret (Sc r))
           dv0guess 400 ;;
  dvl' <- attr (dvl m) AttributeError ;;
  negsol <- __ODEsolver (zl m, ofZ 0) dvl' dv0 θ ;;
  _ <- kink_v2 (- dec 1 1000000)%num negsol true θ ;;
  dvr' <- attr (dvr m) AttributeError ;;
  possol <- __ODEsolver (ofZ 0, zr m) dv0 dvr' θ ;;
  _ <- kink_v2 (dec 1 1000000) possol false θ ;;
  negSplined <- CubicSpline (sol_x negsol) (sol_y negsol) (x_neg (Dz m)) ;;
  posSplined <- CubicSpline (sol_x possol) (sol_y possol) (x_pos (Dz m)) ;;
  y <- hstack2 negSplined (map (@tl T) posSplined) ;;
  diff <- v0Diff θ dv0 ;;
  ret {| res_x := zgrid (Dz m);
         res_y := y;
         res_possol := possol;
         res_negsol := negsol;
         res_diff := s_abs diff;
         res_dv0 := dv0 |}.

(** [__Distortion(self, sol, θ)]: the four rows [rh], and [s1], [s2]. *)
Definition __Distortion (sol : matched T) (θ : T)
  : result (list (list T) * list T * list T) :=
  let Nz := length (res_x sol) in
  s12 <- mapM (fun j =>
                 xj <- getitem (res_x sol) j ;;
                 y1j <- get2 (res_y sol) 1 j ;;
                 '(_, c) <- unpack2 (__mined m (Sc xj) (Sc y1j)) ;;
                 s2j <- item c ;;
                 s1j <- item (__S1 m (Sc s2j) (Sc xj)) ;;
                 ret (s1j, s2j)) (seq 0 Nz) ;;
  let s1 := map fst s12 in
  let s2 := map snd s12 in
  let '((σ00, σ01), (σ10, σ11)) := σ m in
  r <- mapM (fun '(s1j, s2j) =>
               c <- solve [[σ00; σ01]; [σ10; σ11]] [s1j; s2j] ;;
               r0 <- getitem c 0 ;;
               r1 <- getitem c 1 ;;
               ret (r0, r1)) s12 ;;
  y1 <- getitem (res_y sol) 1 ;;
  if negb (Nat.eqb (length y1) Nz) then Raise ValueError else
  let c := (ofZ 1 * dec 1 100)%num in
  let h0 := map2 (fun y1j rj =>
                    (ofZ (-1) / θ * (σ00 * c + σ10 * y1j) + fst rj)%num) y1 r in
  let h1 := map2 (fun y1j rj =>
                    (ofZ (-1) / θ * (σ01 * c + σ11 * y1j) + snd rj)%num) y1 r in
  ret ([map fst r; map snd r; h0; h1], s1, s2).

(** The three entries of row [j] of the generator matrix [Q]. *)
Definition re_row (ηᵤ : list (list T)) (grid : list T) (Nz : nat)
           (Q : list (list T)) (j : nat) : result (list (list T)) :=
  u0 <- get2 ηᵤ 0 j ;;
  u1 <- get2 ηᵤ 1 j ;;
  zj <- getitem grid j ;;
  let μ := (fst (σz m) * u0 + snd (σz m) * u1 + αz m - βz m * zj)%num in
  let n2 := sqr (norm (σz m)) in
  let D := Dz m in
  if Nat.eqb j 0 then
    Q <- set2 Q 0 0 (μ / D - dec 1 2 * n2 / sqr D)%num ;;
    Q <- set2 Q 0 1 (- μ / D + n2 / sqr D)%num ;;
    set2 Q 0 2 (dec (-1) 2 * n2 / sqr D)%num
  else if Nat.eqb j (Nz - 1) then
    Q <- set2 Q j j (- μ / D - dec 1 2 * n2 / sqr D)%num ;;
    Q <- set2 Q j (j - 1) (μ / D + n2 / sqr D)%num ;;
    set2 Q j (j - 2) (dec (-1) 2 * n2 / sqr D)%num
  else
    Q <- set2 Q j (j - 1) (μ / (ofZ 2 * D) - dec 1 2 * n2 / sqr D)%num ;;
    Q <- set2 Q j j (n2 / sqr D)%num ;;
    set2 Q j (j + 1) (- μ / (ofZ 2 * D) - dec 1 2 * n2 / sqr D)%num.

Fixpoint re_rows (ηᵤ : list (list T)) (grid : list T) (Nz : nat)
         (Q : list (list T)) (js : list nat) : result (list (list T)) :=
  match js with
  | [] => Ok Q
  | j :: js' => Q' <- re_row ηᵤ grid Nz Q j ;; re_rows ηᵤ grid Nz Q' js'
  end.

(** [row[mask] = 1] and [sol[mask]] for a boolean mask. *)
Definition mask_set (mask : list bool) (row : list T) : list T :=
  map2 (fun (t : bool) e => if t then ofZ 1 else e) mask row.
Definition mask_select (mask : list bool) (l : list T) : list T :=
  map snd (filter fst (combine mask l)).

(** The generator matrix [Q] after the loop over the grid. *)
Definition entropy_Q (ηᵤ : list (list T)) (grid : list T)
  : result (list (list T)) :=
  let Nz := length grid in
  re_rows ηᵤ grid Nz (zeros2 Nz Nz) (seq 0 Nz).

(** [lhs[:, zgrid == self.z̄] = 1]. *)
Definition pin (grid : list T) (Q : list (list T)) : list (list T) :=
  map (mask_set (map (fun z => (z =? z̄ m)%num) grid)) Q.

(** [__RelativeEntropyUS(self, ηᵤ, ηₛ, zgrid)]: the array [q]. *)
Definition __RelativeEntropyUS (ηᵤ ηₛ : list (list T)) (grid : list T)
  : result (list T) :=
  Q <- entropy_Q ηᵤ grid ;;
  u0 <- getitem ηᵤ 0 ;; u1 <- getitem ηᵤ 1 ;;
  s0 <- getitem ηₛ 0 ;; s1 <- getitem ηₛ 1 ;;
  if negb (Nat.eqb (length u0) (length s0) && Nat.eqb (length u1) (length s1)
           && Nat.eqb (length u0) (length u1))
  then Raise ValueError else
  let tmp0 := map2 s_sub u0 s0 in
  let tmp1 := map2 s_sub u1 s1 in
  let rhs := map2 (fun p q => ((sqr p + sqr q) / ofZ 2)%num) tmp0 tmp1 in
  let mask := map (fun z => (z =? z̄ m)%num) grid in
  let lhs := pin grid Q in
  sol <- solve lhs rhs ;;
  ret (map (fun e => s_sqrt (e * ofZ 2)%num) (mask_select mask sol)).

End Solver.

Section Calibration.
Context {T : Type} `{Scalar T} `{Infinite T} `{Libs T}.

(** [__CalibratingTheta(self, θ, gridsearch = False)]. *)
Definition __CalibratingTheta (θ' : T) (gridsearch : bool) : method T (nd T) :=
  log (CallCalibratingTheta θ' gridsearch) ;;;
  if gridsearch then
    m <- get_self ;;
    log (CallMatchODE θ') ;;;
    res <- lift (__MatchODE m θ' None) ;;
    if (ofZ 1 <? res_diff res)%num then
      ret (Sc inf)
    else
      log (CallDistortion θ') ;;;
      '(Distorted, _, _) <- lift (__Distortion m res θ') ;;
      log CallRelativeEntropyUS ;;;
      q <- lift (__RelativeEntropyUS m (skipn 2 Distorted) (firstn 2 Distorted)
                   (res_x res)) ;;
      ret (Arr q - Sc (qᵤₛ m))%nd
  else
    m <- get_self ;;
    log (CallMatchODE θ') ;;;
    res <- lift (__MatchODE m θ' None) ;;
    put_self (with_dvErr m (Some (res_diff res))) ;;;
    m <- get_self ;;
    log (CallDistortion θ') ;;;
    '(Distorted, _, _) <- lift (__Distortion m res θ') ;;
    log CallRelativeEntropyUS ;;;
    q <- lift (__RelativeEntropyUS m (skipn 2 Distorted) (firstn 2 Distorted)
                 (res_x res)) ;;
    put_self (with_qErr m (Some (Arr q - Sc (qᵤₛ m))%nd)) ;;;
    ret (Arr q - Sc (qᵤₛ m))%nd.

Definition thetalist : list T :=
  [dec 1 10; dec 2 10; dec 3 10; dec 4 10; dec 6 10; dec 8 10; ofZ 1;
   dec 12 10].

(** [solvetheta(self)]. *)
Definition solvetheta : method T unit :=
  m <- get_self ;;
  if (qᵤₛ m =? inf)%num then
    put_self (with_θ m (Some inf)) ;;;
    m <- get_self ;;
    put_self (with_status m 1%Z)
  else
    values <- mapM (fun theta =>
                      r <- __CalibratingTheta theta true ;;
                      lift (item r)) thetalist ;;
    let minIdx := argmin_abs values in
    theta0guess <- lift (getitem thetalist minIdx) ;;
    log (CallFsolve theta0guess) ;;;
    root <- fsolve (@lift T) (fun e => __CalibratingTheta e false)
              theta0guess 20 ;;
    m <- get_self ;;
    put_self (with_θ m (Some root)) ;;;
    m <- get_self ;;
    qErr' <- lift (attr (qErr m) TypeError) ;;
    c1 <- lift (truth (nd_map (fun e => (e <? dec 1 100)%num) qErr')) ;;
    if c1 then
      dvErr' <- lift (attr (dvErr m) TypeError) ;;
      if (dvErr' <? dec 1 10000)%num then put_self (with_status m 1%Z)
      else ret tt
    else ret tt.

(** [σ.dot(Distorted[2:, :])]: the two rows of [drift]. *)
Definition drift_rows (m : self T) : result (list T * list T) :=
  Distorted' <- attr (Distorted m) TypeError ;;
  match skipn 2 Distorted' with
  | [h0; h1] =>
      if negb (Nat.eqb (length h0) (length h1)) then Raise ValueError else
      let '((σ00, σ01), (σ10, σ11)) := σ m in
      ret (map2 (fun p q => (σ00 * p + σ01 * q)%num) h0 h1,
           map2 (fun p q => (σ10 * p + σ11 * q)%num) h0 h1)
  | _ => Raise ValueError
  end.

(** [row + c1 ... ] against the grid: both arrays must have one length. *)
Definition along (f : T -> T -> T) (row grid : list T) : result (list T) :=
  if Nat.eqb (length row) (length grid) then Ok (map2 f row grid)
  else Raise ValueError.

(** The body of the loop of [UpdatingDrift]:
    [temp = self.__HJBODE(self.v['x'][j], self.v['y'][:, j], self.θ)] and
    [d2v[j] = temp[1]]. *)
Definition d2v_at (m : self T) (res : matched T) (j : nat) : result T :=
  xj <- getitem (res_x res) j ;;
  col <- column (res_y res) j ;;
  v0 <- getitem col 0 ;;
  v1 <- getitem col 1 ;;
  θ' <- attr (θ m) TypeError ;;
  temp <- __HJBODE m (Sc xj) (Sc v0, Sc v1) θ' ;;
  item (snd temp).

(** [UpdatingDrift(self)]. *)
Definition UpdatingDrift : method T unit :=
  m <- get_self ;;
  '(drift0, drift1) <- lift (drift_rows m) ;;
  v' <- lift (attr (v m) TypeError) ;;
  dk <- lift (along (fun e z => (e + αk m + βk m * (z - z̄ m))%num)
                drift0 (res_x v')) ;;
  put_self (with_driftk m (Some dk)) ;;;
  m <- get_self ;;
  dz <- lift (along (fun e z => (e + αz m - βz m * (z - z̄ m))%num)
                drift1 (res_x v')) ;;
  put_self (with_driftz m (Some dz)) ;;;
  m <- get_self ;;
  let Nz := length (res_x v') in
  d2v <- lift (mapM (d2v_at m v') (seq 0 Nz)) ;;
  if forallb (fun r => Nat.eqb (length r) (length d2v)) (firstn 2 (res_y v'))
  then put_self (with_v m (Some (with_res_y v' (firstn 2 (res_y v') ++ [d2v]))))
  else throw ValueError.

(** The first lines of [ExpectH(self)]: the drift field [μz] that every
    call of [FeynmanKac] in [ExpectH] receives. *)
Definition ExpectH_μz (m : self T) : result (list T) :=
  '(_, drift1) <- drift_rows m ;;
  v' <- attr (v m) TypeError ;;
  along (fun e z => (e + αz m - βz m * z)%num) drift1 (res_x v').

(** [expectH1 = FeynmanKac(μz, self.σz, self.v['x'], h1, T, Dt)] with
    [T = 1000] and [Dt = 0.1]. *)
Definition ExpectH_expectH1 (m : self T) : result (list (list T)) :=
  μz <- ExpectH_μz m ;;
  Distorted' <- attr (Distorted m) TypeError ;;
  h1 <- getitem Distorted' 2 ;;
  v' <- attr (v m) TypeError ;;
  FeynmanKac μz (σz m) (res_x v') h1 (ofZ 1000) (dec 1 10).

(** The diagnostics an evaluation in refinement mode leaves behind. *)
Definition diagnosed (s : Z) (t : option T) (m : self T) : Prop :=
  status m = s /\ θ m = t /\
  exists dv q, dvErr m = Some dv /\ qErr m = Some (Arr [q]).

End Calibration.

End StructuredModel.

(** ** The linear solvers in exact arithmetic *)

(** [numpy.linalg.solve] and [scipy.sparse.linalg.spsolve] are direct
    solvers.  Over the reals they are modelled by what they compute: the
    solution of a square system that has exactly one, and [LinAlgError] on a
    singular system. *)
Module ExactSolver.
Import Exact.
Local Open Scope R_scope.

Fixpoint dot (r x : list R) : R :=
  match r, x with
  | p :: r', q :: x' => p * q + dot r' x'
  | _, _ => 0
  end.

Definition matvec (A : list (list R)) (x : list R) : list R :=
  map (fun r => dot r x) A.

Definition square (A : list (list R)) (n : nat) : bool :=
  (Nat.eqb (length A) n && forallb (fun r => Nat.eqb (length r) n) A)%bool.

Definition is_solution (A : list (list R)) (b x : list R) : Prop :=
  length x = length b /\ matvec A x = b.

Definition exact_solve (A : list (list R)) (b : list R) : result (list R) :=
  if square A (length b) then
    match excluded_middle_informative (exists! x, is_solution A b x) with
    | left e => Ok (proj1_sig (constructive_definite_description _ e))
    | right _ => Raise LinAlgError
    end
  else Raise LinAlgError.

(** The libraries with both linear solvers exact; the other calls are
    those of [base]. *)
Definition exact_libs (base : Libs R) : Libs R :=
  {| solve_bvp := @solve_bvp R base;
     fsolve_next := @fsolve_next R base;
     fsolve_root := @fsolve_root R base;
     CubicSpline := @CubicSpline R base;
     solve := exact_solve;
     spsolve := exact_solve |}.

(** The [n] by [n] tridiagonal matrix with [dg] on the diagonal and [o]
    next to it. *)
Definition tri (dg o : R) (p q : nat) : R :=
  (if Nat.eqb q p then dg else 0)
  + (if Nat.eqb q (S p) then o else 0)
  + (if Nat.eqb (S q) p then o else 0).

Definition tridiag (dg o : R) (n : nat) : list (list R) :=
  map (fun p => map (tri dg o p) (seq 0 n)) (seq 0 n).

(** The off-diagonal entry of the time-stepping matrix of [FeynmanKac]
    when the drift is zero, and the triples the loop appends for row [j]. *)
Definition fk_off (n2 Dz Dt : R) : R := Dt * (1 / 2 * n2 / (Dz * Dz)).

Definition fk_triples (n2 Dz Dt : R) (Nz j : nat) : list (R * nat * nat) :=
  if Nat.eqb j 0 then [(IZR (-1), j, j)]
  else if Nat.eqb j (Nz - 1) then [(IZR (-1), j, j)]
  else [ (IZR (-1) + Dt * (- n2 / (Dz * Dz)), j, j);
         (Dt * (0 / (2 * Dz) + 1 / 2 * n2 / (Dz * Dz)), j, (j + 1)%nat);
         (Dt * (- 0 / (2 * Dz) + 1 / 2 * n2 / (Dz * Dz)), j, (j - 1)%nat) ].

(** A square matrix with trivial kernel. *)
Definition nonsingular (A : list (list R)) : Prop :=
  forall y, length y = length A -> matvec A y = repeat 0 (length A) ->
            y = repeat 0 (length A).

End ExactSolver.

(** ** Concrete inputs *)

Module Examples.
Import F64 StructuredModel.
Local Open Scope float_scope.
#[local] Set Warnings "-inexact-float".

(** The default parameter dictionary of [Tenuous.py]; [a], [b] and [d] are
    the binary64 values of the formulas of the source for these volatilities. *)
Definition default_params : params float :=
  {| p_αk := 0.484; p_αz := 0; p_βk := 1; p_βz := 0.014;
     p_σk := (0.477, 0); p_σz := (0.011, 0.025);
     p_δ := 0.002; p_ρ1 := 0; p_z̄ := 0;
     p_σ := ((0.477, 0), (0.011, 0.025));
     p_a := 5.245924695313565;
     p_b := -36.89727463312368;
     p_d := 1599.9999999999998;
     p_zl := -2.5; p_zr := 2.5 |}.

(** [StructuredModel(params, 0.05, qᵤₛ)]. *)
Definition default_model (qus : float) : self float :=
  __init__ default_params 0.05 qus None.

(** Stand-ins for the numerical libraries, enough to run the calibration:
    [solve_bvp] answers with a value row [k * x[0]] and the guessed
    derivative row, the spline is constant along each row, the root-finder
    accepts its first guess, and the linear solvers answer [c] everywhere. *)
Definition stub_libs (k c : float) : Libs float :=
  {| solve_bvp := fun _ _ x y =>
       Ok {| sol_x := x;
             sol_y := [map (fun _ => k * hd 0 x) x; nth 1 y []] |};
     fsolve_next := fun _ _ => None;
     fsolve_root := fun x0 _ => x0;
     CubicSpline := fun _ y xnew =>
       Ok (map (fun r => map (fun _ => hd 0 r) xnew) y);
     solve := fun _ rhs => Ok (map (fun _ => c) rhs);
     spsolve := fun _ rhs => Ok (map (fun _ => c) rhs) |}.

(** The default model with target 0.1 after [ApproxBound] found the slopes
    0.05 and -0.05. *)
Definition bounded_model : self float :=
  with_dvr (with_dvl (default_model 0.1) (Some 0.05)) (Some (-0.05)).

End Examples.

Module ExamplesDrift.
Import StructuredModel.
#[local] Set Warnings "-inexact-float".

(** A model in the state [HL] leaves it in: θ, a matched solution of two
    rows on the grid [grid], and a distortion of four rows. *)
Definition stored_model {T} `{Scalar T} (p : params T) (q0 qu θ' : T)
           (grid row0 row1 : list T) (rh : list (list T)) : self T :=
  with_θ
    (with_Distorted
       (with_v (__init__ p q0 qu None)
               (Some {| res_x := grid;
                        res_y := [row0; row1];
                        res_possol := {| sol_x := []; sol_y := [] |};
                        res_negsol := {| sol_x := []; sol_y := [] |};
                        res_diff := ofZ 0;
                        res_dv0 := ofZ 0 |}))
       (Some rh))
    (Some θ').

(** On binary64: the default parameters on the three grid points around
    the kink. *)
Definition stored_f64 : self float :=
  @stored_model float F64.scalar Examples.default_params
    0.05%float 0.1%float 0.5%float
    [(-0.01)%float; 0%float; 0.01%float]
    [1%float; 1%float; 1%float]
    [0.05%float; 0.05%float; 0.05%float]
    [[0%float; 0%float; 0%float]; [0%float; 0%float; 0%float];
     [0.1%float; 0.1%float; 0.1%float]; [0.2%float; 0.2%float; 0.2%float]].

(** Over the reals: unit coefficients, mean-reversion point [zbar], one
    grid point. *)
Definition exact_params (zbar : R) : params R :=
  {| p_αk := 1%R; p_αz := 1%R; p_βk := 1%R; p_βz := 1%R;
     p_σk := (1%R, 0%R); p_σz := (0%R, 1%R);
     p_δ := 1%R; p_ρ1 := 0%R; p_z̄ := zbar;
     p_σ := ((1%R, 0%R), (0%R, 1%R));
     p_a := 1%R; p_b := 0%R; p_d := 1%R;
     p_zl := (-1)%R; p_zr := 1%R |}.


End ExamplesDrift.

Module ExamplesEntropy.
Import StructuredModel.

(** Over the reals: the model of [ExamplesDrift.exact_params] with
    [z̄ = 0], the three grid points around the kink, and no distortion. *)
Definition entropy_model : self R :=
  @__init__ R Exact.scalar (ExamplesDrift.exact_params 0%R) 1%R 1%R None.
Definition entropy_grid : list R := [(- (1 / 100))%R; 0%R; (1 / 100)%R].
Definition entropy_η : list (list R) := [[0%R; 0%R; 0%R]; [0%R; 0%R; 0%R]].

(** Libraries that are never reached. *)
Definition silent_libs : Libs R :=
  {| solve_bvp := fun _ _ _ _ => Raise ValueError;
     fsolve_next := fun _ _ => None;
     fsolve_root := fun x0 _ => x0;
     CubicSpline := fun _ _ _ => Raise ValueError;
     solve := fun _ _ => Raise LinAlgError;
     spsolve := fun _ _ => Raise LinAlgError |}.

End ExamplesEntropy.

From Stdlib Require Import Permutation Sorted.

(** ** Reading NumPy values pointwise *)

(** Entry [j] of a value: the scalar itself when it is broadcast. *)
Definition nd_at {T} (d : T) (j : nat) (p : nd T) : T :=
  match p with
  | Sc s => s
  | Arr xs => nth j xs d
  end.

(** A value that broadcasts against arrays of [n] entries. *)
Definition nd_fits {T} (n : nat) (p : nd T) : Prop :=
  match p with
  | Sc _ => True
  | Arr xs => length xs = n
  end.

(** [p] fits the mesh and its entry [j] is [s]. *)
Definition nd_entry {T} (d : T) (n j : nat) (p : nd T) (s : T) : Prop :=
  nd_fits n p /\ nd_at d j p = s.

(** ** Reading the state and the call log of a run *)

(** [m'] is [m] with other values of [θ], [status], [dvErr] and [qErr]
    only. *)
Definition only_calibration_changed {T}
           (m m' : StructuredModel.self T) : Prop :=
  exists t s dv q,
    m' = StructuredModel.with_qErr
           (StructuredModel.with_dvErr
              (StructuredModel.with_status (StructuredModel.with_θ m t) s)
              dv)
           q.

(** The evaluations of [__CalibratingTheta] recorded in a log, in order:
    the value of θ and the flag [gridsearch] of each. *)
Definition calibrations {T} (tr : list (StructuredModel.call T))
  : list (T * bool) :=
  flat_map (fun c => match c with
                     | StructuredModel.CallCalibratingTheta θ g => [(θ, g)]
                     | _ => []
                     end) tr.

(** ** Linear combinations of arrays, entry by entry *)

Definition lincomb (α β : R) (x y : list R) : list R :=
  map2 (fun p q => (α * p + β * q)%R) x y.

(** ** The matrix of [__ChernoffEntropy] *)

(** A loop [for j in js: Q = step(Q, j)] over a matrix. *)
Fixpoint fill_rows {T} (step : list (list T) -> nat -> result (list (list T)))
         (Q : list (list T)) (js : list nat) : result (list (list T)) :=
  match js with
  | [] => Ok Q
  | j :: js' => Q' <- step Q j ;; fill_rows step Q' js'
  end.

Section Chernoff.
Import StructuredModel.
Context {T : Type} `{Scalar T}.
Variable m : self T.

(** The three entries of row [j] of the matrix [Q] that the local function
    [Rhos(s)] of [__ChernoffEntropy(self, η)] fills. *)
Definition ch_row (η : list (list T)) (s : T) (grid : list T) (Nz : nat)
           (Q : list (list T)) (j : nat) : result (list (list T)) :=
  u0 <- get2 η 0 j ;;
  u1 <- get2 η 1 j ;;
  xj <- getitem grid j ;;
  let μ := (s * (fst (σz m) * u0 + snd (σz m) * u1) + αz m - βz m * xj)%num in
  let n2 := sqr (norm (σz m)) in
  let w := (- s * (ofZ 1 - s) / ofZ 2 * sqr (norm (u0, u1)))%num in
  let D := Dz m in
  if Nat.eqb j 0 then
    Q <- set2 Q 0 0 (w - μ / D + dec 1 2 * n2 / sqr D)%num ;;
    Q <- set2 Q 0 1 (μ / D - n2 / sqr D)%num ;;
    set2 Q 0 2 (dec 1 2 * n2 / sqr D)%num
  else if Nat.eqb j (Nz - 1) then
    Q <- set2 Q j j (w + μ / D + dec 1 2 * n2 / sqr D)%num ;;
    Q <- set2 Q j (j - 1) (- μ / D - n2 / sqr D)%num ;;
    set2 Q j (j - 2) (dec 1 2 * n2 / sqr D)%num
  else
    Q <- set2 Q j (j - 1) (- μ / (ofZ 2 * D) + dec 1 2 * n2 / sqr D)%num ;;
    Q <- set2 Q j j (w - n2 / sqr D)%num ;;
    set2 Q j (j + 1) (μ / (ofZ 2 * D) + dec 1 2 * n2 / sqr D)%num.

(** The matrix [Q] of [Rhos(s)], whose largest real eigenvalue
    [__ChernoffEntropy] minimizes over [s]; the grid is [self.v['x']]. *)
Definition Rhos_Q (η : list (list T)) (s : T) : result (list (list T)) :=
  v' <- attr (v m) TypeError ;;
  let grid := res_x v' in
  let Nz := length grid in
  fill_rows (ch_row η s grid Nz) (zeros2 Nz Nz) (seq 0 Nz).

End Chernoff.

(** ** class [TenuousModel]: the lists of the constructor *)

(** What the constructor accepts for [q0s], [qus] and [ρs]: a Python list,
    a number, or a NumPy array. *)
Inductive pyarg (T : Type) : Type :=
| PyList (l : list T)
| PyScalar (e : T)
| PyArray (a : list T).
Arguments PyList {T} l.
Arguments PyScalar {T} e.
Arguments PyArray {T} a.

(** The attributes [q0s_list], [qus_list] and [ρ_list]. *)
Record tenuous_lists (T : Type) : Type := {
  q0s_list : list T;
  qus_list : list T;
  ρ_list : list T
}.

Section TenuousModel.
Context {T : Type} `{Scalar T} `{Infinite T}.

(** [sorted(l)] on numbers: a stable sort by [<] (insertion, from the
    right).  On lists without NaN every stable sort gives this list. *)
Fixpoint py_insert (x : T) (l : list T) : list T :=
  match l with
  | [] => [x]
  | y :: l' => if (y <? x)%num then y :: py_insert x l' else x :: y :: l'
  end.

Definition py_sorted (l : list T) : list T := fold_right py_insert [] l.

(** [if not isinstance(q, list): q = [q] if isinstance(q, (int, float,
    np.float)) else q.tolist()], under a NumPy that still has the alias
    [np.float] (before 1.24), as everywhere in this module. *)
Definition as_list (q : pyarg T) : list T :=
  match q with
  | PyList l => l
  | PyScalar e => [e]
  | PyArray a => a
  end.

(** [if np.inf in qus: pass / else: qus.append(np.inf)]: the object [qus]
    afterwards.  The test iterates over [qus], so a number raises; a NumPy
    array has no [append]. *)
Definition append_inf (qus : pyarg T) : result (pyarg T) :=
  match qus with
  | PyScalar _ => Raise TypeError
  | PyList l =>
      if existsb (fun e => (e =? inf)%num) l then Ok (PyList l)
      else Ok (PyList (l ++ [inf]))
  | PyArray a =>
      if existsb (fun e => (e =? inf)%num) a then Ok (PyArray a)
      else Raise AttributeError
  end.

(** The part of [TenuousModel.__init__] (and of [Plottingmodule.__init__],
    which repeats it) that builds the three sorted lists.  The list object
    passed as [qus] is modified in place: the second component is that
    object after the call. *)
Definition TenuousModel_lists (q0s qus ρs : pyarg T)
  : result (tenuous_lists T * pyarg T) :=
  let q0s' := as_list q0s in
  qus' <- append_inf qus ;;
  let ρs' := as_list ρs in
  ret ({| q0s_list := py_sorted q0s';
          qus_list := py_sorted (as_list qus');
          ρ_list := py_sorted ρs' |}, qus').

End TenuousModel.

(** Binary64 values that are numbers (not NaN), and their order. *)
Definition f64_number (x : float) : Prop := (x =? x)%float = true.
Definition f64_at_most (x y : float) : Prop := (x <=? y)%float = true.

(** ** More stored models *)

Module ExamplesStored.
Import StructuredModel.
#[local] Set Warnings "-inexact-float".

(** On binary64: the default parameters on four grid points, with a
    distortion of four rows. *)
Definition stored_four : self float :=
  @ExamplesDrift.stored_model float F64.scalar Examples.default_params
    0.05%float 0.1%float 0.5%float
    [(-0.01)%float; 0%float; 0.01%float; 0.02%float]
    [1%float; 1%float; 1%float; 1%float]
    [0.05%float; 0.05%float; 0.05%float; 0.05%float]
    [[0%float; 0%float; 0%float; 0%float];
     [0%float; 0%float; 0%float; 0%float];
     [0.1%float; 0.1%float; 0.1%float; 0.1%float];
     [0.2%float; 0.2%float; 0.2%float; 0.2%float]].

(** Over the reals: unit coefficients, mean-reversion point [zbar], the
    three grid points around the kink, no distortion. *)
Definition stored_three (zbar : R) : self R :=
  @ExamplesDrift.stored_model R Exact.scalar (ExamplesDrift.exact_params zbar)
    1%R 1%R 1%R
    ExamplesEntropy.entropy_grid [1%R; 1%R; 1%R] [1%R; 1%R; 1%R]
    [[0%R; 0%R; 0%R]; [0%R; 0%R; 0%R]; [0%R; 0%R; 0%R]; [0%R; 0%R; 0%R]].

End ExamplesStored.

(** * Properties *)

(** ** Reasoning about the two effect layers *)

Section MonadFacts.
Import StructuredModel.
Context {T : Type}.

Lemma result_bind_ok {A B} (c : result A) (k : A -> result B) (r : B) :
  (x <- c ;; k x) = Ok r -> exists e, c = Ok e /\ k e = Ok r.
Proof.
  destruct c as [e|x]; cbn; intros E; [eauto | discriminate].
Qed.

Lemma method_bind_ok {A B} (c : method T A) (k : A -> method T B) w r :
  (x <- c ;; k x) w = Ok r ->
  exists e w', c w = Ok (e, w') /\ k e w' = Ok r.
Proof.
  cbn. destruct (c w) as [[e w']|x]; intros E; [eauto | discriminate].
Qed.

Lemma lift_ok {A} (c : result A) (w : self T * list (call T)) r :
  lift c w = Ok r -> exists e, c = Ok e /\ r = (e, w).
Proof.
  unfold lift. destruct c; intros E; inversion E; eauto.
Qed.

End MonadFacts.

(** Peel one [bind] off a hypothesis [(x <- c ;; k) w = Ok r]. *)
Tactic Notation "step_method" hyp(E) "as" ident(e) ident(w) ident(E1) :=
  apply method_bind_ok in E; destruct E as (e & w & E1 & E).

(** ** Lists *)

Section ListFacts.

Lemma map2_length {A B C} (f : A -> B -> C) (l : list A) (k : list B) :
  length l = length k -> length (map2 f l k) = length l.
Proof.
  revert k. induction l as [|p l IH]; intros [|q k] E; cbn in *;
    try discriminate; auto.
Qed.



Lemma map_seq_shift {A} (f g : nat -> A) (n p q : nat) :
  (forall k, (k < n)%nat -> f (p + k)%nat = g (q + k)%nat) ->
  map f (seq p n) = map g (seq q n).
Proof.
  revert p q. induction n as [|n IH]; intros p q E; [reflexivity|].
  cbn [seq map]. f_equal.
  - specialize (E 0%nat ltac:(lia)). rewrite !Nat.add_0_r in E. exact E.
  - apply IH. intros k Hk. specialize (E (S k) ltac:(lia)).
    rewrite !Nat.add_succ_r in E. exact E.
Qed.

End ListFacts.


Section Frames.
Import StructuredModel.
Context {T : Type} `{Scalar T} `{Infinite T} `{Libs T}.

(** The numerical methods read the parameters only: assigning the
    diagnostics or the drifts does not change what they compute. *)
Lemma Distortion_with_dvErr (m : self T) e res θ' :
  __Distortion (with_dvErr m e) res θ' = __Distortion m res θ'.
Proof. reflexivity. Qed.

Lemma RelativeEntropyUS_with_dvErr (m : self T) e ηᵤ ηₛ grid :
  __RelativeEntropyUS (with_dvErr m e) ηᵤ ηₛ grid
  = __RelativeEntropyUS m ηᵤ ηₛ grid.
Proof. reflexivity. Qed.

Lemma HJBODE_with_drifts (m : self T) e1 e2 z v θ' :
  __HJBODE (with_driftz (with_driftk m e1) e2) z v θ' = __HJBODE m z v θ'.
Proof. reflexivity. Qed.

End Frames.
(** ** The θ calibration state machine ([solvetheta]) *)

Section StateMachine.
Import StructuredModel.
Context {T : Type} `{Scalar T} `{Infinite T} `{Libs T}.

(** C2.  When the target relative entropy [qᵤₛ] equals infinity, [solvetheta]
    sets [θ = inf] and [status = 1] and returns; every other attribute is
    left as it was, and the call log is unchanged: neither the θ grid
    search ([__CalibratingTheta]) nor the root-finder ([fsolve]) is
    invoked. *)
Theorem solvetheta_infinite_target (m : self T) (tr : list (call T)) :
  (qᵤₛ m =? inf)%num = true ->
  solvetheta (m, tr)
    = Ok (tt, (with_status (with_θ m (Some inf)) 1%Z, tr))
  /\ θ (with_status (with_θ m (Some inf)) 1%Z) = Some inf
  /\ status (with_status (with_θ m (Some inf)) 1%Z) = 1%Z.
Proof.
  intros E. split; [|split; reflexivity].
  unfold solvetheta.
  cbn [bind ret method_monad get_self put_self fst snd].
  rewrite E. reflexivity.
Qed.

(** What one call of [__CalibratingTheta] does in grid-search mode. *)
Lemma CalibratingTheta_gridsearch (m : self T) (tr : list (call T)) (θ' : T) :
  __CalibratingTheta θ' true (m, tr) =
  match __MatchODE m θ' None with
  | Raise x => Raise x
  | Ok res =>
      let tr1 := (tr ++ [CallCalibratingTheta θ' true]) ++ [CallMatchODE θ'] in
      if (ofZ 1 <? res_diff res)%num then Ok (Sc inf, (m, tr1))
      else
        match __Distortion m res θ' with
        | Raise x => Raise x
        | Ok (rh, _, _) =>
            match __RelativeEntropyUS m (skipn 2 rh) (firstn 2 rh) (res_x res)
            with
            | Raise x => Raise x
            | Ok q =>
                Ok ((Arr q - Sc (qᵤₛ m))%nd,
                    (m, (tr1 ++ [CallDistortion θ'])
                          ++ [CallRelativeEntropyUS]))
            end
        end
  end.
Proof.
  unfold __CalibratingTheta.
  cbn [bind ret method_monad get_self put_self log lift fst snd].
  destruct (__MatchODE m θ' None) as [res|x]; [|reflexivity].
  cbn [bind ret method_monad get_self put_self log lift fst snd].
  destruct (ofZ 1 <? res_diff res)%num; [reflexivity|].
  cbn [bind ret method_monad get_self put_self log lift fst snd].
  destruct (__Distortion m res θ') as [[[rh s1'] s2']|x]; [|reflexivity].
  cbn [bind ret method_monad get_self put_self log lift fst snd].
  destruct (__RelativeEntropyUS m (skipn 2 rh) (firstn 2 rh) (res_x res));
    reflexivity.
Qed.

(** ... and in refinement mode. *)
Lemma CalibratingTheta_refine (m : self T) (tr : list (call T)) (θ' : T) :
  __CalibratingTheta θ' false (m, tr) =
  match __MatchODE m θ' None with
  | Raise x => Raise x
  | Ok res =>
      match __Distortion m res θ' with
      | Raise x => Raise x
      | Ok (rh, _, _) =>
          match __RelativeEntropyUS m (skipn 2 rh) (firstn 2 rh) (res_x res)
          with
          | Raise x => Raise x
          | Ok q =>
              Ok ((Arr q - Sc (qᵤₛ m))%nd,
                  (with_qErr (with_dvErr m (Some (res_diff res)))
                             (Some (Arr q - Sc (qᵤₛ m))%nd),
                   (((tr ++ [CallCalibratingTheta θ' false])
                       ++ [CallMatchODE θ']) ++ [CallDistortion θ'])
                     ++ [CallRelativeEntropyUS]))
          end
      end
  end.
Proof.
  unfold __CalibratingTheta.
  cbn [bind ret method_monad get_self put_self log lift fst snd].
  destruct (__MatchODE m θ' None) as [res|x]; [|reflexivity].
  cbn [bind ret method_monad get_self put_self log lift fst snd].
  rewrite Distortion_with_dvErr.
  destruct (__Distortion m res θ') as [[[rh s1'] s2']|x]; [|reflexivity].
  cbn [bind ret method_monad get_self put_self log lift fst snd].
  rewrite RelativeEntropyUS_with_dvErr.
  destruct (__RelativeEntropyUS m (skipn 2 rh) (firstn 2 rh) (res_x res));
    reflexivity.
Qed.

(** C8.  In grid-search mode a kink residual above 1 makes
    [__CalibratingTheta] return infinity: it does not raise, the object is
    unchanged, and neither [__Distortion] nor [__RelativeEntropyUS] is
    called.  In refinement mode there is no such test: whatever the
    residual, the entropy difference is computed, returned and recorded
    ([dvErr], [qErr]). *)
Theorem CalibratingTheta_threshold
        (m : self T) (tr : list (call T)) (θ' : T) (res : matched T) :
  __MatchODE m θ' None = Ok res ->
  ((ofZ 1 <? res_diff res)%num = true ->
   __CalibratingTheta θ' true (m, tr)
   = Ok (Sc inf,
         (m, (tr ++ [CallCalibratingTheta θ' true]) ++ [CallMatchODE θ'])))
  /\
  (forall rh s1' s2' q,
     __Distortion m res θ' = Ok (rh, s1', s2') ->
     __RelativeEntropyUS m (skipn 2 rh) (firstn 2 rh) (res_x res) = Ok q ->
     __CalibratingTheta θ' false (m, tr)
     = Ok ((Arr q - Sc (qᵤₛ m))%nd,
           (with_qErr (with_dvErr m (Some (res_diff res)))
                      (Some (Arr q - Sc (qᵤₛ m))%nd),
            (((tr ++ [CallCalibratingTheta θ' false])
                ++ [CallMatchODE θ']) ++ [CallDistortion θ'])
              ++ [CallRelativeEntropyUS]))).
Proof.
  intros EM. split.
  - intros Ed. rewrite CalibratingTheta_gridsearch, EM. cbn zeta.
    rewrite Ed. reflexivity.
  - intros rh s1' s2' q ED ER.
    rewrite CalibratingTheta_refine, EM, ED, ER. reflexivity.
Qed.

(** Grid-search calls leave the object as it is. *)
Lemma CalibratingTheta_gridsearch_frame
      (m : self T) (tr : list (call T)) (θ' : T) r w :
  __CalibratingTheta θ' true (m, tr) = Ok (r, w) -> fst w = m.
Proof.
  rewrite CalibratingTheta_gridsearch.
  destruct (__MatchODE m θ' None) as [res|x]; [|discriminate].
  cbn zeta. destruct (ofZ 1 <? res_diff res)%num.
  - intros E; inversion E; reflexivity.
  - destruct (__Distortion m res θ') as [[[rh s1'] s2']|x]; [|discriminate].
    destruct (__RelativeEntropyUS m (skipn 2 rh) (firstn 2 rh) (res_x res));
      [|discriminate].
    intros E; inversion E; reflexivity.
Qed.

Lemma gridsearch_phase_frame (l : list T) (m : self T) (tr : list (call T))
      vals w :
  mapM (fun theta => r <- __CalibratingTheta theta true ;; lift (item r)) l
       (m, tr) = Ok (vals, w) ->
  fst w = m.
Proof.
  revert m tr vals w. induction l as [|θ' l IH]; intros m tr vals w E.
  - cbn in E. inversion E. reflexivity.
  - cbn [mapM] in E.
    step_method E as v1 w1 E1. step_method E1 as r w2 E2.
    destruct w2 as [m1 tr1].
    apply CalibratingTheta_gridsearch_frame in E2. cbn in E2. subst m1.
    apply lift_ok in E1. destruct E1 as (y & _ & Ew). inversion Ew; subst.
    step_method E as vs w3 E3. destruct w3 as [m2 tr2].
    apply IH in E3. cbn in E3. subst m2.
    cbn in E. inversion E. reflexivity.
Qed.

Lemma refine_call_diagnosed (m : self T) (tr : list (call T)) (θ' : T) r w y :
  __CalibratingTheta θ' false (m, tr) = Ok (r, w) ->
  item r = Ok y ->
  diagnosed (status m) (θ m) (fst w).
Proof.
  rewrite CalibratingTheta_refine.
  destruct (__MatchODE m θ' None) as [res|x]; [|discriminate].
  destruct (__Distortion m res θ') as [[[rh s1'] s2']|x]; [|discriminate].
  destruct (__RelativeEntropyUS m (skipn 2 rh) (firstn 2 rh) (res_x res))
    as [q|x]; [|discriminate].
  intros E Ey. inversion E; subst. clear E.
  cbn [fst]. repeat split.
  exists (res_diff res).
  cbn [nd_map2] in Ey |- *.
  match type of Ey with
  | item (Arr ?l) = _ => destruct l as [|q0 [|q1 l']] eqn:Eq
  end; cbn in Ey; try discriminate.
  exists q0. split; reflexivity.
Qed.

Lemma fsolve_loop_diagnosed (x0 : T) (fuel : nat) :
  forall history (m : self T) (tr : list (call T)) root w,
    diagnosed (status m) (θ m) m ->
    fsolve_loop (@lift T) (fun e => __CalibratingTheta e false) x0 history fuel
                (m, tr) = Ok (root, w) ->
    diagnosed (status m) (θ m) (fst w).
Proof.
  induction fuel as [|n IH]; intros history m tr root w D E.
  - cbn in E. inversion E. exact D.
  - cbn [fsolve_loop] in E.
    destruct (fsolve_next x0 history) as [x|].
    + step_method E as r w1 E1. destruct w1 as [m1 tr1].
      step_method E as y' w2 E2. apply lift_ok in E2.
      destruct E2 as (y & Ey & Ew). inversion Ew; subst. clear Ew.
      pose proof (refine_call_diagnosed _ _ _ E1 Ey) as D1. cbn [fst] in D1.
      pose proof D1 as (Es & Et & _).
      rewrite <- Es, <- Et in D1.
      specialize (IH _ _ _ _ _ D1 E).
      rewrite Es, Et in IH. exact IH.
    + cbn in E. inversion E. exact D.
Qed.

Lemma fsolve_diagnosed (x0 : T) (fuel : nat) (m : self T)
      (tr : list (call T)) root w :
  fsolve (@lift T) (fun e => __CalibratingTheta e false) x0 fuel (m, tr)
  = Ok (root, w) ->
  diagnosed (status m) (θ m) (fst w).
Proof.
  unfold fsolve. intros E.
  step_method E as r w1 E1. destruct w1 as [m1 tr1].
  step_method E as y' w2 E2. apply lift_ok in E2.
  destruct E2 as (y & Ey & Ew). inversion Ew; subst. clear Ew.
  pose proof (refine_call_diagnosed _ _ _ E1 Ey) as D1. cbn [fst] in D1.
  pose proof D1 as (Es & Et & _).
  rewrite <- Es, <- Et in D1.
  pose proof (@fsolve_loop_diagnosed x0 fuel _ _ _ _ _ D1 E) as D2.
  rewrite Es, Et in D2. exact D2.
Qed.

(** C1.  [solvetheta] on a model that is not yet solved and whose target
    is not infinite: when it returns, a root [θ] has been stored, the
    diagnostics [dvErr] and [qErr] are recorded, and [status] is 1 exactly
    when [qErr < 1e-2] and [dvErr < 1e-4]; otherwise it is still 0. *)
Theorem solvetheta_status_iff
        (m : self T) (tr : list (call T)) (m' : self T) (tr' : list (call T)) :
  (qᵤₛ m =? inf)%num = false ->
  status m = 0%Z ->
  solvetheta (m, tr) = Ok (tt, (m', tr')) ->
  exists root dv q,
    θ m' = Some root /\ dvErr m' = Some dv /\ qErr m' = Some (Arr [q]) /\
    (status m' = 1%Z <->
     (q <? dec 1 100)%num = true /\ (dv <? dec 1 10000)%num = true) /\
    (status m' = 1%Z \/ status m' = 0%Z).
Proof.
  intros Einf Est E. unfold solvetheta in E.
  step_method E as m0 w0 E0. cbn in E0. inversion E0; subst m0 w0. clear E0.
  rewrite Einf in E.
  step_method E as vals w1 Eg. destruct w1 as [m1 tr1].
  apply gridsearch_phase_frame in Eg. cbn [fst] in Eg. subst m1.
  step_method E as guess w2 Eguess.
  apply lift_ok in Eguess. destruct Eguess as (g & _ & Ew).
  inversion Ew; subst. clear Ew.
  step_method E as u w3 El. cbn in El. inversion El; subst. clear El.
  step_method E as root w4 Ef. destruct w4 as [m2 tr2].
  apply fsolve_diagnosed in Ef. cbn [fst] in Ef.
  destruct Ef as (Es & Et & dv & q & Edv & Eq).
  step_method E as m3 w5 E5. cbn in E5. inversion E5; subst. clear E5.
  step_method E as u2 w6 E6. cbn in E6. inversion E6; subst. clear E6.
  step_method E as m4 w7 E7. cbn in E7. inversion E7; subst. clear E7.
  step_method E as qe w8 E8. apply lift_ok in E8.
  destruct E8 as (qe' & Eqe & Ew). inversion Ew; subst. clear Ew.
  cbn [qErr with_θ] in Eqe.
  rewrite Eq in Eqe. cbn in Eqe. inversion Eqe; subst. clear Eqe.
  step_method E as c1 w9 E9. apply lift_ok in E9.
  destruct E9 as (c1' & Ec & Ew). inversion Ew; subst. clear Ew.
  cbn in Ec. inversion Ec; subst. clear Ec.
  exists root, dv, q.
  destruct (q <? dec 1 100)%num.
  - step_method E as de w10 E10. apply lift_ok in E10.
    destruct E10 as (de' & Ede & Ew). inversion Ew; subst. clear Ew.
    cbn [dvErr with_θ] in Ede.
    rewrite Edv in Ede. cbn in Ede. injection Ede as <-.
    destruct (dv <? dec 1 10000)%num.
    + cbn in E. inversion E; subst. cbn. repeat split; auto.
    + cbn in E. inversion E; subst. cbn.
      rewrite Es, Est. repeat split; auto; try discriminate.
      intros [_ F]; discriminate.
  - cbn in E. inversion E; subst. cbn.
    rewrite Es, Est. repeat split; auto; try discriminate.
    intros [F _]; discriminate.
Qed.

End StateMachine.

(** ** The quadratic control minimizer ([__mined]) *)

Section Minimizer.
Import StructuredModel.
Context {T : Type} `{Scalar T}.

(** C3 (as the code has it).  A scalar call returns the pair of the
    minimized objective and the selected control: the objective is
    Python's [min] of the two branch objectives, the control is
    [s21 * (mined1 <= mined2) + s22 * (mined1 > mined2)].  A call on an
    array of [v'] values returns the array of elementwise minima only, with
    no control values. *)
Theorem mined_return_shapes (m : self T) :
  (forall z dv : T,
      exists r21 r22 m1 m2 : T,
        s21 (mined_branches m (Sc z) (Sc dv)) = Sc r21 /\
        s22 (mined_branches m (Sc z) (Sc dv)) = Sc r22 /\
        mined1 (mined_branches m (Sc z) (Sc dv)) = Sc m1 /\
        mined2 (mined_branches m (Sc z) (Sc dv)) = Sc m2 /\
        __mined m (Sc z) (Sc dv)
        = MinedPair
            (Sc (if (m2 <? m1)%num then m2 else m1))
            (Sc (r21 * b2s (m1 <=? m2) + r22 * b2s (m2 <? m1))%num))
  /\
  (forall (z : nd T) (dv : list T),
      exists m1 m2 : list T,
        mined1 (mined_branches m z (Arr dv)) = Arr m1 /\
        mined2 (mined_branches m z (Arr dv)) = Arr m2 /\
        __mined m z (Arr dv) = MinedArr (Arr (map2 np_min m1 m2))).
Proof.
  split.
  - intros z dv. do 4 eexists. repeat split.
  - intros z dv.
    assert (E : forall p q : nd T, exists l, (p + Arr dv * q)%nd = Arr l).
    { intros p q. destruct p, q; cbn; eauto. }
    unfold __mined.
    destruct (mined1 (mined_branches m z (Arr dv))) as [e|m1] eqn:E1.
    { exfalso. unfold mined_branches in E1. cbn [mined1] in E1.
      unfold np_squeeze in E1.
      match type of E1 with (?p + Arr dv * ?q)%nd = _ =>
        destruct (E p q) as [l El]; rewrite El in E1; discriminate end. }
    destruct (mined2 (mined_branches m z (Arr dv))) as [e|m2] eqn:E2.
    { exfalso. unfold mined_branches in E2. cbn [mined2] in E2.
      unfold np_squeeze in E2.
      match type of E2 with (?p + Arr dv * ?q)%nd = _ =>
        destruct (E p q) as [l El]; rewrite El in E2; discriminate end. }
    exists m1, m2. repeat split.
Qed.

End Minimizer.

(** *** On binary64 *)

Module MinimizerF64.
Import F64 StructuredModel Examples.
Local Open Scope float_scope.
#[local] Set Warnings "-inexact-float".

(** The claim C3 as stated fails on an array call: for the default model
    and the two mesh points [z = 0, 0.01] with [v' = 0.05], [__mined]
    returns the two minima and nothing else. *)
Lemma mined_array_call_returns_no_control :
  __mined (default_model 0.1) (Arr [0; 0.01]) (Arr [0.05; 0.05])
  = MinedArr (Arr [0.0048399999999999997; 0.004912520087781886])
  /\ ~ (exists res ctrl,
           __mined (default_model 0.1) (Arr [0; 0.01]) (Arr [0.05; 0.05])
           = MinedPair res ctrl).
Proof.
  assert (E : __mined (default_model 0.1) (Arr [0; 0.01]) (Arr [0.05; 0.05])
              = MinedArr (Arr [0.0048399999999999997; 0.004912520087781886]))
    by (vm_compute; reflexivity).
  split; [exact E|].
  intros (res & ctrl & E'). rewrite E in E'. discriminate.
Qed.

(** Why a NaN can get lost: every comparison with NaN is false, so Python's
    [min] keeps its first argument when the second is NaN, while [np.min]
    answers NaN. *)
Lemma ltb_nan_left (p : float) : (nan <? p) = false.
Proof. rewrite ltb_spec. reflexivity. Qed.

Lemma leb_nan_right (p : float) : (p <=? nan) = false.
Proof.
  rewrite leb_spec. change (Prim2SF nan) with S754_nan.
  destruct (Prim2SF p) as [[|]|[|]| |[|] ? ?]; reflexivity.
Qed.

Lemma py_min_nan_right (p : float) : py_min p nan = p.
Proof.
  unfold py_min. cbn [s_ltb scalar]. rewrite ltb_nan_left. reflexivity.
Qed.

Lemma np_min_nan_right (p : float) : isnan (np_min p nan) = true.
Proof.
  unfold np_min. destruct (isnan p) eqn:E; [exact E|]. reflexivity.
Qed.

(** Whenever the second branch objective of a scalar call is NaN, [__mined]
    answers with the first one and the control 0 times each root. *)
Lemma mined_scalar_second_branch_nan (m : self float) (z dv m1 : float) :
  mined1 (mined_branches m (Sc z) (Sc dv)) = Sc m1 ->
  mined2 (mined_branches m (Sc z) (Sc dv)) = Sc nan ->
  __mined m (Sc z) (Sc dv)
  = MinedPair (Sc m1)
      (s21 (mined_branches m (Sc z) (Sc dv)) * Sc 0
       + s22 (mined_branches m (Sc z) (Sc dv)) * Sc 0)%nd.
Proof.
  intros E1 E2. unfold __mined. cbv zeta. rewrite E1, E2.
  cbn [nd_map2]. rewrite py_min_nan_right.
  cbn [s_ltb s_leb scalar]. rewrite ltb_nan_left, leb_nan_right.
  reflexivity.
Qed.


End MinimizerF64.

(** ** [UpdatingDrift] *)

Section Drift.
Import StructuredModel.
Context {T : Type} `{Scalar T}.

(** What a call of [UpdatingDrift] that returns has done. *)
Lemma UpdatingDrift_ok (m : self T) (tr : list (call T))
      (m' : self T) (tr' : list (call T)) :
  UpdatingDrift (m, tr) = Ok (tt, (m', tr')) ->
  exists drift0 drift1 res dk dz d2v,
    drift_rows m = Ok (drift0, drift1) /\
    v m = Some res /\
    along (fun e z => (e + αk m + βk m * (z - z̄ m))%num) drift0 (res_x res)
    = Ok dk /\
    along (fun e z => (e + αz m - βz m * (z - z̄ m))%num) drift1 (res_x res)
    = Ok dz /\
    mapM (d2v_at m res) (seq 0 (length (res_x res))) = Ok d2v /\
    m' = with_v (with_driftz (with_driftk m (Some dk)) (Some dz))
                (Some (with_res_y res (firstn 2 (res_y res) ++ [d2v]))) /\
    tr' = tr.
Proof.
  intros E. unfold UpdatingDrift in E.
  step_method E as m0 w0 E0. cbn in E0. inversion E0; subst m0 w0. clear E0.
  step_method E as dr w1 E1. apply lift_ok in E1.
  destruct E1 as (dr' & Edr & Ew). inversion Ew; subst. clear Ew.
  destruct dr' as [drift0 drift1].
  step_method E as res w2 E2. apply lift_ok in E2.
  destruct E2 as (res' & Eres & Ew). inversion Ew; subst. clear Ew.
  destruct (v m) as [res|] eqn:Ev; [|discriminate].
  cbn in Eres. injection Eres as <-.
  step_method E as dk w3 E3. apply lift_ok in E3.
  destruct E3 as (dk' & Edk & Ew). inversion Ew; subst. clear Ew.
  step_method E as u1 w4 E4. cbn in E4. inversion E4; subst. clear E4.
  step_method E as m1 w5 E5. cbn in E5. inversion E5; subst. clear E5.
  step_method E as dz w6 E6. apply lift_ok in E6.
  destruct E6 as (dz' & Edz & Ew). inversion Ew; subst. clear Ew.
  step_method E as u2 w7 E7. cbn in E7. inversion E7; subst. clear E7.
  step_method E as m2 w8 E8. cbn in E8. inversion E8; subst. clear E8.
  step_method E as d2v w9 E9. apply lift_ok in E9.
  destruct E9 as (d2v' & Ed & Ew). inversion Ew; subst. clear Ew.
  destruct (forallb _ _); [|discriminate].
  cbn in E. inversion E; subst. clear E.
  exists drift0, drift1, res, dk', dz', d2v'.
  repeat split; auto.
Qed.


(** Conversely, [UpdatingDrift] returns whenever the stored arrays have
    matching shapes and the loop over the grid succeeds. *)
Lemma UpdatingDrift_runs (m : self T) (tr : list (call T))
      (drift0 drift1 : list T) (res : matched T) (dk dz d2v : list T) :
  drift_rows m = Ok (drift0, drift1) ->
  v m = Some res ->
  along (fun e z => (e + αk m + βk m * (z - z̄ m))%num) drift0 (res_x res)
  = Ok dk ->
  along (fun e z => (e + αz m - βz m * (z - z̄ m))%num) drift1 (res_x res)
  = Ok dz ->
  mapM (d2v_at m res) (seq 0 (length (res_x res))) = Ok d2v ->
  forallb (fun r => Nat.eqb (length r) (length d2v)) (firstn 2 (res_y res))
  = true ->
  UpdatingDrift (m, tr)
  = Ok (tt, (with_v (with_driftz (with_driftk m (Some dk)) (Some dz))
                    (Some (with_res_y res (firstn 2 (res_y res) ++ [d2v]))),
             tr)).
Proof.
  intros Edr Ev Edk Edz Ed Es. unfold UpdatingDrift.
  cbn [bind ret method_monad get_self put_self lift fst snd].
  rewrite Edr. cbn [bind ret method_monad get_self put_self lift fst snd].
  rewrite Ev. cbn [attr bind ret method_monad get_self put_self lift fst snd].
  rewrite Edk. cbn [bind ret method_monad get_self put_self lift fst snd].
  change (along
            (fun e z : T =>
               (e + αz (with_driftk m (Some dk))
                - βz (with_driftk m (Some dk))
                  * (z - z̄ (with_driftk m (Some dk))))%num)
            drift1 (res_x res))
    with (along (fun e z => (e + αz m - βz m * (z - z̄ m))%num) drift1
                (res_x res)).
  rewrite Edz. cbn [bind ret method_monad get_self put_self lift fst snd].
  change (mapM (d2v_at (with_driftz (with_driftk m (Some dk)) (Some dz)) res))
    with (mapM (d2v_at m res)).
  rewrite Ed. cbn [bind ret method_monad get_self put_self lift fst snd].
  rewrite Es. reflexivity.
Qed.


Lemma getitem_ok {A} (l : list A) (j : nat) :
  (j < length l)%nat -> exists e, getitem l j = Ok e.
Proof.
  intros Hj. unfold getitem.
  destruct (nth_error l j) as [e|] eqn:E; [eauto|].
  apply nth_error_None in E. lia.
Qed.



(** C10.  [UpdatingDrift] on a stored matched solution of two rows (value
    and first derivative): the grid [v['x']] and both rows of [v['y']] are
    what they were, and the only change to [v['y']] is a third row, the
    second derivative [d2v] evaluated from the right-hand side of the HJB
    equation at the stored θ. *)
Theorem UpdatingDrift_frame (m : self T) (tr : list (call T))
        (m' : self T) (tr' : list (call T)) (res : matched T) :
  v m = Some res ->
  length (res_y res) = 2 ->
  UpdatingDrift (m, tr) = Ok (tt, (m', tr')) ->
  exists res' d2v,
    v m' = Some res' /\
    res_x res' = res_x res /\
    nth_error (res_y res') 0 = nth_error (res_y res) 0 /\
    nth_error (res_y res') 1 = nth_error (res_y res) 1 /\
    res_y res' = res_y res ++ [d2v] /\
    mapM (d2v_at m res) (seq 0 (length (res_x res))) = Ok d2v /\
    res_possol res' = res_possol res /\
    res_negsol res' = res_negsol res /\
    res_diff res' = res_diff res /\
    res_dv0 res' = res_dv0 res.
Proof.
  intros Ev Hlen E.
  apply UpdatingDrift_ok in E.
  destruct E as (drift0 & drift1 & res0 & dk & dz & d2v & _ & Ev' & _ & _
                 & Ed & -> & _).
  rewrite Ev in Ev'. injection Ev' as <-.
  destruct (res_y res) as [|r0 [|r1 [|r2 rest]]] eqn:Ey; try discriminate.
  exists (with_res_y res (firstn 2 [r0; r1] ++ [d2v])), d2v.
  cbn. repeat split; auto.
Qed.

End Drift.

(** ** The two z-drift fields, in exact arithmetic *)

Module DriftExact.
Import Exact StructuredModel.
Local Open Scope R_scope.



End DriftExact.

(** ** The canonical state grid, in exact arithmetic *)

Module GridExact.
Import Exact StructuredModel.
Local Open Scope R_scope.
#[local] Set Warnings "-inexact-float".










End GridExact.

(** The grid of every matched solution is the canonical grid of the
    model's [Dz], and the constructor sets [Dz = 0.01]. *)
Lemma MatchODE_grid {T : Type} `{Scalar T} `{Libs T}
      (m : StructuredModel.self T) (θ' : T) (g : option T)
      (res : StructuredModel.matched T) :
  StructuredModel.__MatchODE m θ' g = Ok res ->
  StructuredModel.res_x res = StructuredModel.zgrid (StructuredModel.Dz m).
Proof.
  unfold StructuredModel.__MatchODE. intros E.
  repeat (apply result_bind_ok in E; destruct E as (? & _ & E)).
  inversion E. reflexivity.
Qed.

Lemma init_Dz {T : Type} `{Scalar T} (p : StructuredModel.params T)
      (q0 qu : T) (r : option T) :
  StructuredModel.Dz (StructuredModel.__init__ p q0 qu r) = dec 1 100.
Proof. reflexivity. Qed.

(** ** The exact linear solver *)

Module SolverFacts.
Import Exact ExactSolver.
Local Open Scope R_scope.

Lemma exact_solve_unique (A : list (list R)) (b x : list R) :
  square A (length b) = true ->
  is_solution A b x ->
  (forall y, is_solution A b y -> y = x) ->
  exact_solve A b = Ok x.
Proof.
  intros Hs Hx Hu. unfold exact_solve. rewrite Hs.
  destruct (excluded_middle_informative (exists ! x0, is_solution A b x0))
    as [e|n].
  - destruct (constructive_definite_description _ e) as [x' Hx']. cbn.
    f_equal. apply Hu. exact Hx'.
  - exfalso. apply n. exists x. split; [exact Hx|].
    intros y Hy. symmetry. apply Hu, Hy.
Qed.




Lemma square_spec (A : list (list R)) (n : nat) :
  square A n = true <-> length A = n /\ Forall (fun r => length r = n) A.
Proof.
  unfold square. rewrite andb_true_iff, Nat.eqb_eq, forallb_forall, Forall_forall.
  split; intros [E F]; split; auto; intros r Hr.
  - apply Nat.eqb_eq, F, Hr.
  - apply Nat.eqb_eq, F, Hr.
Qed.

Lemma dot_sub (r y x : list R) :
  length y = length x ->
  dot r (map2 Rminus y x) = dot r y - dot r x.
Proof.
  revert y x. induction r as [|p r IH]; intros [|a y] [|b x] E; cbn in *;
    try discriminate; try ring.
  rewrite IH by lia. ring.
Qed.

Lemma matvec_sub (A : list (list R)) (y x : list R) :
  length y = length x ->
  matvec A (map2 Rminus y x) = map2 Rminus (matvec A y) (matvec A x).
Proof.
  intros E. unfold matvec. induction A as [|r A IH]; cbn; [reflexivity|].
  rewrite dot_sub, IH by exact E. reflexivity.
Qed.

Lemma map2_sub_same (u : list R) : map2 Rminus u u = repeat 0 (length u).
Proof.
  induction u as [|p u IH]; cbn; [reflexivity|]. rewrite IH. f_equal. ring.
Qed.

Lemma map2_sub_zero (y x : list R) :
  length y = length x -> map2 Rminus y x = repeat 0 (length x) -> y = x.
Proof.
  revert x. induction y as [|a y IH]; intros [|b x] E Z; cbn in *;
    try discriminate; [reflexivity|].
  injection Z as Z0 Z. f_equal; [lra|]. apply IH; [lia|exact Z].
Qed.

(** A non-singular square system has the solution one exhibits. *)
Lemma exact_solve_nonsingular (A : list (list R)) (b x : list R) :
  square A (length b) = true ->
  nonsingular A ->
  is_solution A b x ->
  exact_solve A b = Ok x.
Proof.
  intros Hs Hn Hx. apply exact_solve_unique; [exact Hs|exact Hx|].
  intros y Hy. destruct Hx as [Lx Ex], Hy as [Ly Ey].
  pose proof Hs as Hs'. apply square_spec in Hs'. destruct Hs' as [LA _].
  apply map2_sub_zero; [lia|].
  replace (length x) with (length A) by lia.
  apply Hn.
  - rewrite map2_length; lia.
  - rewrite matvec_sub by lia. rewrite Ey, Ex, map2_sub_same. f_equal. lia.
Qed.

Lemma dot_zero_map {A} (l : list A) (x : list R) :
  dot (map (fun _ => 0) l) x = 0.
Proof.
  revert x. induction l as [|p l IH]; intros [|a x]; cbn; auto.
  rewrite IH. ring.
Qed.

Lemma dot_add_map {A} (f g : A -> R) (l : list A) (x : list R) :
  dot (map (fun q => f q + g q) l) x = dot (map f l) x + dot (map g l) x.
Proof.
  revert x. induction l as [|p l IH]; intros [|a x]; cbn; try ring.
  rewrite IH. ring.
Qed.

(** A row with a single entry [e], at index [k] from the start [s]. *)
Lemma dot_single (e : R) (n : nat) :
  forall (s k : nat) (x : list R),
    length x = n ->
    dot (map (fun q => if Nat.eqb q (s + k) then e else 0) (seq s n)) x
    = if Nat.ltb k n then e * nth k x 0 else 0.
Proof.
  induction n as [|n IH]; intros s k [|a x] E; cbn in E; try discriminate.
  - reflexivity.
  - cbn [seq map dot]. destruct k as [|k].
    + rewrite Nat.add_0_r, Nat.eqb_refl.
      rewrite (map_ext_in _ (fun _ => 0)).
      * rewrite dot_zero_map. cbn. ring.
      * intros q Hq. apply in_seq in Hq.
        destruct (Nat.eqb_spec q s); [lia|reflexivity].
    + destruct (Nat.eqb_spec s (s + S k)); [lia|].
      rewrite (map_ext _ (fun q => if Nat.eqb q (S s + k) then e else 0)).
      * rewrite IH by lia. cbn [nth].
        change (Nat.ltb (S k) (S n)) with (Nat.ltb k n).
        destruct (Nat.ltb k n); ring.
      * intros q. replace (S s + k)%nat with (s + S k)%nat by lia.
        reflexivity.
Qed.

(** A row of the tridiagonal matrix applied to a vector. *)
Lemma tridiag_row_dot (dg o : R) (n p : nat) (x : list R) :
  length x = n ->
  dot (map (tri dg o p) (seq 0 n)) x
  = (if Nat.ltb p n then dg * nth p x 0 else 0)
    + (if Nat.ltb (S p) n then o * nth (S p) x 0 else 0)
    + (if Nat.ltb 0 p then (if Nat.ltb (p - 1) n then o * nth (p - 1) x 0 else 0)
       else 0).
Proof.
  intros E. unfold tri.
  rewrite (dot_add_map
             (fun q => (if Nat.eqb q p then dg else 0)
                       + (if Nat.eqb q (S p) then o else 0))
             (fun q => if Nat.eqb (S q) p then o else 0)).
  rewrite (dot_add_map (fun q => if Nat.eqb q p then dg else 0)
                       (fun q => if Nat.eqb q (S p) then o else 0)).
  pose proof (@dot_single dg n 0 p x E) as E1.
  pose proof (@dot_single o n 0 (S p) x E) as E2.
  cbn [Nat.add] in E1, E2. rewrite E1, E2. clear E1 E2.
  f_equal.
  destruct p as [|p].
  - cbn [Nat.ltb Nat.leb]. rewrite (map_ext _ (fun _ => 0)).
    + apply dot_zero_map.
    + intros q. reflexivity.
  - replace (S p - 1)%nat with p by lia.
    rewrite (map_ext _ (fun q => if Nat.eqb q (0 + p) then o else 0)).
    + rewrite (@dot_single o n 0 p x E). reflexivity.
    + intros q. reflexivity.
Qed.

Lemma max_abs_index (y : list R) :
  y <> [] ->
  exists p, (p < length y)%nat /\
            forall q, (q < length y)%nat -> Rabs (nth q y 0) <= Rabs (nth p y 0).
Proof.
  induction y as [|a y IH]; intros Hne; [contradiction|].
  destruct y as [|b y].
  - exists 0%nat. split; [cbn; lia|]. intros q Hq. cbn in Hq.
    replace q with 0%nat by lia. lra.
  - destruct IH as (p & Hp & Hmax); [discriminate|].
    destruct (Rle_dec (Rabs a) (Rabs (nth p (b :: y) 0))) as [Hle|Hgt].
    + exists (S p). split; [cbn in Hp |- *; lia|]. intros [|q] Hq.
      * exact Hle.
      * change (Rabs (nth q (b :: y) 0) <= Rabs (nth p (b :: y) 0)).
        apply Hmax. cbn in Hq |- *. lia.
    + exists 0%nat. split; [cbn; lia|]. intros [|q] Hq.
      * change (Rabs a <= Rabs a). lra.
      * change (Rabs (nth q (b :: y) 0) <= Rabs a).
        assert (Hq' : (q < length (b :: y))%nat) by (cbn in Hq |- *; lia).
        specialize (Hmax q Hq'). lra.
Qed.

Lemma tridiag_square (dg o : R) (n : nat) : square (tridiag dg o n) n = true.
Proof.
  apply square_spec. unfold tridiag. rewrite length_map, length_seq.
  split; [reflexivity|]. apply Forall_forall. intros r Hr.
  apply in_map_iff in Hr. destruct Hr as (p & <- & _).
  rewrite length_map, length_seq. reflexivity.
Qed.

Lemma tridiag_matvec_nth (dg o : R) (n p : nat) (x : list R) :
  (p < n)%nat ->
  nth p (matvec (tridiag dg o n) x) 0 = dot (map (tri dg o p) (seq 0 n)) x.
Proof.
  intros Hp. unfold matvec, tridiag. rewrite map_map.
  rewrite nth_indep with (d' := dot (map (tri dg o 0) (seq 0 n)) x)
    by (rewrite length_map, length_seq; lia).
  rewrite (map_nth (fun p0 => dot (map (tri dg o p0) (seq 0 n)) x)).
  rewrite seq_nth by lia. reflexivity.
Qed.

(** Strict diagonal dominance: the implicit time-stepping matrix has a
    trivial kernel. *)
Lemma tridiag_nonsingular (o : R) (n : nat) :
  0 <= o -> nonsingular (tridiag (- (1 + 2 * o)) o n).
Proof.
  intros Ho y Hlen Hy.
  pose proof (tridiag_square (- (1 + 2 * o)) o n) as Hs.
  apply square_spec in Hs. destruct Hs as [Ln _].
  rewrite Ln in *.
  destruct (Nat.eq_dec n 0) as [Hn0|Hn0].
  { subst n. destruct y; [reflexivity|discriminate]. }
  destruct (@max_abs_index y) as (p & Hp & Hmax).
  { intros ->. cbn in Hlen. lia. }
  rewrite Hlen in Hp.
  assert (Hrow : dot (map (tri (- (1 + 2 * o)) o p) (seq 0 n)) y = 0).
  { rewrite <- tridiag_matvec_nth by exact Hp. rewrite Hy.
    apply nth_repeat. }
  rewrite (@tridiag_row_dot _ _ n p y Hlen) in Hrow.
  destruct (Nat.ltb_spec p n) as [_|]; [|lia].
  set (yp := nth p y 0) in *.
  assert (Hu : exists u, (if Nat.ltb (S p) n then o * nth (S p) y 0 else 0) = u
                         /\ Rabs u <= o * Rabs yp).
  { eexists. split; [reflexivity|].
    destruct (Nat.ltb_spec (S p) n).
    - rewrite Rabs_mult, (Rabs_right o) by lra.
      apply Rmult_le_compat_l; [lra|]. apply Hmax. lia.
    - rewrite Rabs_R0. pose proof (Rabs_pos yp). nra. }
  assert (Hl : exists l, (if Nat.ltb 0 p
                          then (if Nat.ltb (p - 1) n
                                then o * nth (p - 1) y 0 else 0)
                          else 0) = l
                         /\ Rabs l <= o * Rabs yp).
  { eexists. split; [reflexivity|].
    destruct (Nat.ltb_spec 0 p); [destruct (Nat.ltb_spec (p - 1) n)|].
    - rewrite Rabs_mult, (Rabs_right o) by lra.
      apply Rmult_le_compat_l; [lra|]. apply Hmax. lia.
    - rewrite Rabs_R0. pose proof (Rabs_pos yp). nra.
    - rewrite Rabs_R0. pose proof (Rabs_pos yp). nra. }
  destruct Hu as (u & Eu & Hu). destruct Hl as (l & El & Hl).
  rewrite Eu, El in Hrow.
  assert (Hyp : Rabs yp <= 0).
  { assert (E : (1 + 2 * o) * yp = u + l) by lra.
    assert (E' : Rabs ((1 + 2 * o) * yp) = Rabs (u + l)) by (rewrite E; reflexivity).
    rewrite Rabs_mult, (Rabs_right (1 + 2 * o)) in E' by lra.
    pose proof (Rabs_triang u l). pose proof (Rabs_pos yp). nra. }
  apply nth_ext with (d := 0) (d' := 0).
  - rewrite repeat_length. exact Hlen.
  - intros q Hq. rewrite nth_repeat.
    specialize (Hmax q Hq). pose proof (Rabs_pos (nth q y 0)).
    assert (Hz : Rabs (nth q y 0) = 0) by lra.
    destruct (Req_dec (nth q y 0) 0) as [E0|E0]; [exact E0|].
    apply Rabs_no_R0 in E0. contradiction.
Qed.

End SolverFacts.

(** ** The relative-entropy evaluator, in exact arithmetic *)

Module EntropyExact.
Import Exact ExactSolver SolverFacts StructuredModel.
Local Open Scope R_scope.

Lemma set_nth_ok {A} (l : list A) (i : nat) (e : A) :
  (i < length l)%nat ->
  exists l', set_nth l i e = Some l' /\ length l' = length l.
Proof.
  revert i. induction l as [|p l IH]; intros i Hi; cbn in Hi; [lia|].
  destruct i as [|i]; cbn.
  - eexists. split; reflexivity.
  - destruct (IH i ltac:(lia)) as (l' & -> & Hl). cbn.
    eexists. split; [reflexivity|]. cbn. lia.
Qed.

Lemma set_nth_Forall {A} (P : A -> Prop) (l l' : list A) (i : nat) (e : A) :
  Forall P l -> P e -> set_nth l i e = Some l' -> Forall P l'.
Proof.
  revert i l'. induction l as [|p l IH]; intros i l' Hl He E; cbn in E;
    [discriminate|].
  inversion Hl; subst.
  destruct i as [|i].
  - inversion E; subst. constructor; assumption.
  - destruct (set_nth l i e) as [l0|] eqn:E0; cbn in E; [|discriminate].
    inversion E; subst. constructor; [assumption|]. eapply IH; eauto.
Qed.

Lemma set2_ok (Q : list (list R)) (n i j : nat) (e : R) :
  square Q n = true -> (i < n)%nat -> (j < n)%nat ->
  exists Q', set2 Q i j e = Ok Q' /\ square Q' n = true.
Proof.
  intros Hs Hi Hj. apply square_spec in Hs. destruct Hs as [Hl HF].
  unfold set2.
  destruct (nth_error Q i) as [r|] eqn:Er;
    [|apply nth_error_None in Er; lia].
  assert (Hr : length r = n).
  { rewrite Forall_forall in HF. apply HF. eapply nth_error_In; eauto. }
  destruct (@set_nth_ok _ r j e ltac:(lia)) as (r' & -> & Hr').
  destruct (@set_nth_ok _ Q i r' ltac:(lia)) as (Q' & EQ & HQ').
  rewrite EQ. exists Q'. split; [reflexivity|].
  apply square_spec. split; [lia|].
  eapply set_nth_Forall; [exact HF| |exact EQ]. cbn. lia.
Qed.

Lemma zeros2_square (n : nat) : square (zeros2 (T := R) n n) n = true.
Proof.
  apply square_spec. unfold zeros2, zeros. split.
  - apply repeat_length.
  - apply Forall_forall. intros r Hr. apply repeat_spec in Hr. subst.
    apply repeat_length.
Qed.

Ltac step_set2 :=
  match goal with
  | Hs : square ?Q _ = true |- context [set2 ?Q ?i ?j ?e] =>
      let Q' := fresh "Q" in
      let Hs' := fresh "Hs" in
      destruct (@set2_ok Q _ i j e Hs ltac:(lia) ltac:(lia))
        as (Q' & -> & Hs');
      cbn [bind result_monad]
  end.

(** The loop that fills [Q] succeeds on a grid of at least three points. *)
Lemma re_row_ok (m : self R) (u0 u1 grid : list R) (Q : list (list R))
      (j : nat) :
  (3 <= length grid)%nat ->
  length u0 = length grid -> length u1 = length grid ->
  square Q (length grid) = true -> (j < length grid)%nat ->
  exists Q', re_row m [u0; u1] grid (length grid) Q j = Ok Q'
             /\ square Q' (length grid) = true.
Proof.
  intros H3 H0 H1 Hs Hj. unfold re_row, get2.
  cbn [getitem nth_error bind result_monad].
  destruct (@getitem_ok _ u0 j ltac:(lia)) as (a0 & ->).
  destruct (@getitem_ok _ u1 j ltac:(lia)) as (a1 & ->).
  destruct (@getitem_ok _ grid j ltac:(lia)) as (zj & ->).
  cbn [bind result_monad].
  destruct (Nat.eqb_spec j 0) as [->|Hj0].
  - do 2 step_set2. apply set2_ok; [assumption|lia|lia].
  - destruct (Nat.eqb_spec j (length grid - 1)) as [Hjl|Hjl].
    + do 2 step_set2. apply set2_ok; [assumption|lia|lia].
    + do 2 step_set2. apply set2_ok; [assumption|lia|lia].
Qed.

Lemma re_rows_ok (m : self R) (u0 u1 grid : list R) (js : list nat) :
  (3 <= length grid)%nat ->
  length u0 = length grid -> length u1 = length grid ->
  Forall (fun j => (j < length grid)%nat) js ->
  forall Q, square Q (length grid) = true ->
  exists Q', re_rows m [u0; u1] grid (length grid) Q js = Ok Q'
             /\ square Q' (length grid) = true.
Proof.
  intros H3 H0 H1 Hjs. induction Hjs as [|j js Hj Hjs IH]; intros Q Hs.
  - exists Q. split; [reflexivity|assumption].
  - cbn [re_rows].
    destruct (@re_row_ok m u0 u1 grid Q j H3 H0 H1 Hs Hj) as (Q1 & -> & Hs1).
    cbn [bind result_monad]. apply IH. exact Hs1.
Qed.

Lemma entropy_Q_ok (m : self R) (u0 u1 grid : list R) :
  (3 <= length grid)%nat ->
  length u0 = length grid -> length u1 = length grid ->
  exists Q, entropy_Q m [u0; u1] grid = Ok Q
            /\ square Q (length grid) = true.
Proof.
  intros H3 H0 H1. unfold entropy_Q.
  apply re_rows_ok; auto.
  - apply Forall_forall. intros j Hj. apply in_seq in Hj. lia.
  - apply zeros2_square.
Qed.







End EntropyExact.

(** ** [FeynmanKac] with zero drift, in exact arithmetic *)

Module FeynmanKacExact.
Import Exact ExactSolver SolverFacts.
Local Open Scope R_scope.

Lemma mapM_map {A B} (f : A -> result B) (g : A -> B) (l : list A) :
  (forall e, In e l -> f e = Ok (g e)) -> mapM f l = Ok (map g l).
Proof.
  induction l as [|e l IH]; intros E; [reflexivity|].
  cbn [mapM map]. rewrite E by (left; reflexivity).
  cbn [bind result_monad]. rewrite IH by (intros; apply E; right; assumption).
  reflexivity.
Qed.

Lemma getitem_repeat {A} (e : A) (n j : nat) :
  (j < n)%nat -> getitem (repeat e n) j = Ok e.
Proof.
  intros Hj. unfold getitem.
  destruct (nth_error (repeat e n) j) as [e'|] eqn:E.
  - apply nth_error_In, repeat_spec in E. subst. reflexivity.
  - apply nth_error_None in E. rewrite repeat_length in E. lia.
Qed.

(** The triples of the loop, for zero drift. *)
Lemma fk_rows_zero_drift (n2 Dz Dt : R) (Nz : nat) :
  mapM (fk_row (repeat 0 Nz) n2 Dz Dt Nz) (seq 0 Nz)
  = Ok (map (fk_triples n2 Dz Dt Nz) (seq 0 Nz)).
Proof.
  apply mapM_map. intros j Hj. apply in_seq in Hj.
  unfold fk_row, fk_triples.
  destruct (Nat.eqb j 0); [reflexivity|].
  destruct (Nat.eqb j (Nz - 1)); [reflexivity|].
  rewrite getitem_repeat by lia. reflexivity.
Qed.

Lemma fk_triples_row (n2 Dz Dt : R) (Nz j : nat) (e : R) (r c : nat) :
  In (e, r, c) (fk_triples n2 Dz Dt Nz j) -> r = j.
Proof.
  unfold fk_triples.
  destruct (Nat.eqb j 0); [|destruct (Nat.eqb j (Nz - 1))]; cbn;
    intros Hin; repeat (destruct Hin as [Hin|Hin]; [inversion Hin; reflexivity|]);
    contradiction.
Qed.

Lemma fk_triples_col (n2 Dz Dt : R) (Nz j : nat) (e : R) (r c : nat) :
  (j < Nz)%nat ->
  In (e, r, c) (fk_triples n2 Dz Dt Nz j) -> (c < Nz)%nat.
Proof.
  intros Hj. unfold fk_triples.
  destruct (Nat.eqb_spec j 0); [|destruct (Nat.eqb_spec j (Nz - 1))]; cbn;
    intros Hin;
    repeat (destruct Hin as [Hin|Hin]; [inversion Hin; subst; lia|]);
    contradiction.
Qed.

(** Looking an entry up in a list of triples. *)
Lemma lookup_app (n m n' m' n'' m'' : nat) (l k : list (R * nat * nat))
      (i q : nat) :
  csr_lookup {| nrows := n; ncols := m; entries := l ++ k |} i q
  = csr_lookup {| nrows := n'; ncols := m'; entries := l |} i q
    + csr_lookup {| nrows := n''; ncols := m''; entries := k |} i q.
Proof.
  unfold csr_lookup. cbn [entries s_add ofZ scalar].
  induction l as [|[[e r] c] l IH]; cbn [app fold_right].
  - ring.
  - rewrite IH. destruct (Nat.eqb r i && Nat.eqb c q)%bool; ring.
Qed.

Lemma lookup_other_row (n m : nat) (l : list (R * nat * nat)) (i q : nat) :
  (forall e r c, In (e, r, c) l -> r <> i) ->
  csr_lookup {| nrows := n; ncols := m; entries := l |} i q = 0.
Proof.
  unfold csr_lookup. cbn [entries s_add ofZ scalar].
  induction l as [|[[e r] c] l IH]; intros Hr; cbn [fold_right];
    [reflexivity|].
  rewrite IH by (intros; eapply Hr; right; eassumption).
  destruct (Nat.eqb_spec r i) as [E|E]; [|reflexivity].
  exfalso. eapply Hr; [left; reflexivity|exact E].
Qed.

Lemma lookup_concat (g : nat -> list (R * nat * nat)) (n m : nat)
      (js : list nat) (i q : nat) :
  (forall j e r c, In (e, r, c) (g j) -> r = j) ->
  NoDup js -> In i js ->
  csr_lookup {| nrows := n; ncols := m; entries := concat (map g js) |} i q
  = csr_lookup {| nrows := n; ncols := m; entries := g i |} i q.
Proof.
  intros Hg. induction js as [|j js IH]; intros Hd Hin; [contradiction|].
  inversion Hd; subst. cbn [map concat].
  rewrite (lookup_app n m n m n m).
  destruct (Nat.eq_dec j i) as [->|Hne].
  - rewrite (lookup_other_row n m (concat (map g js))); [ring|].
    intros e r c Hc. apply in_concat in Hc. destruct Hc as (l & Hl & Hc).
    apply in_map_iff in Hl. destruct Hl as (j' & <- & Hj').
    apply Hg in Hc. subst r. intros ->. contradiction.
  - rewrite (lookup_other_row n m (g j)).
    + rewrite IH; [ring|assumption|]. destruct Hin; [contradiction|assumption].
    + intros e r c Hc. apply Hg in Hc. lia.
Qed.

Lemma fold_max_bound {A} (g : A -> nat -> nat) (f : A -> nat)
      (l : list A) (k : nat) :
  (forall e acc, g e acc = Nat.max (f e) acc) ->
  (forall e, In e l -> (f e <= k)%nat) ->
  (exists e, In e l /\ f e = k) ->
  fold_right g 0%nat l = k.
Proof.
  intros Hg Hb (e0 & Hin & Hf).
  assert (Hle : (fold_right g 0%nat l <= k)%nat).
  { clear e0 Hin Hf. induction l as [|e l IH]; cbn; [lia|].
    rewrite Hg.
    specialize (Hb e (or_introl eq_refl)) as Hb0.
    specialize (IH (fun e' H' => Hb e' (or_intror H'))). lia. }
  assert (Hge : (k <= fold_right g 0%nat l)%nat).
  { clear Hb Hle. induction l as [|e l IH]; [contradiction|].
    cbn. rewrite Hg. destruct Hin as [->|Hin]; [lia|].
    specialize (IH Hin). lia. }
  lia.
Qed.

Lemma fk_shape (n2 Dz Dt : R) (Nz : nat) :
  (2 <= Nz)%nat ->
  let A := csr_of_triples (concat (map (fk_triples n2 Dz Dt Nz) (seq 0 Nz))) in
  nrows A = Nz /\ ncols A = Nz.
Proof.
  intros HN A. unfold A, csr_of_triples. cbn [nrows ncols].
  assert (Hlast : In (IZR (-1), (Nz - 1)%nat, (Nz - 1)%nat)
                     (concat (map (fk_triples n2 Dz Dt Nz) (seq 0 Nz)))).
  { apply in_concat. exists (fk_triples n2 Dz Dt Nz (Nz - 1)). split.
    - apply in_map. apply in_seq. lia.
    - unfold fk_triples. destruct (Nat.eqb_spec (Nz - 1) 0); [lia|].
      rewrite Nat.eqb_refl. left. reflexivity. }
  split.
  - rewrite (@fold_max_bound _ _ (fun e => snd (fst e)) _ (Nz - 1)); [lia| | |].
    + intros [[e r] c] acc. reflexivity.
    + intros [[e r] c] Hin. cbn. apply in_concat in Hin.
      destruct Hin as (l & Hl & Hin). apply in_map_iff in Hl.
      destruct Hl as (j & <- & Hj). apply in_seq in Hj.
      apply fk_triples_row in Hin. lia.
    + eexists. split; [exact Hlast|reflexivity].
  - rewrite (@fold_max_bound _ _ (fun e => snd e) _ (Nz - 1)); [lia| | |].
    + intros [[e r] c] acc. reflexivity.
    + intros [[e r] c] Hin. cbn. apply in_concat in Hin.
      destruct Hin as (l & Hl & Hin). apply in_map_iff in Hl.
      destruct Hl as (j & <- & Hj). apply in_seq in Hj.
      apply fk_triples_col in Hin; lia.
    + eexists. split; [exact Hlast|reflexivity].
Qed.

(** The entries of an interior row. *)
Lemma fk_lookup_interior (n2 Dz Dt : R) (Nz i q : nat) :
  Dz <> 0 -> (1 <= i)%nat -> (i < Nz - 1)%nat ->
  csr_lookup (csr_of_triples
                (concat (map (fk_triples n2 Dz Dt Nz) (seq 0 Nz)))) i q
  = tri (- (1 + 2 * fk_off n2 Dz Dt)) (fk_off n2 Dz Dt) i q.
Proof.
  intros HDz Hi1 Hi2. unfold csr_of_triples.
  rewrite lookup_concat.
  - unfold fk_triples.
    destruct (Nat.eqb_spec i 0); [lia|].
    destruct (Nat.eqb_spec i (Nz - 1)); [lia|].
    unfold csr_lookup, tri, fk_off. cbn [entries fold_right s_add ofZ scalar].
    repeat match goal with
           | |- context [Nat.eqb ?p ?r] => destruct (Nat.eqb_spec p r)
           end; cbn [andb]; try lia; field; assumption.
  - intros j e r c. apply fk_triples_row.
  - apply seq_NoDup.
  - apply in_seq. lia.
Qed.

Lemma tri_shift (dg o : R) (p q : nat) : tri dg o (S p) (S q) = tri dg o p q.
Proof. reflexivity. Qed.

(** The matrix handed to the solver is tridiagonal and diagonally
    dominant. *)
Lemma fk_interior (n2 Dz Dt : R) (Nz : nat) :
  Dz <> 0 -> (2 <= Nz)%nat ->
  csr_interior (csr_of_triples
                  (concat (map (fk_triples n2 Dz Dt Nz) (seq 0 Nz))))
  = tridiag (- (1 + 2 * fk_off n2 Dz Dt)) (fk_off n2 Dz Dt) (Nz - 2).
Proof.
  intros HDz HN. unfold csr_interior.
  destruct (fk_shape n2 Dz Dt HN) as [-> ->].
  unfold tridiag. apply map_seq_shift. intros p Hp.
  apply map_seq_shift. intros q Hq.
  rewrite fk_lookup_interior by (try assumption; lia).
  cbn [Nat.add]. apply tri_shift.
Qed.

Lemma set_nth_spec {A} (l l' : list A) (i : nat) (e d : A) :
  set_nth l i e = Some l' ->
  length l' = length l /\
  forall k, nth k l' d = if Nat.eqb k i then e else nth k l d.
Proof.
  revert i l'. induction l as [|p l IH]; intros i l' E; cbn in E;
    [discriminate|].
  destruct i as [|i].
  - inversion E; subst. split; [reflexivity|]. intros [|k]; reflexivity.
  - destruct (set_nth l i e) as [l0|] eqn:E0; cbn in E; [|discriminate].
    inversion E; subst. destruct (IH _ _ E0) as [Hl Hn].
    split; [cbn; lia|]. intros [|k]; [reflexivity|]. cbn. apply Hn.
Qed.

Lemma getitem_nth {A} (l : list A) (j : nat) (d : A) :
  (j < length l)%nat -> getitem l j = Ok (nth j l d).
Proof.
  intros Hj. unfold getitem.
  destruct (nth_error l j) as [e|] eqn:E.
  - f_equal. symmetry. apply nth_error_nth. exact E.
  - apply nth_error_None in E. lia.
Qed.

Lemma getitem_neg_nth {A} (l : list A) (k : nat) (d : A) :
  (0 < k <= length l)%nat ->
  getitem_neg l k = Ok (nth (length l - k) l d).
Proof.
  intros Hk. unfold getitem_neg.
  destruct (Nat.leb_spec k (length l)); [|lia].
  destruct (Nat.ltb_spec 0 k); [|lia].
  cbn [andb]. apply getitem_nth. lia.
Qed.

Lemma removelast_repeat {A} (e : A) (n : nat) :
  removelast (repeat e (S n)) = repeat e n.
Proof.
  induction n as [|n IH]; [reflexivity|].
  change (repeat e (S (S n))) with (e :: repeat e (S n)).
  cbn [removelast]. change (repeat e (S n)) with (e :: repeat e n) at 1.
  cbn iota. rewrite IH. reflexivity.
Qed.

Lemma slice_inner_repeat {A} (e : A) (n : nat) :
  slice_inner (repeat e (n + 2)) = repeat e n.
Proof.
  unfold slice_inner. replace (n + 2)%nat with (S (S n)) by lia.
  cbn [repeat tl]. apply (removelast_repeat e n).
Qed.

Lemma nth_repeat_lt {A} (e d : A) (n k : nat) :
  (k < n)%nat -> nth k (repeat e n) d = e.
Proof.
  intros Hk. rewrite nth_indep with (d' := e) by (rewrite repeat_length; lia).
  apply nth_repeat.
Qed.

(** One implicit step maps a constant to itself. *)
Lemma fk_step_constant (base : Libs R) (o c : R) (n : nat) :
  0 <= o -> (2 <= n)%nat ->
  @fk_step R scalar (exact_libs base)
           (tridiag (- (1 + 2 * o)) o n) o o (repeat c (n + 2))
  = Ok (repeat c (n + 2)).
Proof.
  intros Ho Hn. unfold fk_step.
  rewrite slice_inner_repeat, map_repeat.
  cbn [s_opp s_sub s_mul ofZ scalar spsolve exact_libs].
  rewrite getitem_repeat by lia. cbn [bind result_monad].
  rewrite getitem_repeat by lia. cbn [bind result_monad].
  destruct (@EntropyExact.set_nth_ok _ (repeat (- c) n) 0 (- c - o * c))
    as (b1 & Eb1 & _); [rewrite repeat_length; lia|].
  rewrite Eb1. cbn [bind result_monad].
  destruct (set_nth_spec _ _ _ 0 Eb1) as [Lb1 Nb1].
  rewrite repeat_length in Lb1.
  rewrite (getitem_neg_nth b1 0) by lia. cbn [bind result_monad].
  rewrite (getitem_neg_nth (repeat c (n + 2)) 0)
    by (rewrite repeat_length; lia).
  cbn [bind result_monad].
  rewrite repeat_length, Lb1.
  rewrite Nb1. destruct (Nat.eqb_spec (n - 1) 0); [lia|].
  rewrite !nth_repeat_lt by lia.
  destruct (@EntropyExact.set_nth_ok _ b1 (n - 1) (- c - o * c))
    as (b2 & Eb2 & _); [lia|].
  rewrite Eb2. cbn [bind result_monad].
  destruct (set_nth_spec _ _ _ 0 Eb2) as [Lb2 Nb2].
  rewrite Lb1 in Lb2.
  rewrite (@exact_solve_nonsingular _ b2 (repeat c n)).
  - cbn [bind ret result_monad].
    rewrite !getitem_repeat by lia. cbn [bind ret result_monad].
    rewrite !(getitem_neg_nth (repeat c n) 0) by (rewrite repeat_length; lia).
    cbn [bind ret result_monad].
    rewrite !nth_repeat_lt by (rewrite repeat_length; lia).
    f_equal. replace (2 * c - c) with c by ring.
    replace (n + 2)%nat with (S (S n)) by lia.
    cbn [app repeat]. f_equal. rewrite <- repeat_cons. reflexivity.
  - rewrite Lb2. apply tridiag_square.
  - apply tridiag_nonsingular. exact Ho.
  - split; [rewrite repeat_length; lia|].
    apply nth_ext with (d := 0) (d' := 0).
    + unfold matvec, tridiag. rewrite !length_map, length_seq. lia.
    + intros k Hk. unfold matvec in Hk. rewrite length_map in Hk.
      pose proof (tridiag_square (- (1 + 2 * o)) o n) as Hs.
      apply square_spec in Hs. destruct Hs as [Ln _]. rewrite Ln in Hk.
      rewrite tridiag_matvec_nth by exact Hk.
      rewrite (@tridiag_row_dot _ _ n k) by apply repeat_length.
      rewrite Nb2, Nb1.
      destruct (Nat.ltb_spec k n); [|lia].
      rewrite !(nth_repeat_lt (- c)) by lia.
      rewrite (nth_repeat_lt c 0) by lia.
      destruct (Nat.eqb_spec k (n - 1)); destruct (Nat.eqb_spec k 0);
        destruct (Nat.ltb_spec (S k) n); destruct (Nat.ltb_spec 0 k);
        try destruct (Nat.ltb_spec (k - 1) n); try lia;
        rewrite ?nth_repeat_lt by lia; ring.
Qed.

Lemma fk_march_constant (base : Libs R) (o c : R) (n steps : nat) :
  0 <= o -> (2 <= n)%nat ->
  @fk_march R scalar (exact_libs base)
            (tridiag (- (1 + 2 * o)) o n) o o (n + 2) (repeat c (n + 2)) steps
  = Ok (repeat (repeat c (n + 2)) steps).
Proof.
  intros Ho Hn. induction steps as [|k IH]; [reflexivity|].
  cbn [fk_march]. rewrite fk_step_constant by assumption.
  cbn [bind ret result_monad]. rewrite repeat_length, Nat.eqb_refl.
  rewrite IH. reflexivity.
Qed.

Lemma fk_march_constant_grid (base : Libs R) (o c : R) (N steps : nat) :
  0 <= o -> (4 <= N)%nat ->
  @fk_march R scalar (exact_libs base)
            (tridiag (- (1 + 2 * o)) o (N - 2)) o o N (repeat c N) steps
  = Ok (repeat (repeat c N) steps).
Proof.
  intros Ho HN. remember (N - 2)%nat as n eqn:En.
  assert (EN : N = (n + 2)%nat) by lia.
  assert (Hn : (2 <= n)%nat) by lia.
  clear En HN. subst N. apply fk_march_constant; assumption.
Qed.

(** [int(e)] of a non-negative number. *)
Lemma py_int_nonneg (e : R) : 0 <= e -> (0 <= py_int e)%Z.
Proof.
  intros He. unfold py_int. cbn [s_ltb s_ceil s_opp ofZ scalar].
  unfold ltb, ceil. destruct (Rlt_dec e 0); [lra|].
  rewrite Ropp_involutive. destruct (archimed e) as [Hu _].
  assert (0 < up e)%Z by (apply lt_IZR; lra). lia.
Qed.


Lemma py_int_IZR (n : Z) : py_int (IZR n) = n.
Proof.
  unfold py_int. cbn [s_ltb s_ceil s_opp ofZ scalar]. unfold ltb, ceil.
  destruct (Rlt_dec (IZR n) 0).
  - assert (E : (- n + 1)%Z = up (- IZR n)).
    { apply tech_up; rewrite plus_IZR, opp_IZR; lra. }
    lia.
  - rewrite Ropp_involutive.
    assert (E : (n + 1)%Z = up (IZR n)).
    { apply tech_up; rewrite plus_IZR; lra. }
    lia.
Qed.

Lemma fk_off_nonneg (σz : R * R) (Dz Dt : R) :
  Dz <> 0 -> 0 < Dt -> 0 <= fk_off (sqr (norm σz)) Dz Dt.
Proof.
  intros HDz HDt. unfold fk_off, sqr. cbn [s_mul scalar].
  assert (0 <= norm σz * norm σz) by nra.
  assert (0 < Dz * Dz) by nra.
  apply Rmult_le_pos; [lra|].
  unfold Rdiv. apply Rmult_le_pos; [nra|].
  apply Rlt_le, Rinv_0_lt_compat. assumption.
Qed.

(** With zero drift the set-up of [FeynmanKac] builds a tridiagonal
    system; what follows depends on the number of time steps. *)
Lemma FeynmanKac_setup (base : Libs R) (σz : R * R)
      (zgrid fintl : list R) (T Dt : R) :
  (3 <= length zgrid)%nat -> nth 1 zgrid 0 <> nth 0 zgrid 0 ->
  length fintl = length zgrid ->
  let o := fk_off (sqr (norm σz)) (nth 1 zgrid 0 - nth 0 zgrid 0) Dt in
  @FeynmanKac R scalar (exact_libs base) (repeat 0 (length zgrid)) σz zgrid
              fintl T Dt
  = if eqb Dt 0 then Raise ZeroDivisionError
    else if (py_int (T / Dt)%R + 1 <? 0)%Z then Raise ValueError
    else if (py_int (T / Dt)%R + 1 =? 0)%Z then Raise IndexError
    else (cols <- @fk_march R scalar (exact_libs base)
                    (tridiag (- (1 + 2 * o)) o (length zgrid - 2)) o o
                    (length zgrid) fintl (Z.to_nat (py_int (T / Dt))) ;;
          ret (fintl :: cols))%monad.
Proof.
  intros HN HDz Hlen o. unfold FeynmanKac.
  rewrite (getitem_nth zgrid 0) by lia. cbn [bind result_monad].
  rewrite (getitem_nth zgrid 0) by lia. cbn [bind result_monad].
  cbn [s_sub scalar].
  assert (HDz' : nth 1 zgrid 0 - nth 0 zgrid 0 <> 0) by lra.
  change (ofZ 0) with 0.
  rewrite fk_rows_zero_drift. cbn [bind result_monad].
  fold o.
  set (A := csr_of_triples _).
  assert (HA : nrows A = length zgrid /\ ncols A = length zgrid)
    by (apply fk_shape; lia).
  destruct HA as [Hr Hc].
  unfold csr_get, csr_get_neg. rewrite Hr, Hc.
  destruct (Nat.ltb_spec 1 (length zgrid)); [|lia].
  destruct (Nat.ltb_spec 0 (length zgrid)); [|lia].
  destruct (Nat.leb_spec 2 (length zgrid)); [|lia].
  destruct (Nat.leb_spec 1 (length zgrid)); [|lia].
  cbn [andb Nat.ltb Nat.leb bind result_monad].
  unfold A. rewrite !fk_lookup_interior by (try assumption; lia).
  rewrite fk_interior by (try assumption; lia).
  fold o.
  assert (E1 : tri (- (1 + 2 * o)) o 1 0 = o) by (unfold tri; cbn; ring).
  assert (E2 : tri (- (1 + 2 * o)) o (length zgrid - 2) (length zgrid - 1) = o).
  { unfold tri.
    destruct (Nat.eqb_spec (length zgrid - 1) (length zgrid - 2)); [lia|].
    destruct (Nat.eqb_spec (length zgrid - 1) (S (length zgrid - 2))); [|lia].
    destruct (Nat.eqb_spec (S (length zgrid - 1)) (length zgrid - 2)); [lia|].
    ring. }
  rewrite E1, E2.
  cbn [s_eqb s_div scalar].
  destruct (eqb Dt 0); [reflexivity|].
  destruct (py_int (T / Dt)%R + 1 <? 0)%Z; [reflexivity|].
  destruct (py_int (T / Dt)%R + 1 =? 0)%Z; [reflexivity|].
  rewrite Hlen, Nat.eqb_refl. cbn [bind result_monad]. reflexivity.
Qed.

(** With a positive time step and a horizon [T >= 0] the time loop runs
    [int(T/Dt)] times. *)
Lemma FeynmanKac_zero_drift (base : Libs R) (σz : R * R)
      (zgrid fintl : list R) (T Dt : R) :
  (3 <= length zgrid)%nat -> nth 1 zgrid 0 <> nth 0 zgrid 0 ->
  0 < Dt -> 0 <= T -> length fintl = length zgrid ->
  let o := fk_off (sqr (norm σz)) (nth 1 zgrid 0 - nth 0 zgrid 0) Dt in
  @FeynmanKac R scalar (exact_libs base) (repeat 0 (length zgrid)) σz zgrid
              fintl T Dt
  = (cols <- @fk_march R scalar (exact_libs base)
                       (tridiag (- (1 + 2 * o)) o (length zgrid - 2)) o o
                       (length zgrid) fintl (Z.to_nat (py_int (T / Dt))) ;;
     ret (fintl :: cols))%monad.
Proof.
  intros HN HDz HDt HT Hlen o.
  rewrite FeynmanKac_setup by assumption. fold o.
  unfold eqb. destruct (Req_dec_T Dt 0); [lra|].
  assert (Hn : (0 <= py_int (T / Dt)%R)%Z).
  { apply py_int_nonneg. unfold Rdiv. apply Rmult_le_pos; [lra|].
    apply Rlt_le, Rinv_0_lt_compat. assumption. }
  destruct (Z.ltb_spec (py_int (T / Dt)%R + 1) 0); [lia|].
  destruct (Z.eqb_spec (py_int (T / Dt)%R + 1) 0); [lia|].
  reflexivity.
Qed.




End FeynmanKacExact.

(** ** The statements above on concrete inputs *)

Module Witnesses.
Import F64 StructuredModel Examples ExamplesDrift.
#[local] Set Warnings "-inexact-float".

(** C2 on the default model with target infinity. *)
Lemma solvetheta_infinite_target_witness :
  let L := stub_libs 0%float 0%float in
  let m := default_model infinity in
  (qᵤₛ m =? inf)%num = true /\
  solvetheta (m, []) = Ok (tt, (with_status (with_θ m (Some infinity)) 1%Z, [])).
Proof.
  intros L m. split; [reflexivity|].
  exact (proj1 (@solvetheta_infinite_target float _ _ L m [] eq_refl)).
Defined.

(** C1 on the default model with target 0.1: once with libraries that make
    both residuals vanish ([status] becomes 1), once with a kink residual of
    2.5 ([status] stays 0 although θ is stored). *)
Lemma solvetheta_status_iff_witness :
  (exists m' tr',
      @solvetheta float _ _ (stub_libs 0%float 0.005%float) (bounded_model, [])
      = Ok (tt, (m', tr')) /\
      status m' = 1%Z /\
      exists root dv q,
        θ m' = Some root /\ dvErr m' = Some dv /\ qErr m' = Some (Arr [q]) /\
        (status m' = 1%Z <->
         (q <? dec 1 100)%num = true /\ (dv <? dec 1 10000)%num = true) /\
        (status m' = 1%Z \/ status m' = 0%Z))
  /\
  (exists m' tr',
      @solvetheta float _ _ (stub_libs 1%float 0.005%float) (bounded_model, [])
      = Ok (tt, (m', tr')) /\
      status m' = 0%Z /\
      exists root dv q,
        θ m' = Some root /\ dvErr m' = Some dv /\ qErr m' = Some (Arr [q]) /\
        (status m' = 1%Z <->
         (q <? dec 1 100)%num = true /\ (dv <? dec 1 10000)%num = true) /\
        (status m' = 1%Z \/ status m' = 0%Z)).
Proof.
  split.
  - assert (E : exists m' tr',
               @solvetheta float _ _ (stub_libs 0%float 0.005%float)
                           (bounded_model, []) = Ok (tt, (m', tr'))
               /\ status m' = 1%Z)
      by (vm_compute; do 2 eexists; split; reflexivity).
    destruct E as (m' & tr' & E & Es). exists m', tr'.
    split; [exact E|]. split; [exact Es|].
    exact (@solvetheta_status_iff float _ _ (stub_libs 0%float 0.005%float)
             bounded_model [] m' tr' eq_refl eq_refl E).
  - assert (E : exists m' tr',
               @solvetheta float _ _ (stub_libs 1%float 0.005%float)
                           (bounded_model, []) = Ok (tt, (m', tr'))
               /\ status m' = 0%Z)
      by (vm_compute; do 2 eexists; split; reflexivity).
    destruct E as (m' & tr' & E & Es). exists m', tr'.
    split; [exact E|]. split; [exact Es|].
    exact (@solvetheta_status_iff float _ _ (stub_libs 1%float 0.005%float)
             bounded_model [] m' tr' eq_refl eq_refl E).
Defined.

(** C8 on the default model, θ = 0.5, with libraries that leave a kink
    residual of 2.5: grid-search mode rejects, refinement mode computes and
    records. *)
Lemma CalibratingTheta_threshold_witness :
  let L := stub_libs 1%float 0.005%float in
  exists res rh s1' s2' q,
    __MatchODE bounded_model 0.5%float None = Ok res /\
    res_diff res = 2.5%float /\
    __Distortion bounded_model res 0.5%float = Ok (rh, s1', s2') /\
    __RelativeEntropyUS bounded_model (skipn 2 rh) (firstn 2 rh) (res_x res)
    = Ok q /\
    __CalibratingTheta 0.5%float true (bounded_model, [])
    = Ok (Sc infinity,
          (bounded_model,
           [CallCalibratingTheta 0.5%float true; CallMatchODE 0.5%float])) /\
    __CalibratingTheta 0.5%float false (bounded_model, [])
    = Ok ((Arr q - Sc 0.1%float)%nd,
          (with_qErr (with_dvErr bounded_model (Some 2.5%float))
                     (Some (Arr q - Sc 0.1%float)%nd),
           [CallCalibratingTheta 0.5%float false; CallMatchODE 0.5%float;
            CallDistortion 0.5%float; CallRelativeEntropyUS])).
Proof.
  intros L.
  assert (E : exists res rh s1' s2' q,
             __MatchODE bounded_model 0.5%float None = Ok res /\
             res_diff res = 2.5%float /\
             (ofZ 1 <? res_diff res)%num = true /\
             __Distortion bounded_model res 0.5%float = Ok (rh, s1', s2') /\
             __RelativeEntropyUS bounded_model (skipn 2 rh) (firstn 2 rh)
                                 (res_x res) = Ok q).
  { do 5 eexists.
    split; [vm_compute; reflexivity|].
    split; [vm_compute; reflexivity|].
    split; [vm_compute; reflexivity|].
    split; [vm_compute; reflexivity|].
    vm_compute; reflexivity. }
  destruct E as (res & rh & s1' & s2' & q & EM & Ed & Egt & ED & ER).
  exists res, rh, s1', s2', q.
  split; [exact EM|]. split; [exact Ed|]. split; [exact ED|].
  split; [exact ER|].
  pose proof (@CalibratingTheta_threshold float _ _ L bounded_model []
                0.5%float res EM) as [Hg Hr].
  split.
  - exact (Hg Egt).
  - rewrite <- Ed. exact (Hr rh s1' s2' q ED ER).
Defined.

(** C10 on three grid points of the default model. *)
Lemma UpdatingDrift_frame_witness :
  exists res m' tr',
    v stored_f64 = Some res /\
    length (res_y res) = 2%nat /\
    UpdatingDrift (stored_f64, []) = Ok (tt, (m', tr')) /\
    exists res' d2v,
      v m' = Some res' /\
      res_x res' = res_x res /\
      nth_error (res_y res') 0 = nth_error (res_y res) 0 /\
      nth_error (res_y res') 1 = nth_error (res_y res) 1 /\
      res_y res' = res_y res ++ [d2v] /\
      mapM (d2v_at stored_f64 res) (seq 0 (length (res_x res))) = Ok d2v /\
      res_possol res' = res_possol res /\
      res_negsol res' = res_negsol res /\
      res_diff res' = res_diff res /\
      res_dv0 res' = res_dv0 res.
Proof.
  assert (E : exists m' tr',
             UpdatingDrift (stored_f64, []) = Ok (tt, (m', tr')))
    by (vm_compute; do 2 eexists; reflexivity).
  destruct E as (m' & tr' & E).
  eexists. exists m', tr'.
  split; [reflexivity|]. split; [reflexivity|]. split; [exact E|].
  exact (@UpdatingDrift_frame float _ stored_f64 [] m' tr' _ eq_refl eq_refl E).
Defined.

End Witnesses.

Module WitnessesExact.
Import Exact StructuredModel ExamplesDrift.
Local Open Scope R_scope.





End WitnessesExact.

(** * Further properties of the code *)

(** ** [FeynmanKac]: shape of the result, the time loop, errors *)

Section FeynmanKacShape.
Context {K : Type} `{Scalar K} `{Libs K}.

Lemma fk_march_columns (A : list (list K)) (a1 a2 : K) (Nz : nat)
      (ϕ : list K) (n : nat) (cols : list (list K)) :
  fk_march A a1 a2 Nz ϕ n = Ok cols ->
  length cols = n /\ Forall (fun c => length c = Nz) cols.
Proof.
  revert ϕ cols. induction n as [|n IH]; intros ϕ cols E; cbn [fk_march] in E.
  - inversion E. split; constructor.
  - apply result_bind_ok in E. destruct E as (ϕnew & _ & E).
    destruct (Nat.eqb_spec (length ϕnew) Nz) as [L|L]; [|discriminate].
    apply result_bind_ok in E. destruct E as (rest & Em & E).
    inversion E; subst cols. destruct (IH _ _ Em) as [Hl Hf].
    split; [cbn [length]; lia | constructor; assumption].
Qed.

Lemma FeynmanKac_columns (μz : list K) (σz : K * K) (zgrid fintl : list K)
      (T Dt : K) (cols : list (list K)) :
  FeynmanKac μz σz zgrid fintl T Dt = Ok cols ->
  length cols = S (Z.to_nat (py_int (T / Dt)%num))
  /\ Forall (fun c => length c = length zgrid) cols
  /\ (2 <= length zgrid)%nat
  /\ exists col0 rest,
       cols = col0 :: rest
       /\ (length fintl = length zgrid -> col0 = fintl)
       /\ (length fintl <> length zgrid ->
           exists e, fintl = [e] /\ col0 = repeat e (length zgrid)).
Proof.
  intros E. unfold FeynmanKac in E.
  apply result_bind_ok in E. destruct E as (z1 & Ez1 & E).
  assert (HN : (2 <= length zgrid)%nat).
  { unfold getitem in Ez1.
    destruct (nth_error zgrid 1) eqn:E1; [|discriminate].
    assert (nth_error zgrid 1 <> None) as Hn by congruence.
    apply nth_error_Some in Hn. lia. }
  apply result_bind_ok in E. destruct E as (z0 & _ & E).
  apply result_bind_ok in E. destruct E as (rows & _ & E).
  apply result_bind_ok in E. destruct E as (a1 & _ & E).
  apply result_bind_ok in E. destruct E as (a2 & _ & E).
  destruct (Dt =? ofZ 0)%num; [discriminate|].
  destruct (py_int (T / Dt)%num + 1 <? 0)%Z; [discriminate|].
  destruct (py_int (T / Dt)%num + 1 =? 0)%Z; [discriminate|].
  apply result_bind_ok in E. destruct E as (col0 & E0 & E).
  apply result_bind_ok in E. destruct E as (rest & Em & E).
  inversion E; subst cols. clear E.
  apply fk_march_columns in Em. destruct Em as [Hl Hf].
  assert (H0' : length col0 = length zgrid).
  { destruct (Nat.eqb_spec (length fintl) (length zgrid)) as [L|L].
    - inversion E0; subst. exact L.
    - destruct fintl as [|e [|? ?]]; try discriminate.
      inversion E0. apply repeat_length. }
  split; [cbn [length]; lia|].
  split; [constructor; assumption|].
  split; [exact HN|].
  exists col0, rest. split; [reflexivity|]. split.
  - intros L. rewrite L, Nat.eqb_refl in E0. inversion E0. reflexivity.
  - intros L. destruct (Nat.eqb_spec (length fintl) (length zgrid)) as [L'|_];
      [contradiction|].
    destruct fintl as [|e [|? ?]]; try discriminate.
    inversion E0. exists e. split; reflexivity.
Qed.

(** The array [sol] that [FeynmanKac] returns has [int(T/Dt) + 1] columns
    of [len(zgrid)] entries each, and its column 0 is the initial function
    (a one-entry [fintl] is broadcast). *)
Theorem FeynmanKac_shape (μz : list K) (σz : K * K) (zgrid fintl : list K)
        (T Dt : K) (cols : list (list K)) :
  FeynmanKac μz σz zgrid fintl T Dt = Ok cols ->
  length cols = S (Z.to_nat (py_int (T / Dt)%num))
  /\ Forall (fun c => length c = length zgrid) cols
  /\ (2 <= length zgrid)%nat
  /\ exists col0 rest,
       cols = col0 :: rest
       /\ (length fintl = length zgrid -> col0 = fintl)
       /\ (length fintl <> length zgrid ->
           exists e, fintl = [e] /\ col0 = repeat e (length zgrid)).
Proof. apply FeynmanKac_columns. Qed.



(** [FeynmanKac] on a grid of fewer than two points raises [IndexError]
    (at [zgrid[1]]), and with the time step 0 it never returns: it raises
    [IndexError] during the set-up or [ZeroDivisionError] at [T / Dt]. *)
Theorem FeynmanKac_raises (μz : list K) (σz : K * K) (zgrid fintl : list K)
        (T Dt : K) :
  ((length zgrid < 2)%nat ->
   FeynmanKac μz σz zgrid fintl T Dt = Raise IndexError)
  /\ ((Dt =? ofZ 0)%num = true ->
      FeynmanKac μz σz zgrid fintl T Dt = Raise IndexError
      \/ FeynmanKac μz σz zgrid fintl T Dt = Raise ZeroDivisionError).
Proof.
  split.
  - intros HN. unfold FeynmanKac, getitem.
    destruct (nth_error zgrid 1) eqn:E1; [|reflexivity].
    assert (nth_error zgrid 1 <> None) as Hn by congruence.
    apply nth_error_Some in Hn. lia.
  - intros HDt.
    assert (Hcases : forall P : result (list (list K)) -> Prop,
               P (Raise IndexError) -> P (Raise ZeroDivisionError) ->
               P (FeynmanKac μz σz zgrid fintl T Dt)).
    { intros P PI PZ. unfold FeynmanKac.
      unfold getitem at 1. destruct (nth_error zgrid 1); [|exact PI].
      unfold getitem at 1. destruct (nth_error zgrid 0); [|exact PI].
      cbn [bind result_monad].
      match goal with |- context [mapM ?f ?l] =>
        assert (Hrows : (exists rows, mapM f l = Ok rows)
                        \/ mapM f l = Raise IndexError) end.
      { generalize (seq 0 (length zgrid)). intros l.
        induction l as [|j l IH]; [left; eexists; reflexivity|].
        cbn [mapM].
        match goal with |- context [fk_row ?a ?b ?c ?d ?e j] =>
          assert (Hj : (exists r, fk_row a b c d e j = Ok r)
                       \/ fk_row a b c d e j = Raise IndexError) end.
        { unfold fk_row.
          destruct (Nat.eqb j 0); [left; eexists; reflexivity|].
          destruct (Nat.eqb j (length zgrid - 1));
            [left; eexists; reflexivity|].
          unfold getitem. destruct (nth_error μz j);
            [left; eexists|right]; reflexivity. }
        destruct Hj as [(r & ->)| ->]; [|right; reflexivity].
        cbn [bind result_monad].
        destruct IH as [(rows & ->)| ->]; [left; eexists|right];
          reflexivity. }
      destruct Hrows as [(rows & ->)| ->]; [|exact PI].
      cbn [bind result_monad]. unfold csr_get, csr_get_neg.
      match goal with |- context [if ?c then Ok _ else Raise IndexError] =>
        destruct c end; [|exact PI].
      cbn [bind result_monad].
      match goal with |- context [if ?c then Ok _ else Raise IndexError] =>
        destruct c end; [|exact PI].
      cbn [bind result_monad]. rewrite HDt. exact PZ. }
    apply Hcases; [left|right]; reflexivity.
Qed.

End FeynmanKacShape.

(** ** The array paths of [__mined] and [__HJBODE] against the scalar paths *)

Section Pointwise.
Import StructuredModel.
Context {T : Type} `{Scalar T}.
Variables (d : T) (n j : nat).
Hypothesis Hj : (j < n)%nat.


Lemma nd_entry_Arr (xs : list T) :
  length xs = n -> nd_entry d n j (Arr xs) (nth j xs d).
Proof. intros L. split; [exact L|reflexivity]. Qed.



End Pointwise.



Section MinedPointwise.
Import StructuredModel.
Context {T : Type} `{Scalar T}.
Variables (d : T) (n j : nat) (m : self T).
Hypothesis Hj : (j < n)%nat.







End MinedPointwise.

(** ** The roots of [__S1] in exact arithmetic *)

Module MinimizerExact.
Import Exact StructuredModel.
Local Open Scope R_scope.

(** [__S1(s2, z)] returns a root [s1] of the quadratic that ties the two
    drift distortions together,
    [(a s1^2 + 2 b s1 s2 + d s2^2) / 2
     + (ρ1 + ρ2 (z - z̄)) (αz - βz (z - z̄) + s2) + |σz|^2 ρ2 / 2 - q0s^2 / 2
     = 0],
    whenever the discriminant under its square root is non-negative and
    [a <> 0]; for [a > 0] it is the smaller of the two roots. *)
Theorem S1_solves_constraint (m : self R) (s2 z disc : R) :
  a m <> 0 ->
  S1_discriminant m (Sc s2) (Sc z) = Sc disc ->
  0 <= disc ->
  let constraint := fun s1 : R =>
    (a m * (s1 * s1) + 2 * b m * s1 * s2 + d m * (s2 * s2)) / 2
    + (ρ1 m + ρ2 m * (z - z̄ m)) * (αz m - βz m * (z - z̄ m) + s2)
    + norm (σz m) * norm (σz m) * ρ2 m / 2 - q0s m * q0s m / 2 in
  exists s1,
    __S1 m (Sc s2) (Sc z) = Sc s1
    /\ constraint s1 = 0
    /\ (0 < a m -> forall r, constraint r = 0 -> s1 <= r).
Proof.
  intros Ha Hd Hpos constraint.
  unfold __S1. rewrite Hd.
  unfold S1_discriminant, S1_coeffs, nd_sqr, np_sqrt, sqr, dec in *.
  cbn [nd_map2 nd_map s_mul s_add s_sub s_div s_opp s_sqrt ofZ scalar] in *.
  injection Hd as Hd.
  eexists. split; [reflexivity|].
  set (n2 := norm (σz m) * norm (σz m)) in *.
  set (sq := sqrt disc).
  assert (Hsq : sq * sq = disc) by (apply sqrt_sqrt; exact Hpos).
  assert (Hsq0 : 0 <= sq) by apply sqrt_pos.
  set (s1 := (- (b m * s2) - sq) / (2 * (1 / 2 * a m))).
  assert (Hs1 : a m * s1 = - (b m * s2) - sq) by (unfold s1; field; lra).
  assert (Hc : forall r, 2 * a m * constraint r
                         = (a m * r + b m * s2) * (a m * r + b m * s2) - disc).
  { intros r. unfold constraint, n2, norm, sqr.
    cbn [s_sqrt s_add s_mul scalar]. rewrite <- Hd. field. }
  split.
  - apply Rmult_eq_reg_l with (r := 2 * a m); [|lra].
    rewrite Hc, Hs1, <- Hsq. ring.
  - intros Hpa r Hr.
    pose proof (Hc r) as Hcr. rewrite Hr in Hcr.
    assert (Hrr : (a m * r + b m * s2) * (a m * r + b m * s2) = sq * sq)
      by lra.
    assert (Hge : - sq <= a m * r + b m * s2) by nra.
    apply Rmult_le_reg_l with (r := a m); [exact Hpa|]. lra.
Qed.

End MinimizerExact.

(** ** [ApproxBound] in exact arithmetic *)

Module BoundsExact.
Import Exact StructuredModel.
Local Open Scope R_scope.

Lemma fold_max_spec (l : list R) (e : R) :
  let hi := fold_left (fun p q => if ltb p q then q else p) l e in
  e <= hi /\ (forall x, In x l -> x <= hi) /\ (hi = e \/ In hi l).
Proof.
  revert e. induction l as [|q l IH]; intros e; cbn [fold_left].
  - split; [lra|]. split; [intros x []|left; reflexivity].
  - destruct (ltb e q) eqn:Eb; unfold ltb in Eb;
      destruct (Rlt_dec e q) as [L|L]; try discriminate.
    + destruct (IH q) as (H1 & H2 & H3). split; [lra|]. split.
      * intros x [<-|Hx]; [exact H1|apply H2; exact Hx].
      * right. destruct H3 as [->|H3]; [left; reflexivity|right; exact H3].
    + destruct (IH e) as (H1 & H2 & H3). split; [exact H1|]. split.
      * intros x [<-|Hx]; [lra|apply H2; exact Hx].
      * destruct H3 as [->|H3]; [left; reflexivity|right; right; exact H3].
Qed.

Lemma fold_min_spec (l : list R) (e : R) :
  let lo := fold_left (fun p q => if ltb q p then q else p) l e in
  lo <= e /\ (forall x, In x l -> lo <= x) /\ (lo = e \/ In lo l).
Proof.
  revert e. induction l as [|q l IH]; intros e; cbn [fold_left].
  - split; [lra|]. split; [intros x []|left; reflexivity].
  - destruct (ltb q e) eqn:Eb; unfold ltb in Eb;
      destruct (Rlt_dec q e) as [L|L]; try discriminate.
    + destruct (IH q) as (H1 & H2 & H3). split; [lra|]. split.
      * intros x [<-|Hx]; [exact H1|apply H2; exact Hx].
      * right. destruct H3 as [->|H3]; [left; reflexivity|right; exact H3].
    + destruct (IH e) as (H1 & H2 & H3). split; [exact H1|]. split.
      * intros x [<-|Hx]; [lra|apply H2; exact Hx].
      * destruct H3 as [->|H3]; [left; reflexivity|right; right; exact H3].
Qed.

(** [ApproxBound] keeps, of the roots [ν] of the boundary system, the
    largest as [dvl] and the smallest as [dvr]: both are roots, every root
    lies between them (so [dvr <= dvl]), and nothing else of the object
    changes.  With no root at all it raises [IndexError]. *)
Theorem ApproxBound_extremes (m : self R) (bounds : list (R * R * R)) :
  let νs := map (fun r => fst (fst r)) bounds in
  (bounds = [] -> ApproxBound m bounds = Raise IndexError)
  /\ (bounds <> [] ->
      exists lo hi,
        ApproxBound m bounds = Ok (with_dvr (with_dvl m (Some hi)) (Some lo))
        /\ In lo νs /\ In hi νs
        /\ (forall ν, In ν νs -> lo <= ν <= hi)
        /\ lo <= hi).
Proof.
  intros νs. split.
  - intros ->. reflexivity.
  - intros Hne. unfold ApproxBound. fold νs.
    destruct bounds as [|r0 bounds]; [contradiction|].
    cbn [map] in νs. subst νs. cbn [map s_ltb scalar].
    set (e := fst (fst r0)). set (l := map (fun r => fst (fst r)) bounds).
    destruct (fold_max_spec l e) as (M1 & M2 & M3).
    destruct (fold_min_spec l e) as (L1 & L2 & L3).
    do 2 eexists. split; [reflexivity|].
    split; [destruct L3 as [->|L3]; [left; reflexivity|right; exact L3]|].
    split; [destruct M3 as [->|M3]; [left; reflexivity|right; exact M3]|].
    split; [|lra].
    intros ν [<-|Hν]; [lra|]. split; [apply L2|apply M2]; exact Hν.
Qed.

End BoundsExact.

(** ** [__RelativeEntropyUS]: short grids, and grids without the pin *)

Section EntropyEdges.
Import StructuredModel.
Context {T : Type} `{Scalar T} `{Infinite T} `{Libs T}.

Lemma get2_cases (M : list (list T)) (i j : nat) :
  (exists e, get2 M i j = Ok e) \/ get2 M i j = Raise IndexError.
Proof.
  unfold get2, getitem. destruct (nth_error M i) as [r|]; [|right; reflexivity].
  cbn [bind result_monad].
  destruct (nth_error r j); [left; eexists|right]; reflexivity.
Qed.

Lemma entropy_Q_short_grid (m : self T) (ηᵤ : list (list T)) (grid : list T) :
  (1 <= length grid <= 2)%nat -> entropy_Q m ηᵤ grid = Raise IndexError.
Proof.
  intros HN. unfold entropy_Q.
  destruct grid as [|z0 [|z1 [|z2 g]]]; cbn [length] in HN; try lia.
  - cbn [length seq re_rows]. unfold re_row.
    destruct (get2_cases ηᵤ 0 0) as [(u0 & ->)| ->]; [|reflexivity].
    cbn [bind result_monad].
    destruct (get2_cases ηᵤ 1 0) as [(u1 & ->)| ->]; reflexivity.
  - cbn [length seq re_rows]. unfold re_row.
    destruct (get2_cases ηᵤ 0 0) as [(u0 & ->)| ->]; [|reflexivity].
    cbn [bind result_monad].
    destruct (get2_cases ηᵤ 1 0) as [(u1 & ->)| ->]; reflexivity.
Qed.

(** On a grid of one or two points [__RelativeEntropyUS] raises
    [IndexError]: row 0 of [Q] is written at the columns 0, 1 and 2. *)
Theorem RelativeEntropyUS_short_grid
        (m : self T) (ηᵤ ηₛ : list (list T)) (grid : list T) :
  (1 <= length grid <= 2)%nat ->
  __RelativeEntropyUS m ηᵤ ηₛ grid = Raise IndexError.
Proof.
  intros HN. unfold __RelativeEntropyUS.
  rewrite entropy_Q_short_grid by exact HN. reflexivity.
Qed.

Lemma mask_select_none {A} (grid : list A) (sol : list T) :
  mask_select (map (fun _ => false) grid) sol = [].
Proof.
  unfold mask_select. revert sol.
  induction grid as [|z g IH]; intros [|e sol]; cbn; auto.
Qed.


(** When no grid point equals [z̄], the mask [zgrid == z̄] is empty: no
    column of [Q] is pinned, and whatever the solver answers,
    [__RelativeEntropyUS] returns the empty array. *)
Theorem RelativeEntropyUS_without_pin
        (m : self T) (ηᵤ ηₛ : list (list T)) (grid q : list T) :
  (forall z, In z grid -> (z =? z̄ m)%num = false) ->
  __RelativeEntropyUS m ηᵤ ηₛ grid = Ok q ->
  q = [].
Proof.
  intros Hno E.
  assert (Hmask : map (fun z => (z =? z̄ m)%num) grid
                  = map (fun _ => false) grid).
  { apply map_ext_in. exact Hno. }
  unfold __RelativeEntropyUS in E.
  apply result_bind_ok in E. destruct E as (Q & _ & E).
  apply result_bind_ok in E. destruct E as (u0 & _ & E).
  apply result_bind_ok in E. destruct E as (u1 & _ & E).
  apply result_bind_ok in E. destruct E as (s0 & _ & E).
  apply result_bind_ok in E. destruct E as (s1' & _ & E).
  match type of E with (if ?c then _ else _) = _ => destruct c end;
    [discriminate|].
  apply result_bind_ok in E. destruct E as (sol & _ & E).
  inversion E. rewrite Hmask, mask_select_none. reflexivity.
Qed.

End EntropyEdges.

(** ** The generator matrix of [__RelativeEntropyUS] before pinning *)

Module EntropyRows.
Import Exact ExactSolver SolverFacts StructuredModel.
Local Open Scope R_scope.

Lemma dot_set_nth (r r' x : list R) (c : nat) (e : R) :
  set_nth r c e = Some r' ->
  dot r' x = dot r x + (e - nth c r 0) * nth c x 0.
Proof.
  revert c r' x. induction r as [|p r IH]; intros c r' x E; cbn in E;
    [discriminate|].
  destruct c as [|c].
  - inversion E; subst. destruct x as [|q x]; cbn; ring.
  - destruct (set_nth r c e) as [r0|] eqn:E0; cbn in E; [|discriminate].
    inversion E; subst. destruct x as [|q x]; cbn.
    + destruct c; ring.
    + rewrite (IH _ _ x E0). ring.
Qed.

(** What [M[i, c] = e] does to the rows. *)
Lemma set2_rows (Q Q' : list (list R)) (i c : nat) (e : R) :
  set2 Q i c e = Ok Q' ->
  exists r', set_nth (nth i Q []) c e = Some r'
             /\ length Q' = length Q
             /\ nth i Q' [] = r'
             /\ forall a, a <> i -> nth a Q' [] = nth a Q [].
Proof.
  unfold set2. intros E.
  destruct (nth_error Q i) as [r|] eqn:Er; [|discriminate].
  destruct (set_nth r c e) as [r'|] eqn:Es; [|discriminate].
  destruct (set_nth Q i r') as [Q0|] eqn:EQ; [|discriminate].
  inversion E; subst Q0.
  destruct (FeynmanKacExact.set_nth_spec _ _ _ ([] : list R) EQ) as [HL HN].
  exists r'. rewrite (nth_error_nth _ _ _ Er).
  split; [exact Es|]. split; [exact HL|]. split.
  - rewrite HN, Nat.eqb_refl. reflexivity.
  - intros a Ha. rewrite HN. destruct (Nat.eqb_spec a i); [contradiction|].
    reflexivity.
Qed.

(** Three entries written into a row of zeros. *)
Lemma three_writes (Q Q3 : list (list R)) (n i c1 c2 c3 : nat)
      (e1 e2 e3 : R) :
  (Q1 <- set2 Q i c1 e1 ;; Q2 <- set2 Q1 i c2 e2 ;; set2 Q2 i c3 e3) = Ok Q3 ->
  nth i Q [] = repeat 0 n ->
  c1 <> c2 -> c1 <> c3 -> c2 <> c3 ->
  (c1 < n)%nat -> (c2 < n)%nat -> (c3 < n)%nat ->
  length Q3 = length Q
  /\ (forall a, a <> i -> nth a Q3 [] = nth a Q [])
  /\ dot (nth i Q3 []) (repeat 1 n) = e1 + e2 + e3.
Proof.
  intros E Hz H12 H13 H23 L1 L2 L3.
  apply result_bind_ok in E. destruct E as (Q1 & E1 & E).
  apply result_bind_ok in E. destruct E as (Q2 & E2 & E3).
  apply set2_rows in E1. destruct E1 as (r1 & S1 & HL1 & R1 & O1).
  apply set2_rows in E2. destruct E2 as (r2 & S2 & HL2 & R2 & O2).
  apply set2_rows in E3. destruct E3 as (r3 & S3 & HL3 & R3 & O3).
  rewrite R2 in S3. rewrite R1 in S2. rewrite Hz in S1.
  split; [lia|]. split.
  - intros a Ha. rewrite O3, O2, O1 by exact Ha. reflexivity.
  - rewrite R3.
    destruct (FeynmanKacExact.set_nth_spec _ _ _ 0 S1) as [_ N1].
    destruct (FeynmanKacExact.set_nth_spec _ _ _ 0 S2) as [_ N2].
    rewrite (@dot_set_nth _ _ (repeat 1 n) _ _ S3),
      (@dot_set_nth _ _ (repeat 1 n) _ _ S2),
      (@dot_set_nth _ _ (repeat 1 n) _ _ S1).
    rewrite N2, !N1.
    destruct (Nat.eqb_spec c3 c2); [lia|].
    destruct (Nat.eqb_spec c3 c1); [lia|].
    destruct (Nat.eqb_spec c2 c1); [lia|].
    rewrite !FeynmanKacExact.nth_repeat_lt by lia.
    assert (Hd : dot (repeat 0 n) (repeat 1 n) = 0).
    { clear. induction n as [|k IH]; cbn; [reflexivity|]. rewrite IH. ring. }
    rewrite Hd. ring.
Qed.

(** One pass of the loop of [__RelativeEntropyUS] fills row [j] with three
    entries that sum to zero and leaves the other rows alone. *)
Lemma re_row_sum (m : self R) (ηᵤ : list (list R)) (grid : list R)
      (Q Q' : list (list R)) (j : nat) :
  (3 <= length grid)%nat -> (j < length grid)%nat ->
  nth j Q [] = repeat 0 (length grid) ->
  re_row m ηᵤ grid (length grid) Q j = Ok Q' ->
  length Q' = length Q
  /\ (forall a, a <> j -> nth a Q' [] = nth a Q [])
  /\ dot (nth j Q' []) (repeat 1 (length grid)) = 0.
Proof.
  intros H3 Hj Hz E. unfold re_row in E.
  apply result_bind_ok in E. destruct E as (u0 & _ & E).
  apply result_bind_ok in E. destruct E as (u1 & _ & E).
  apply result_bind_ok in E. destruct E as (zj & _ & E).
  cbv zeta in E.
  destruct (Nat.eqb_spec j 0) as [->|Hj0];
    [|destruct (Nat.eqb_spec j (length grid - 1)) as [Hjl|Hjl]];
    apply (@three_writes _ _ (length grid)) in E; try assumption; try lia;
    destruct E as (HL & HO & HD); (split; [exact HL|split; [exact HO|]]);
    rewrite HD; unfold dec, sqr;
    cbn [s_add s_sub s_mul s_div s_opp ofZ scalar]; unfold Rdiv; lra.
Qed.

(** The rows below [s] sum to zero; the rows from [s] on are still zero. *)
Lemma re_rows_sum (m : self R) (ηᵤ : list (list R)) (grid : list R)
      (k s : nat) (Q Q' : list (list R)) :
  (3 <= length grid)%nat -> (s + k <= length grid)%nat ->
  (forall a, (a < s)%nat -> dot (nth a Q []) (repeat 1 (length grid)) = 0) ->
  (forall a, (s <= a < length grid)%nat ->
             nth a Q [] = repeat 0 (length grid)) ->
  re_rows m ηᵤ grid (length grid) Q (seq s k) = Ok Q' ->
  length Q' = length Q
  /\ forall a, (a < s + k)%nat ->
               dot (nth a Q' []) (repeat 1 (length grid)) = 0.
Proof.
  revert s Q. induction k as [|k IH]; intros s Q H3 Hsk Hlow Hhigh E.
  - cbn in E. inversion E; subst. split; [reflexivity|].
    intros a Ha. apply Hlow. lia.
  - cbn [seq re_rows] in E.
    apply result_bind_ok in E. destruct E as (Q1 & E1 & E).
    apply re_row_sum in E1; [|assumption|lia|apply Hhigh; lia].
    destruct E1 as (HL & HO & HD).
    apply IH in E; [| assumption | lia | | ].
    + destruct E as (HL' & HS). split; [lia|].
      intros a Ha. apply HS. lia.
    + intros a Ha. destruct (Nat.eq_dec a s) as [->|Hne]; [exact HD|].
      rewrite HO by exact Hne. apply Hlow. lia.
    + intros a Ha. rewrite HO by lia. apply Hhigh. lia.
Qed.

(** Every row of the matrix [Q] that [__RelativeEntropyUS] builds sums to
    zero: [Q] maps the constant vector to zero. *)
Lemma entropy_Q_ones (m : self R) (ηᵤ : list (list R)) (grid : list R)
      (Q : list (list R)) :
  entropy_Q m ηᵤ grid = Ok Q ->
  length Q = length grid
  /\ matvec Q (repeat 1 (length grid)) = repeat 0 (length grid).
Proof.
  intros E.
  destruct (Nat.eq_dec (length grid) 0) as [H0|H0].
  { destruct grid; [|discriminate]. cbn in E. inversion E. split; reflexivity. }
  assert (H3 : (3 <= length grid)%nat).
  { destruct (le_lt_dec 3 (length grid)) as [L|L]; [exact L|].
    rewrite entropy_Q_short_grid in E by lia.
    discriminate. }
  unfold entropy_Q in E.
  assert (Hlow : forall a, (a < 0)%nat ->
            dot (nth a (zeros2 (T := R) (length grid) (length grid)) [])
                (repeat 1 (length grid)) = 0)
    by (intros a Ha; exfalso; lia).
  assert (Hhigh : forall a, (0 <= a < length grid)%nat ->
            nth a (zeros2 (T := R) (length grid) (length grid)) []
            = repeat 0 (length grid)).
  { intros a Ha. unfold zeros2, zeros.
    apply FeynmanKacExact.nth_repeat_lt. lia. }
  destruct (@re_rows_sum m ηᵤ grid (length grid) 0 _ Q H3 ltac:(lia)
                         Hlow Hhigh E) as (HL & HS).
  unfold zeros2 in HL. rewrite repeat_length in HL.
  split; [exact HL|].
  apply nth_ext with (d := 0) (d' := 0).
  - unfold matvec. rewrite length_map, repeat_length. exact HL.
  - intros a Ha. unfold matvec in *. rewrite length_map in Ha.
    rewrite FeynmanKacExact.nth_repeat_lt by lia.
    change 0 with (dot [] (repeat 1 (length grid))) at 1.
    rewrite (map_nth (fun r => dot r (repeat 1 (length grid)))).
    apply HS. lia.
Qed.




(** The matrix [Q] that [__RelativeEntropyUS] builds is singular before a
    column is pinned: every one of its rows sums to zero, so it maps the
    constant vector to zero. *)
Theorem entropy_Q_rows_sum_to_zero
        (m : self R) (ηᵤ : list (list R)) (grid : list R) (Q : list (list R)) :
  entropy_Q m ηᵤ grid = Ok Q ->
  matvec Q (repeat 1 (length grid)) = repeat 0 (length grid)
  /\ (grid <> [] -> ~ nonsingular Q).
Proof.
  intros E. destruct (entropy_Q_ones _ _ _ E) as [HL HQ].
  split; [exact HQ|].
  intros Hne Hns. unfold nonsingular in Hns. rewrite HL in Hns.
  specialize (Hns (repeat 1 (length grid)) (repeat_length _ _) HQ).
  destruct grid as [|z g]; [contradiction|]. cbn in Hns.
  inversion Hns. lra.
Qed.


End EntropyRows.

(** ** [UpdatingDrift]: calling it again, and calling it too early *)

Section DriftAgain.
Import StructuredModel.
Context {T : Type} `{Scalar T}.

Lemma mapM_ok_In {A B} (f : A -> result B) (l : list A) (rs : list B) :
  mapM f l = Ok rs ->
  length rs = length l /\ forall x, In x l -> exists r, f x = Ok r.
Proof.
  revert rs. induction l as [|e l IH]; intros rs E; cbn [mapM] in E.
  - inversion E. split; [reflexivity|intros x []].
  - apply result_bind_ok in E. destruct E as (r & Er & E).
    apply result_bind_ok in E. destruct E as (rs' & Ers & E).
    inversion E; subst. destruct (IH _ Ers) as [HL HI].
    split; [cbn; lia|]. intros x [<-|Hx]; [eauto|apply HI; exact Hx].
Qed.

Lemma mapM_ext_in {A B} (f g : A -> result B) (l : list A) :
  (forall x, In x l -> f x = g x) -> mapM f l = mapM g l.
Proof.
  induction l as [|e l IH]; intros E; [reflexivity|].
  cbn [mapM]. rewrite (E e) by (left; reflexivity).
  rewrite IH by (intros x Hx; apply E; right; exact Hx). reflexivity.
Qed.

(** A run of [UpdatingDrift] that returns also passed the shape test of
    [np.vstack]. *)
Lemma UpdatingDrift_stacked (m : self T) (tr : list (call T))
      (m' : self T) (tr' : list (call T)) :
  UpdatingDrift (m, tr) = Ok (tt, (m', tr')) ->
  exists res d2v,
    v m = Some res
    /\ mapM (d2v_at m res) (seq 0 (length (res_x res))) = Ok d2v
    /\ forallb (fun r => Nat.eqb (length r) (length d2v))
               (firstn 2 (res_y res)) = true.
Proof.
  intros E. unfold UpdatingDrift in E.
  step_method E as m0 w0 E0. cbn in E0. inversion E0; subst m0 w0. clear E0.
  step_method E as dr w1 E1. apply lift_ok in E1.
  destruct E1 as (dr' & Edr & Ew). inversion Ew; subst. clear Ew.
  destruct dr' as [drift0 drift1].
  step_method E as res w2 E2. apply lift_ok in E2.
  destruct E2 as (res' & Eres & Ew). inversion Ew; subst. clear Ew.
  destruct (v m) as [res|] eqn:Ev; [|discriminate].
  cbn in Eres. injection Eres as <-.
  step_method E as dk w3 E3. apply lift_ok in E3.
  destruct E3 as (dk' & Edk & Ew). inversion Ew; subst. clear Ew.
  step_method E as u1 w4 E4. cbn in E4. inversion E4; subst. clear E4.
  step_method E as m1 w5 E5. cbn in E5. inversion E5; subst. clear E5.
  step_method E as dz w6 E6. apply lift_ok in E6.
  destruct E6 as (dz' & Edz & Ew). inversion Ew; subst. clear Ew.
  step_method E as u2 w7 E7. cbn in E7. inversion E7; subst. clear E7.
  step_method E as m2 w8 E8. cbn in E8. inversion E8; subst. clear E8.
  step_method E as d2v w9 E9. apply lift_ok in E9.
  destruct E9 as (d2v' & Ed & Ew). inversion Ew; subst. clear Ew.
  destruct (forallb _ _) eqn:Ef; [|discriminate].
  exists res, d2v'. split; [reflexivity|]. split; [exact Ed|exact Ef].
Qed.

(** Column [j] of the stored solution, before and after the row [d2v] has
    replaced everything below the first two rows. *)
Lemma column_restacked (y : list (list T)) (d2v col : list T) (j : nat)
      (v0 v1 : T) :
  column y j = Ok col ->
  getitem col 0 = Ok v0 -> getitem col 1 = Ok v1 ->
  (j < length d2v)%nat ->
  exists c, column (firstn 2 y ++ [d2v]) j = Ok [v0; v1; c]
            /\ (2 <= length y)%nat.
Proof.
  intros Ec E0 E1 Hj. unfold column in *.
  destruct y as [|r0 [|r1 rest]]; cbn [mapM] in Ec.
  - inversion Ec; subst. discriminate.
  - apply result_bind_ok in Ec. destruct Ec as (a & _ & Ec).
    inversion Ec; subst. discriminate.
  - apply result_bind_ok in Ec. destruct Ec as (a & Ea & Ec).
    apply result_bind_ok in Ec. destruct Ec as (rs & Ers & Ec).
    apply result_bind_ok in Ers. destruct Ers as (b & Eb & Ers).
    apply result_bind_ok in Ers. destruct Ers as (rs' & _ & Ers).
    inversion Ers; subst rs. inversion Ec; subst col.
    cbn in E0, E1. inversion E0; subst. inversion E1; subst.
    destruct (getitem_ok d2v Hj) as (c & Hc).
    exists c. cbn [firstn app mapM length]. rewrite Ea, Eb, Hc.
    split; [reflexivity|lia].
Qed.

(** Calling [UpdatingDrift] a second time changes nothing (on a grid that
    is not empty): the drifts are recomputed from the same distortions, and
    the third row of [v['y']] from the same two first rows. *)
Theorem UpdatingDrift_idempotent (m : self T) (tr : list (call T))
        (m' : self T) (tr' : list (call T)) :
  (forall res, v m = Some res -> res_x res <> []) ->
  UpdatingDrift (m, tr) = Ok (tt, (m', tr')) ->
  UpdatingDrift (m', tr') = Ok (tt, (m', tr')).
Proof.
  intros Hgrid E.
  destruct (UpdatingDrift_stacked _ _ E) as (res0 & d2v0 & Ev0 & Ed0 & Ef).
  apply UpdatingDrift_ok in E.
  destruct E as (drift0 & drift1 & res & dk & dz & d2v & Edr & Ev & Edk & Edz
                 & Ed & -> & ->).
  rewrite Ev in Ev0. injection Ev0 as <-.
  rewrite Ed in Ed0. injection Ed0 as <-.
  destruct (mapM_ok_In _ _ Ed) as [Hlen Hall]. rewrite length_seq in Hlen.
  set (res' := with_res_y res (firstn 2 (res_y res) ++ [d2v])).
  set (m1 := with_v (with_driftz (with_driftk m (Some dk)) (Some dz))
                    (Some res')).
  assert (Hrows : forall j, (j < length (res_x res))%nat ->
             d2v_at m1 res' j = d2v_at m res j /\ (2 <= length (res_y res))%nat).
  { intros j Hj. destruct (Hall j) as (r & Er); [apply in_seq; lia|].
    rewrite Er. unfold d2v_at in Er.
    apply result_bind_ok in Er. destruct Er as (xj & Exj & Er).
    apply result_bind_ok in Er. destruct Er as (col & Ecol & Er).
    apply result_bind_ok in Er. destruct Er as (v0 & E0 & Er).
    apply result_bind_ok in Er. destruct Er as (v1 & E1 & Er).
    destruct (@column_restacked (res_y res) d2v col j v0 v1 Ecol E0 E1
                                ltac:(lia)) as (c & Ec & H2).
    split; [|exact H2].
    unfold d2v_at. change (res_x res') with (res_x res).
    change (res_y res') with (firstn 2 (res_y res) ++ [d2v]).
    rewrite Exj, Ec. cbn [bind result_monad getitem nth_error].
    change (θ m1) with (θ m).
    apply result_bind_ok in Er. destruct Er as (θ' & Eθ & Er).
    rewrite Eθ. cbn [bind result_monad]. exact Er. }
  assert (Hnz : length (res_x res) <> 0%nat).
  { specialize (Hgrid _ Ev). destruct (res_x res); [contradiction|discriminate]. }
  destruct (Hrows 0%nat ltac:(lia)) as [_ H2].
  assert (Hy : firstn 2 (firstn 2 (res_y res) ++ [d2v])
               = firstn 2 (res_y res)).
  { destruct (res_y res) as [|r0 [|r1 rest]]; cbn in H2; try lia.
    reflexivity. }
  rewrite (@UpdatingDrift_runs _ _ m1 tr drift0 drift1 res' dk dz d2v);
    try assumption; try reflexivity.
  - unfold m1, res'. cbn [with_res_y res_y]. rewrite Hy. reflexivity.
  - change (res_x res') with (res_x res). rewrite <- Ed.
    apply mapM_ext_in. intros j Hj. apply in_seq in Hj.
    apply Hrows. lia.
  - change (res_y res') with (firstn 2 (res_y res) ++ [d2v]).
    rewrite Hy. exact Ef.
Qed.

End DriftAgain.

(** ** [solvetheta]: what it changes and the order of its evaluations *)

(** Case analysis on the innermost scrutinee at the head of a hypothesis
    [match ... end = r]. *)
Ltac peel_match E :=
  match type of E with
  | ?lhs = _ =>
      let rec go c :=
        lazymatch c with
        | match ?c' with _ => _ end => go c'
        | _ => destruct c eqn:?
        end in
      lazymatch lhs with
      | match ?c with _ => _ end => go c
      | (match ?c with _ => _ end) _ => go c
      end
  end.

Section Protocol.
Import StructuredModel.
Context {T : Type} `{Scalar T} `{Infinite T} `{Libs T}.

Lemma only_calibration_refl (m : self T) : only_calibration_changed m m.
Proof.
  exists (θ m), (status m), (dvErr m), (qErr m). destruct m. reflexivity.
Qed.

Lemma only_calibration_trans (m1 m2 m3 : self T) :
  only_calibration_changed m1 m2 -> only_calibration_changed m2 m3 ->
  only_calibration_changed m1 m3.
Proof.
  intros (t & s & dv & q & ->) (t' & s' & dv' & q' & ->).
  exists t', s', dv', q'. reflexivity.
Qed.

Lemma calibrations_app (a b : list (call T)) :
  calibrations (a ++ b) = calibrations a ++ calibrations b.
Proof. apply flat_map_app. Qed.

(** One evaluation in grid-search mode. *)
Lemma gridsearch_call_log (m : self T) (tr : list (call T)) (θ' : T) r w :
  __CalibratingTheta θ' true (m, tr) = Ok (r, w) ->
  fst w = m /\ exists ev, snd w = tr ++ ev /\ calibrations ev = [(θ', true)].
Proof.
  rewrite CalibratingTheta_gridsearch.
  destruct (__MatchODE m θ' None) as [res|x]; [|discriminate].
  cbn zeta. destruct (ofZ 1 <? res_diff res)%num.
  - intros E; inversion E; subst. split; [reflexivity|].
    exists [CallCalibratingTheta θ' true; CallMatchODE θ'].
    cbn [snd]. rewrite <- app_assoc. split; reflexivity.
  - destruct (__Distortion m res θ') as [[[rh s1'] s2']|x]; [|discriminate].
    destruct (__RelativeEntropyUS m (skipn 2 rh) (firstn 2 rh) (res_x res));
      [|discriminate].
    intros E; inversion E; subst. split; [reflexivity|].
    exists [CallCalibratingTheta θ' true; CallMatchODE θ'; CallDistortion θ';
            CallRelativeEntropyUS].
    cbn [snd]. rewrite <- !app_assoc. split; reflexivity.
Qed.

Lemma gridsearch_phase_log (l : list T) (m : self T) (tr : list (call T))
      vals w :
  mapM (fun theta => r <- __CalibratingTheta theta true ;; lift (item r)) l
       (m, tr) = Ok (vals, w) ->
  fst w = m
  /\ exists ev, snd w = tr ++ ev
                /\ calibrations ev = map (fun θ' => (θ', true)) l.
Proof.
  revert m tr vals w. induction l as [|θ' l IH]; intros m tr vals w E.
  - cbn in E. inversion E. split; [reflexivity|].
    exists []. rewrite app_nil_r. split; reflexivity.
  - cbn [mapM] in E.
    step_method E as v1 w1 E1. step_method E1 as r w2 E2.
    destruct w2 as [m1 tr1].
    apply gridsearch_call_log in E2. cbn [fst snd] in E2.
    destruct E2 as (-> & ev1 & -> & C1).
    apply lift_ok in E1. destruct E1 as (y & _ & Ew). inversion Ew; subst.
    step_method E as vs w3 E3. destruct w3 as [m2 tr2].
    apply IH in E3. cbn [fst snd] in E3. destruct E3 as (-> & ev2 & -> & C2).
    cbn in E. inversion E; subst. split; [reflexivity|].
    exists (ev1 ++ ev2). cbn [snd map].
    rewrite app_assoc, calibrations_app, C1, C2. split; reflexivity.
Qed.

(** One evaluation in refinement mode. *)
Lemma refine_call_log (m : self T) (tr : list (call T)) (θ' : T) r w :
  __CalibratingTheta θ' false (m, tr) = Ok (r, w) ->
  only_calibration_changed m (fst w)
  /\ exists ev, snd w = tr ++ ev /\ calibrations ev = [(θ', false)].
Proof.
  rewrite CalibratingTheta_refine.
  destruct (__MatchODE m θ' None) as [res|x]; [|discriminate].
  destruct (__Distortion m res θ') as [[[rh s1'] s2']|x]; [|discriminate].
  destruct (__RelativeEntropyUS m (skipn 2 rh) (firstn 2 rh) (res_x res))
    as [q|x]; [|discriminate].
  intros E. inversion E; subst. clear E. cbn [fst snd]. split.
  - exists (θ m), (status m), (Some (res_diff res)),
      (Some (Arr q - Sc (qᵤₛ m))%nd).
    destruct m. reflexivity.
  - exists [CallCalibratingTheta θ' false; CallMatchODE θ'; CallDistortion θ';
            CallRelativeEntropyUS].
    rewrite <- !app_assoc. split; reflexivity.
Qed.

Lemma fsolve_loop_log (x0 : T) (fuel : nat) :
  forall history (m : self T) (tr : list (call T)) root w,
    fsolve_loop (@lift T) (fun e => __CalibratingTheta e false) x0 history fuel
                (m, tr) = Ok (root, w) ->
    only_calibration_changed m (fst w)
    /\ exists ev xs, snd w = tr ++ ev
                     /\ calibrations ev = map (fun θ' => (θ', false)) xs
                     /\ (length xs <= fuel)%nat.
Proof.
  induction fuel as [|n IH]; intros history m tr root w E.
  - cbn in E. inversion E. split; [apply only_calibration_refl|].
    exists [], []. rewrite app_nil_r. repeat split. cbn. lia.
  - cbn [fsolve_loop] in E.
    destruct (fsolve_next x0 history) as [x|].
    + step_method E as r w1 E1. destruct w1 as [m1 tr1].
      step_method E as y' w2 E2. apply lift_ok in E2.
      destruct E2 as (y & Ey & Ew). inversion Ew; subst. clear Ew.
      apply refine_call_log in E1. cbn [fst snd] in E1.
      destruct E1 as (F1 & ev1 & -> & C1).
      apply IH in E. destruct E as (F2 & ev2 & xs & -> & C2 & L).
      split; [eapply only_calibration_trans; eauto|].
      exists (ev1 ++ ev2), (x :: xs).
      rewrite app_assoc, calibrations_app, C1, C2.
      repeat split. cbn [length]. lia.
    + cbn in E. inversion E. split; [apply only_calibration_refl|].
      exists [], []. rewrite app_nil_r. repeat split. cbn. lia.
Qed.

Lemma fsolve_log (x0 : T) (fuel : nat) (m : self T)
      (tr : list (call T)) root w :
  fsolve (@lift T) (fun e => __CalibratingTheta e false) x0 fuel (m, tr)
  = Ok (root, w) ->
  only_calibration_changed m (fst w)
  /\ exists ev xs, snd w = tr ++ ev
                   /\ calibrations ev = map (fun θ' => (θ', false)) (x0 :: xs)
                   /\ (length xs <= fuel)%nat.
Proof.
  unfold fsolve. intros E.
  step_method E as r w1 E1. destruct w1 as [m1 tr1].
  step_method E as y' w2 E2. apply lift_ok in E2.
  destruct E2 as (y & Ey & Ew). inversion Ew; subst. clear Ew.
  apply refine_call_log in E1. cbn [fst snd] in E1.
  destruct E1 as (F1 & ev1 & -> & C1).
  apply fsolve_loop_log in E. destruct E as (F2 & ev2 & xs & -> & C2 & L).
  split; [eapply only_calibration_trans; eauto|].
  exists (ev1 ++ ev2), xs.
  rewrite app_assoc, calibrations_app, C1, C2. repeat split. exact L.
Qed.

Lemma only_calibration_with_θ (m m' : self T) t :
  only_calibration_changed m m' -> only_calibration_changed m (with_θ m' t).
Proof.
  intros (t0 & s & dv & q & ->). exists t, s, dv, q. reflexivity.
Qed.

Lemma only_calibration_with_status (m m' : self T) s :
  only_calibration_changed m m' ->
  only_calibration_changed m (with_status m' s).
Proof.
  intros (t & s0 & dv & q & ->). exists t, s, dv, q. reflexivity.
Qed.

(** A run of [solvetheta] for a finite target, step by step. *)
Lemma solvetheta_run (m : self T) (tr : list (call T))
      (m' : self T) (tr' : list (call T)) :
  (qᵤₛ m =? inf)%num = false ->
  solvetheta (m, tr) = Ok (tt, (m', tr')) ->
  only_calibration_changed m m'
  /\ exists guess xs ev1 ev2,
       tr' = tr ++ ev1 ++ [CallFsolve guess] ++ ev2
       /\ In guess thetalist
       /\ calibrations ev1 = map (fun θ' => (θ', true)) thetalist
       /\ calibrations ev2 = map (fun θ' => (θ', false)) (guess :: xs)
       /\ (length xs <= 20)%nat.
Proof.
  intros Einf E. unfold solvetheta in E.
  step_method E as m0 w0 E0. cbn in E0. inversion E0; subst m0 w0. clear E0.
  rewrite Einf in E.
  step_method E as vals w1 Eg. destruct w1 as [m1 tr1].
  apply gridsearch_phase_log in Eg. cbn [fst snd] in Eg.
  destruct Eg as (-> & ev1 & -> & C1).
  step_method E as guess w2 Eguess.
  apply lift_ok in Eguess. destruct Eguess as (g & Eg & Ew).
  inversion Ew; subst. clear Ew.
  assert (Hin : In g thetalist).
  { unfold getitem in Eg.
    destruct (nth_error thetalist (argmin_abs vals)) eqn:En; [|discriminate].
    inversion Eg; subst. eapply nth_error_In; eauto. }
  step_method E as u w3 El. cbn in El. inversion El; subst. clear El.
  step_method E as root w4 Ef. destruct w4 as [m2 tr2].
  apply fsolve_log in Ef. cbn [fst snd] in Ef.
  destruct Ef as (F & ev2 & xs & -> & C2 & L).
  assert (Hfin : (m' = with_θ m2 (Some root)
                  \/ m' = with_status (with_θ m2 (Some root)) 1%Z)
                 /\ tr' = ((tr ++ ev1) ++ [CallFsolve g]) ++ ev2).
  { unfold lift in E.
    cbn [bind ret method_monad get_self put_self fst snd] in E.
    repeat (peel_match E; try discriminate;
            cbn [bind ret method_monad get_self put_self fst snd] in E);
      inversion E; auto. }
  destruct Hfin as [Hend ->]. split.
  - destruct Hend as [-> | ->].
    + apply only_calibration_with_θ. exact F.
    + apply only_calibration_with_status, only_calibration_with_θ. exact F.
  - exists g, xs, ev1, ev2. rewrite <- !app_assoc. repeat split; assumption.
Qed.

(** [solvetheta] assigns [θ], [status], [dvErr] and [qErr] and nothing
    else: the parameters, the bounds and the stored solution of the model
    are what they were. *)
Theorem solvetheta_frame (m : self T) (tr : list (call T))
        (m' : self T) (tr' : list (call T)) :
  solvetheta (m, tr) = Ok (tt, (m', tr')) ->
  exists t s dv q,
    m' = with_qErr (with_dvErr (with_status (with_θ m t) s) dv) q.
Proof.
  intros E. destruct (qᵤₛ m =? inf)%num eqn:Einf.
  - unfold solvetheta in E.
    cbn [bind ret method_monad get_self put_self fst snd] in E.
    rewrite Einf in E. inversion E; subst.
    exists (Some inf), 1%Z, (dvErr m), (qErr m). destruct m. reflexivity.
  - exact (proj1 (@solvetheta_run m tr m' tr' Einf E)).
Qed.

(** For a finite target, [solvetheta] first evaluates
    [__CalibratingTheta] in grid-search mode at 0.1, 0.2, 0.3, 0.4, 0.6,
    0.8, 1.0 and 1.2, in this order; it then calls [fsolve] with one of
    these eight values as the initial guess; every later evaluation is in
    refinement mode, and the first of them is at the initial guess. *)
Theorem solvetheta_protocol (m : self T) (tr : list (call T))
        (m' : self T) (tr' : list (call T)) :
  (qᵤₛ m =? inf)%num = false ->
  solvetheta (m, tr) = Ok (tt, (m', tr')) ->
  exists guess xs ev1 ev2,
    tr' = tr ++ ev1 ++ [CallFsolve guess] ++ ev2
    /\ In guess thetalist
    /\ calibrations ev1 = map (fun θ' => (θ', true)) thetalist
    /\ calibrations ev2 = map (fun θ' => (θ', false)) (guess :: xs).
Proof.
  intros Einf E.
  destruct (proj2 (@solvetheta_run m tr m' tr' Einf E))
    as (guess & xs & ev1 & ev2 & Htr & Hin & C1 & C2 & _).
  exists guess, xs, ev1, ev2. repeat split; assumption.
Qed.

End Protocol.

(** ** [__MatchODE] and [__Distortion]: what the callers can rely on *)

Section Contracts.
Import StructuredModel.
Context {T : Type} `{Scalar T} `{Infinite T} `{Libs T}.

(** Whatever the libraries answer, a matched solution that [__MatchODE]
    returns is laid out on the canonical grid of the model's [Dz]; the
    residual it reports is the absolute value of [v0Diff] at the slope
    [dv0] it reports, and its two half solutions are the ones computed for
    that slope. *)
Theorem MatchODE_result (m : self T) (θ' : T) (g : option T)
        (res : matched T) :
  __MatchODE m θ' g = Ok res ->
  res_x res = zgrid (Dz m)
  /\ (exists diff, v0Diff m θ' (res_dv0 res) = Ok diff
                   /\ res_diff res = s_abs diff)
  /\ exists dvl' dvr',
       dvl m = Some dvl' /\ dvr m = Some dvr'
       /\ __ODEsolver m (zl m, ofZ 0) dvl' (res_dv0 res) θ'
          = Ok (res_negsol res)
       /\ __ODEsolver m (ofZ 0, zr m) (res_dv0 res) dvr' θ'
          = Ok (res_possol res).
Proof.
  unfold __MatchODE. intros E.
  apply result_bind_ok in E. destruct E as (guess & _ & E).
  apply result_bind_ok in E. destruct E as (dv0' & _ & E).
  apply result_bind_ok in E. destruct E as (dvl' & Edvl & E).
  apply result_bind_ok in E. destruct E as (negsol & En & E).
  apply result_bind_ok in E. destruct E as (k1 & _ & E).
  apply result_bind_ok in E. destruct E as (dvr' & Edvr & E).
  apply result_bind_ok in E. destruct E as (possol & Ep & E).
  apply result_bind_ok in E. destruct E as (k2 & _ & E).
  apply result_bind_ok in E. destruct E as (ns & _ & E).
  apply result_bind_ok in E. destruct E as (ps & _ & E).
  apply result_bind_ok in E. destruct E as (y & _ & E).
  apply result_bind_ok in E. destruct E as (diff & Ed & E).
  inversion E; subst res. clear E. cbn [res_x res_diff res_dv0 res_negsol
                                        res_possol].
  split; [reflexivity|]. split; [exists diff; split; [exact Ed|reflexivity]|].
  exists dvl', dvr'.
  destruct (dvl m) as [l|]; [|discriminate].
  destruct (dvr m) as [r|]; [|discriminate].
  cbn in Edvl, Edvr. inversion Edvl; inversion Edvr; subst.
  repeat split; assumption.
Qed.

Lemma mapM_result_length {A B} (f : A -> result B) (l : list A) (rs : list B) :
  mapM f l = Ok rs -> length rs = length l.
Proof.
  revert rs. induction l as [|e l IH]; intros rs E; cbn [mapM] in E.
  - inversion E. reflexivity.
  - apply result_bind_ok in E. destruct E as (r & _ & E).
    apply result_bind_ok in E. destruct E as (rs' & Ers & E).
    inversion E; subst. cbn. rewrite (IH _ Ers). reflexivity.
Qed.

Lemma map2_map_r {A B C D} (f : A -> C -> D) (g : B -> C)
      (l : list A) (k : list B) :
  map2 (fun p q => f p (g q)) l k = map2 f l (map g k).
Proof.
  revert k. induction l as [|p l IH]; intros [|q k]; cbn; auto.
  rewrite IH. reflexivity.
Qed.

(** [__Distortion] returns four rows over the grid: rows 0 and 1 are the
    distortion [r] and rows 2 and 3 the distortion [h], which is [r] plus
    the term [-1/θ * σ.T . (0.01, v')] that does not depend on the
    controls; [s1] and [s2] have one entry per grid point. *)
Theorem Distortion_rows (m : self T) (sol : matched T) (θ' : T)
        (rh : list (list T)) (s1' s2' : list T) :
  __Distortion m sol θ' = Ok (rh, s1', s2') ->
  let Nz := length (res_x sol) in
  let c := (ofZ 1 * dec 1 100)%num in
  exists r0 r1 h0 h1 y1,
    rh = [r0; r1; h0; h1]
    /\ firstn 2 rh = [r0; r1] /\ skipn 2 rh = [h0; h1]
    /\ getitem (res_y sol) 1 = Ok y1
    /\ length y1 = Nz /\ length r0 = Nz /\ length r1 = Nz
    /\ length s1' = Nz /\ length s2' = Nz
    /\ h0 = map2 (fun y1j r0j =>
                    (ofZ (-1) / θ'
                     * (fst (fst (σ m)) * c + fst (snd (σ m)) * y1j)
                     + r0j)%num) y1 r0
    /\ h1 = map2 (fun y1j r1j =>
                    (ofZ (-1) / θ'
                     * (snd (fst (σ m)) * c + snd (snd (σ m)) * y1j)
                     + r1j)%num) y1 r1.
Proof.
  unfold __Distortion. intros E. cbv zeta in E |- *.
  apply result_bind_ok in E. destruct E as (s12 & Es & E).
  destruct (σ m) as [[σ00 σ01] [σ10 σ11]].
  apply result_bind_ok in E. destruct E as (r & Er & E).
  apply result_bind_ok in E. destruct E as (y1 & Ey & E).
  destruct (Nat.eqb_spec (length y1) (length (res_x sol))) as [Ly|Ly];
    [|discriminate].
  cbn [negb] in E. inversion E; subst rh s1' s2'. clear E.
  apply mapM_result_length in Es. rewrite length_seq in Es.
  apply mapM_result_length in Er.
  do 4 eexists. exists y1.
  split; [reflexivity|]. split; [reflexivity|]. split; [reflexivity|].
  split; [exact Ey|]. rewrite !length_map.
  split; [exact Ly|]. split; [congruence|]. split; [congruence|].
  split; [exact Es|]. split; [exact Es|].
  cbn [fst snd]. split.
  - apply (map2_map_r
             (fun y1j r0j =>
                (ofZ (-1) / θ' * (σ00 * (ofZ 1 * dec 1 100) + σ10 * y1j)
                 + r0j)%num) fst y1 r).
  - apply (map2_map_r
             (fun y1j r1j =>
                (ofZ (-1) / θ' * (σ01 * (ofZ 1 * dec 1 100) + σ11 * y1j)
                 + r1j)%num) snd y1 r).
Qed.

(** ** Methods called before [HL] has stored the distortions *)

(** On an object whose [Distorted] is still [None] (as the constructor
    leaves it), [UpdatingDrift] and the first lines of [ExpectH] raise
    [TypeError]. *)
Theorem drift_methods_need_distortions (m : self T) (tr : list (call T)) :
  Distorted m = None ->
  UpdatingDrift (m, tr) = Raise TypeError
  /\ ExpectH_μz m = Raise TypeError
  /\ ExpectH_expectH1 m = Raise TypeError.
Proof.
  intros E. unfold UpdatingDrift, ExpectH_expectH1, ExpectH_μz, drift_rows.
  cbn [bind ret method_monad get_self lift fst snd].
  rewrite E. repeat split.
Qed.

End Contracts.

(** ** [FeynmanKac] is linear in the initial function *)

Module FeynmanKacLinear.
Import Exact ExactSolver SolverFacts.
Local Open Scope R_scope.

Section Combination.
Variables α β : R.

Lemma lincomb_length (x y : list R) :
  length x = length y -> length (lincomb α β x y) = length x.
Proof. apply map2_length. Qed.

Lemma lincomb_app (x1 y1 x2 y2 : list R) :
  length x1 = length y1 ->
  lincomb α β (x1 ++ x2) (y1 ++ y2)
  = lincomb α β x1 y1 ++ lincomb α β x2 y2.
Proof.
  unfold lincomb. revert y1.
  induction x1 as [|p x1 IH]; intros [|q y1] L; cbn in L;
    try discriminate; [reflexivity|].
  cbn [app map2]. rewrite IH by lia. reflexivity.
Qed.

Lemma lincomb_map_opp (x y : list R) :
  map Ropp (lincomb α β x y) = lincomb α β (map Ropp x) (map Ropp y).
Proof.
  unfold lincomb. revert y.
  induction x as [|p x IH]; intros [|q y]; cbn [map map2]; auto.
  rewrite <- IH. f_equal. ring.
Qed.

Lemma lincomb_tl (x y : list R) :
  tl (lincomb α β x y) = lincomb α β (tl x) (tl y).
Proof.
  unfold lincomb. destruct x as [|p x], y as [|q y]; cbn [tl map2]; auto.
  destruct x; reflexivity.
Qed.

Lemma lincomb_removelast (x y : list R) :
  length x = length y ->
  removelast (lincomb α β x y) = lincomb α β (removelast x) (removelast y).
Proof.
  unfold lincomb. revert y.
  induction x as [|p x IH]; intros [|q y] L; cbn in L;
    try discriminate; [reflexivity|].
  destruct x as [|p' x], y as [|q' y]; cbn in L; try discriminate;
    [reflexivity|].
  change (removelast (p :: p' :: x)) with (p :: removelast (p' :: x)).
  change (removelast (q :: q' :: y)) with (q :: removelast (q' :: y)).
  cbn [map2]. rewrite <- IH by (cbn; lia). reflexivity.
Qed.

Lemma lincomb_slice_inner (x y : list R) :
  length x = length y ->
  slice_inner (lincomb α β x y)
  = lincomb α β (slice_inner x) (slice_inner y).
Proof.
  intros L. unfold slice_inner. rewrite lincomb_tl.
  apply lincomb_removelast. destruct x, y; cbn in *; lia.
Qed.

Lemma getitem_lincomb (x y : list R) (i : nat) (p q : R) :
  getitem x i = Ok p -> getitem y i = Ok q ->
  getitem (lincomb α β x y) i = Ok (α * p + β * q).
Proof.
  unfold getitem, lincomb. revert y i.
  induction x as [|a x IH]; intros [|b y] [|i]; cbn; try discriminate.
  - intros E1 E2. inversion E1; inversion E2. reflexivity.
  - apply IH.
Qed.

Lemma getitem_neg_lincomb (x y : list R) (k : nat) (p q : R) :
  length x = length y ->
  getitem_neg x k = Ok p -> getitem_neg y k = Ok q ->
  getitem_neg (lincomb α β x y) k = Ok (α * p + β * q).
Proof.
  intros L. unfold getitem_neg. rewrite lincomb_length by exact L.
  rewrite <- L. destruct (Nat.leb k (length x) && Nat.ltb 0 k)%bool;
    [|discriminate].
  apply getitem_lincomb.
Qed.

Lemma set_nth_lincomb (x y x' y' : list R) (i : nat) (e1 e2 : R) :
  set_nth x i e1 = Some x' -> set_nth y i e2 = Some y' ->
  set_nth (lincomb α β x y) i (α * e1 + β * e2) = Some (lincomb α β x' y').
Proof.
  unfold lincomb. revert y x' y' i.
  induction x as [|a x IH]; intros [|b y] x' y' [|i]; cbn; try discriminate.
  - intros E1 E2. inversion E1; inversion E2. reflexivity.
  - destruct (set_nth x i e1) as [x0|] eqn:Ex; [|discriminate].
    destruct (set_nth y i e2) as [y0|] eqn:Ey; [|discriminate].
    cbn. intros E1 E2. inversion E1; inversion E2; subst.
    rewrite (IH _ _ _ _ Ex Ey). reflexivity.
Qed.

Lemma dot_lincomb (r x y : list R) :
  length x = length y ->
  dot r (lincomb α β x y) = α * dot r x + β * dot r y.
Proof.
  unfold lincomb. revert x y.
  induction r as [|c r IH]; intros [|p x] [|q y] L; cbn in *;
    try discriminate; try ring.
  rewrite IH by lia. ring.
Qed.

Lemma matvec_lincomb (A : list (list R)) (x y : list R) :
  length x = length y ->
  matvec A (lincomb α β x y) = lincomb α β (matvec A x) (matvec A y).
Proof.
  intros L. unfold matvec. induction A as [|r A IH]; [reflexivity|].
  cbn [map]. rewrite dot_lincomb, IH by exact L. reflexivity.
Qed.

End Combination.

(** What an answer of the exact solver means. *)
Lemma exact_solve_inv (A : list (list R)) (b x : list R) :
  exact_solve A b = Ok x ->
  square A (length b) = true
  /\ is_solution A b x
  /\ forall y, is_solution A b y -> y = x.
Proof.
  unfold exact_solve. destruct (square A (length b)); [|discriminate].
  destruct (excluded_middle_informative (exists! x0, is_solution A b x0))
    as [e|]; [|discriminate].
  intros E. inversion E as [Ex]. clear E.
  destruct (constructive_definite_description _ e) as (x0 & Hx0). cbn.
  destruct e as (x1 & Hx1 & Hu).
  split; [reflexivity|]. split; [exact Hx0|].
  intros y Hy. rewrite <- (Hu _ Hy), <- (Hu _ Hx0). reflexivity.
Qed.

Lemma lincomb_fixed (x y : list R) :
  length y = length x -> lincomb 1 1 x y = x -> y = repeat 0 (length x).
Proof.
  unfold lincomb. revert y.
  induction x as [|p x IH]; intros [|q y] L E; cbn in *;
    try discriminate; [reflexivity|].
  injection E as Ep Ex. f_equal; [lra|]. apply IH; [lia|exact Ex].
Qed.

Lemma lincomb_zeros (b : list R) (n : nat) :
  n = length b -> lincomb 1 1 b (repeat 0 n) = b.
Proof.
  intros ->. unfold lincomb. induction b as [|p b IH]; cbn; [reflexivity|].
  rewrite IH. f_equal. ring.
Qed.

(** A system that the exact solver answers has a non-singular matrix. *)
Lemma exact_solve_nonsingular_inv (A : list (list R)) (b x : list R) :
  exact_solve A b = Ok x -> nonsingular A /\ length A = length b.
Proof.
  intros E. apply exact_solve_inv in E. destruct E as (Hs & [Lx Hx] & Hu).
  apply square_spec in Hs. destruct Hs as [LA _]. split; [|exact LA].
  intros y Ly Hy.
  assert (Hsol : is_solution A b (lincomb 1 1 x y)).
  { split; [rewrite lincomb_length; congruence|].
    rewrite matvec_lincomb by congruence. rewrite Hx, Hy.
    apply lincomb_zeros. exact LA. }
  apply Hu in Hsol. apply lincomb_fixed in Hsol; congruence.
Qed.

Lemma exact_solve_lincomb (α β : R) (A : list (list R))
      (b1 b2 x1 x2 : list R) :
  length b1 = length b2 ->
  exact_solve A b1 = Ok x1 -> exact_solve A b2 = Ok x2 ->
  exact_solve A (lincomb α β b1 b2) = Ok (lincomb α β x1 x2).
Proof.
  intros L E1 E2.
  destruct (exact_solve_nonsingular_inv _ _ E1) as [Hns LA].
  apply exact_solve_inv in E1. destruct E1 as (Hs1 & [Lx1 Hx1] & _).
  apply exact_solve_inv in E2. destruct E2 as (_ & [Lx2 Hx2] & _).
  apply exact_solve_nonsingular.
  - rewrite lincomb_length by exact L. exact Hs1.
  - exact Hns.
  - split.
    + rewrite !lincomb_length; congruence.
    + rewrite matvec_lincomb by congruence. rewrite Hx1, Hx2. reflexivity.
Qed.

Lemma lincomb_extend (α β : R) (x1 x2 : list R) (a a' c c' : R) :
  length x1 = length x2 ->
  lincomb α β (a :: x1 ++ [c]) (a' :: x2 ++ [c'])
  = (α * a + β * a') :: lincomb α β x1 x2 ++ [α * c + β * c'].
Proof.
  intros L. change (lincomb α β (a :: x1 ++ [c]) (a' :: x2 ++ [c']))
    with ((α * a + β * a') :: lincomb α β (x1 ++ [c]) (x2 ++ [c'])).
  rewrite lincomb_app by exact L. reflexivity.
Qed.

Lemma slice_inner_length {A} (l : list A) :
  length (slice_inner l) = (length l - 2)%nat.
Proof.
  unfold slice_inner. rewrite removelast_firstn_len, length_firstn.
  destruct l as [|e l]; cbn; lia.
Qed.

Lemma set_nth_length {A} (l l' : list A) (i : nat) (e : A) :
  set_nth l i e = Some l' -> length l' = length l.
Proof.
  revert i l'. induction l as [|p l IH]; intros [|i] l' E; cbn in E;
    try discriminate.
  - inversion E. reflexivity.
  - destruct (set_nth l i e) as [l0|] eqn:E0; [|discriminate].
    inversion E. cbn. rewrite (IH _ _ E0). reflexivity.
Qed.

Tactic Notation "peel" hyp(E) ident(x) ident(Ex) :=
  apply result_bind_ok in E; destruct E as (x & Ex & E).

(** One pass of the time loop is linear in [ϕold]. *)
Lemma fk_step_lincomb (base : Libs R) (α β : R) (A : list (list R))
      (a1 a2 : R) (ϕ1 ϕ2 ψ1 ψ2 : list R) :
  length ϕ1 = length ϕ2 ->
  @fk_step R scalar (exact_libs base) A a1 a2 ϕ1 = Ok ψ1 ->
  @fk_step R scalar (exact_libs base) A a1 a2 ϕ2 = Ok ψ2 ->
  @fk_step R scalar (exact_libs base) A a1 a2 (lincomb α β ϕ1 ϕ2)
  = Ok (lincomb α β ψ1 ψ2)
  /\ length ψ1 = length ψ2.
Proof.
  intros L E1 E2. unfold fk_step in *. cbv zeta in *.
  cbn [s_opp s_sub s_mul ofZ scalar spsolve exact_libs] in *.
  peel E1 b0 Eb0. peel E1 f0 Ef0.
  destruct (set_nth (map Ropp (slice_inner ϕ1)) 0 (b0 - a1 * f0))
    as [b1|] eqn:Es1; [|discriminate].
  cbn [bind result_monad] in E1.
  peel E1 bl El. peel E1 fl Efl.
  destruct (set_nth b1 (length b1 - 1) (bl - a2 * fl))
    as [b1'|] eqn:Es1'; [|discriminate].
  cbn [bind result_monad] in E1.
  peel E1 x1 Ex1. peel E1 p0 Ep0. peel E1 p1 Ep1. peel E1 q0 Eq0.
  peel E1 q1 Eq1. inversion E1; subst ψ1. clear E1.
  peel E2 c0 Ec0. peel E2 g0 Eg0.
  destruct (set_nth (map Ropp (slice_inner ϕ2)) 0 (c0 - a1 * g0))
    as [b2|] eqn:Es2; [|discriminate].
  cbn [bind result_monad] in E2.
  peel E2 cl Ecl. peel E2 gl Egl.
  destruct (set_nth b2 (length b2 - 1) (cl - a2 * gl))
    as [b2'|] eqn:Es2'; [|discriminate].
  cbn [bind result_monad] in E2.
  peel E2 x2 Ex2. peel E2 r0 Er0. peel E2 r1 Er1. peel E2 s0 Es0.
  peel E2 s1 Es1''. inversion E2; subst ψ2. clear E2.
  assert (Lb : length b1 = length b2).
  { rewrite (set_nth_length _ _ _ Es1), (set_nth_length _ _ _ Es2).
    rewrite !length_map, !slice_inner_length. lia. }
  assert (Lb' : length b1' = length b2').
  { rewrite (set_nth_length _ _ _ Es1'), (set_nth_length _ _ _ Es2').
    exact Lb. }
  assert (Lx : length x1 = length x2).
  { apply exact_solve_inv in Ex1. apply exact_solve_inv in Ex2.
    destruct Ex1 as (_ & [H1 _] & _). destruct Ex2 as (_ & [H2 _] & _).
    congruence. }
  split.
  - rewrite lincomb_slice_inner, lincomb_map_opp by exact L.
    rewrite (@getitem_lincomb α β _ _ _ _ _ Eb0 Ec0). cbn [bind result_monad].
    rewrite (@getitem_lincomb α β _ _ _ _ _ Ef0 Eg0). cbn [bind result_monad].
    replace (α * b0 + β * c0 - a1 * (α * f0 + β * g0))
      with (α * (b0 - a1 * f0) + β * (c0 - a1 * g0)) by ring.
    rewrite (@set_nth_lincomb α β _ _ _ _ _ _ _ Es1 Es2). cbn [bind result_monad].
    rewrite (@getitem_neg_lincomb α β _ _ _ _ _ Lb El Ecl).
    cbn [bind result_monad].
    rewrite (@getitem_neg_lincomb α β _ _ _ _ _ L Efl Egl).
    cbn [bind result_monad].
    replace (α * bl + β * cl - a2 * (α * fl + β * gl))
      with (α * (bl - a2 * fl) + β * (cl - a2 * gl)) by ring.
    rewrite lincomb_length by exact Lb.
    rewrite <- Lb in Es2'.
    rewrite (@set_nth_lincomb α β _ _ _ _ _ _ _ Es1' Es2'). cbn [bind result_monad].
    rewrite (@exact_solve_lincomb α β _ _ _ _ _ Lb' Ex1 Ex2). cbn [bind result_monad].
    rewrite (@getitem_lincomb α β _ _ _ _ _ Ep0 Er0). cbn [bind result_monad].
    rewrite (@getitem_lincomb α β _ _ _ _ _ Ep1 Er1). cbn [bind result_monad].
    rewrite (@getitem_neg_lincomb α β _ _ _ _ _ Lx Eq0 Es0).
    cbn [bind result_monad].
    rewrite (@getitem_neg_lincomb α β _ _ _ _ _ Lx Eq1 Es1'').
    cbn [bind ret result_monad].
    f_equal.
    cbn [app]. rewrite (@lincomb_extend α β _ _ _ _ _ _ Lx).
    f_equal; [ring|]. f_equal. f_equal. ring.
  - cbn [app length]. rewrite !length_app. cbn [length]. lia.
Qed.

Lemma fk_march_lincomb (base : Libs R) (α β : R) (A : list (list R))
      (a1 a2 : R) (Nz n : nat) :
  forall ϕ1 ϕ2 c1 c2,
    length ϕ1 = length ϕ2 ->
    @fk_march R scalar (exact_libs base) A a1 a2 Nz ϕ1 n = Ok c1 ->
    @fk_march R scalar (exact_libs base) A a1 a2 Nz ϕ2 n = Ok c2 ->
    @fk_march R scalar (exact_libs base) A a1 a2 Nz (lincomb α β ϕ1 ϕ2) n
    = Ok (map2 (lincomb α β) c1 c2).
Proof.
  induction n as [|n IH]; intros ϕ1 ϕ2 c1 c2 L E1 E2; cbn [fk_march] in *.
  - inversion E1; inversion E2. reflexivity.
  - peel E1 ψ1 Es1. peel E2 ψ2 Es2.
    destruct (Nat.eqb_spec (length ψ1) Nz) as [L1|]; [|discriminate].
    destruct (Nat.eqb_spec (length ψ2) Nz) as [L2|]; [|discriminate].
    peel E1 r1 Er1. peel E2 r2 Er2.
    inversion E1; inversion E2; subst c1 c2.
    destruct (@fk_step_lincomb base α β A a1 a2 ϕ1 ϕ2 ψ1 ψ2 L Es1 Es2)
      as [-> Lψ].
    cbn [bind result_monad].
    rewrite lincomb_length, L1, Nat.eqb_refl by exact Lψ.
    rewrite (IH _ _ _ _ Lψ Er1 Er2). reflexivity.
Qed.

(** Superposition: in exact arithmetic, [FeynmanKac] applied to the
    combination [α f + β g] of two initial functions returns the same
    combination of the arrays it returns for [f] and for [g]. *)
Theorem FeynmanKac_linear (base : Libs R) (μz : list R) (σz : R * R)
        (zgrid f g : list R) (T Dt α β : R) (F G : list (list R)) :
  length f = length zgrid -> length g = length zgrid ->
  @FeynmanKac R scalar (exact_libs base) μz σz zgrid f T Dt = Ok F ->
  @FeynmanKac R scalar (exact_libs base) μz σz zgrid g T Dt = Ok G ->
  @FeynmanKac R scalar (exact_libs base) μz σz zgrid (lincomb α β f g) T Dt
  = Ok (map2 (lincomb α β) F G).
Proof.
  intros Lf Lg E1 E2. unfold FeynmanKac in *.
  destruct (getitem zgrid 1) as [z1|]; [|discriminate].
  destruct (getitem zgrid 0) as [z0|]; [|discriminate].
  cbn [bind result_monad] in *.
  match goal with |- context [mapM ?fn ?l] =>
    destruct (mapM fn l) as [rows|] end; [|discriminate].
  cbn [bind result_monad] in *.
  match goal with |- context [csr_get ?M ?i ?j] =>
    destruct (csr_get M i j) as [a1|] end; [|discriminate].
  cbn [bind result_monad] in *.
  match goal with |- context [csr_get_neg ?M ?i ?j] =>
    destruct (csr_get_neg M i j) as [a2|] end; [|discriminate].
  cbn [bind result_monad] in *.
  destruct (Dt =? ofZ 0)%num; [discriminate|].
  destruct (py_int (T / Dt)%num + 1 <? 0)%Z; [discriminate|].
  destruct (py_int (T / Dt)%num + 1 =? 0)%Z; [discriminate|].
  rewrite lincomb_length by congruence.
  rewrite Lf, Nat.eqb_refl in *. rewrite Lg, Nat.eqb_refl in E2.
  cbn [bind result_monad] in *.
  peel E1 c1 Ec1. peel E2 c2 Ec2. inversion E1; inversion E2; subst F G.
  rewrite (@fk_march_lincomb base α β _ _ _ _ _ f g c1 c2
             ltac:(congruence) Ec1 Ec2).
  reflexivity.
Qed.

End FeynmanKacLinear.

(** ** The matrix of [__ChernoffEntropy] in exact arithmetic *)

Module ChernoffRows.
Import Exact ExactSolver SolverFacts StructuredModel.
Local Open Scope R_scope.

(** A loop that fills one row of zeros per pass, with entries of known
    sum. *)
Lemma fill_rows_sum (step : list (list R) -> nat -> result (list (list R)))
      (tgt : nat -> R) (n : nat) :
  (forall Q Q' j, (j < n)%nat -> nth j Q [] = repeat 0 n ->
                  step Q j = Ok Q' ->
                  length Q' = length Q
                  /\ (forall a, a <> j -> nth a Q' [] = nth a Q [])
                  /\ dot (nth j Q' []) (repeat 1 n) = tgt j) ->
  forall k s Q Q',
    (s + k <= n)%nat ->
    (forall a, (a < s)%nat -> dot (nth a Q []) (repeat 1 n) = tgt a) ->
    (forall a, (s <= a < n)%nat -> nth a Q [] = repeat 0 n) ->
    fill_rows step Q (seq s k) = Ok Q' ->
    length Q' = length Q
    /\ forall a, (a < s + k)%nat -> dot (nth a Q' []) (repeat 1 n) = tgt a.
Proof.
  intros Hstep. induction k as [|k IH]; intros s Q Q' Hsk Hlow Hhigh E.
  - cbn in E. inversion E; subst. split; [reflexivity|].
    intros a Ha. apply Hlow. lia.
  - cbn [seq fill_rows] in E.
    apply result_bind_ok in E. destruct E as (Q1 & E1 & E).
    apply Hstep in E1; [|lia|apply Hhigh; lia].
    destruct E1 as (HL & HO & HD).
    apply IH in E; [| lia | | ].
    + destruct E as (HL' & HS). split; [lia|].
      intros a Ha. apply HS. lia.
    + intros a Ha. destruct (Nat.eq_dec a s) as [->|Hne]; [exact HD|].
      rewrite HO by exact Hne. apply Hlow. lia.
    + intros a Ha. rewrite HO by lia. apply Hhigh. lia.
Qed.

Lemma ch_row_sum (m : self R) (u0 u1 : list R) (s : R) (grid : list R)
      (Q Q' : list (list R)) (j : nat) :
  (3 <= length grid)%nat -> (j < length grid)%nat ->
  nth j Q [] = repeat 0 (length grid) ->
  ch_row m [u0; u1] s grid (length grid) Q j = Ok Q' ->
  length Q' = length Q
  /\ (forall a, a <> j -> nth a Q' [] = nth a Q [])
  /\ dot (nth j Q' []) (repeat 1 (length grid))
     = - s * (1 - s) / 2
       * (norm (nth j u0 0, nth j u1 0) * norm (nth j u0 0, nth j u1 0)).
Proof.
  intros H3 Hj Hz E. unfold ch_row in E.
  apply result_bind_ok in E. destruct E as (a0 & E0 & E).
  apply result_bind_ok in E. destruct E as (a1 & E1 & E).
  apply result_bind_ok in E. destruct E as (xj & _ & E).
  assert (Ha0 : a0 = nth j u0 0).
  { unfold get2 in E0. cbn [getitem nth_error bind result_monad] in E0.
    unfold getitem in E0. destruct (nth_error u0 j) eqn:En; [|discriminate].
    inversion E0; subst. symmetry. apply nth_error_nth. exact En. }
  assert (Ha1 : a1 = nth j u1 0).
  { unfold get2 in E1. cbn [getitem nth_error bind result_monad] in E1.
    unfold getitem in E1. destruct (nth_error u1 j) eqn:En; [|discriminate].
    inversion E1; subst. symmetry. apply nth_error_nth. exact En. }
  subst a0 a1. cbv zeta in E.
  set (e2 := norm (nth j u0 0, nth j u1 0)) in *.
  destruct (Nat.eqb_spec j 0) as [->|Hj0];
    [|destruct (Nat.eqb_spec j (length grid - 1)) as [Hjl|Hjl]];
    apply (@EntropyRows.three_writes _ _ (length grid)) in E;
    try assumption; try lia;
    destruct E as (HL & HO & HD); (split; [exact HL|split; [exact HO|]]);
    rewrite HD; unfold dec, sqr;
    cbn [s_add s_sub s_mul s_div s_opp ofZ scalar]; unfold Rdiv; lra.
Qed.

(** For every [s], row [j] of the matrix [Q] of [Rhos(s)] sums to
    [- s (1 - s) / 2 * |η[:, j]|^2].  At the two ends [s = 0] and [s = 1]
    of the interval that [__ChernoffEntropy] minimizes over, every row
    sums to zero: [Q] maps the constant vector to zero. *)
Theorem Rhos_Q_row_sums (m : self R) (res : matched R) (u0 u1 : list R)
        (s : R) (Q : list (list R)) :
  v m = Some res ->
  (3 <= length (res_x res))%nat ->
  Rhos_Q m [u0; u1] s = Ok Q ->
  let n := length (res_x res) in
  length Q = n
  /\ (forall j, (j < n)%nat ->
        dot (nth j Q []) (repeat 1 n)
        = - s * (1 - s) / 2
          * (norm (nth j u0 0, nth j u1 0) * norm (nth j u0 0, nth j u1 0)))
  /\ (s = 0 \/ s = 1 -> matvec Q (repeat 1 n) = repeat 0 n).
Proof.
  intros Ev H3 E n. unfold Rhos_Q in E. rewrite Ev in E.
  cbn [attr bind result_monad] in E. cbv zeta in E. fold n in E.
  assert (Hrows :
    length Q = length (zeros2 (T := R) n n)
    /\ forall a, (a < 0 + n)%nat ->
         dot (nth a Q []) (repeat 1 n)
         = - s * (1 - s) / 2
           * (norm (nth a u0 0, nth a u1 0) * norm (nth a u0 0, nth a u1 0))).
  { eapply (@fill_rows_sum _ _ n) with (s := 0%nat); [| |  | |exact E].
    - intros Q0 Q0' j Hj Hz Es. apply (@ch_row_sum m u0 u1 s (res_x res)
                                         Q0 Q0' j H3 Hj Hz Es).
    - lia.
    - intros a Ha. exfalso. lia.
    - intros a Ha. unfold zeros2, zeros.
      apply FeynmanKacExact.nth_repeat_lt. lia. }
  destruct Hrows as [HL HS]. unfold zeros2 in HL. rewrite repeat_length in HL.
  split; [exact HL|]. split; [intros j Hj; apply HS; lia|].
  intros Hs. apply nth_ext with (d := 0) (d' := 0).
  - unfold matvec. rewrite length_map, repeat_length. exact HL.
  - intros a Ha. unfold matvec in *. rewrite length_map in Ha.
    rewrite FeynmanKacExact.nth_repeat_lt by lia.
    change 0 with (dot [] (repeat 1 n)) at 1.
    rewrite (map_nth (fun r => dot r (repeat 1 n))).
    rewrite HS by lia. destruct Hs as [-> | ->]; unfold Rdiv; ring.
Qed.

End ChernoffRows.

(** ** The constructor of [TenuousModel]: the three lists *)

Section TenuousLists.
Context {T : Type} `{Scalar T} `{Infinite T}.

Lemma py_insert_perm (x : T) (l : list T) :
  Permutation (py_insert x l) (x :: l).
Proof.
  induction l as [|y l IH]; cbn [py_insert]; [reflexivity|].
  destruct (y <? x)%num; [|reflexivity].
  rewrite IH. apply perm_swap.
Qed.

Lemma py_sorted_perm (l : list T) : Permutation (py_sorted l) l.
Proof.
  induction l as [|x l IH]; [reflexivity|].
  cbn [py_sorted fold_right]. fold (py_sorted l).
  rewrite py_insert_perm. constructor. exact IH.
Qed.

(** A number passed as [qus] raises [TypeError] (the test [np.inf in qus]
    comes before the conversion to a list), and a NumPy array that does not
    contain infinity raises [AttributeError] at [qus.append]; an array that
    contains infinity is accepted and left as it is. *)
Theorem TenuousModel_lists_raises (q0s ρs : pyarg T) :
  (forall e, TenuousModel_lists q0s (PyScalar e) ρs = Raise TypeError)
  /\ (forall a, existsb (fun e => (e =? inf)%num) a = false ->
                TenuousModel_lists q0s (PyArray a) ρs = Raise AttributeError)
  /\ (forall a, existsb (fun e => (e =? inf)%num) a = true ->
                exists t, TenuousModel_lists q0s (PyArray a) ρs
                          = Ok (t, PyArray a)
                          /\ Permutation (qus_list t) a).
Proof.
  split; [reflexivity|]. split.
  - intros a Ha. unfold TenuousModel_lists, append_inf. rewrite Ha. reflexivity.
  - intros a Ha. unfold TenuousModel_lists, append_inf. rewrite Ha.
    eexists. split; [reflexivity|]. apply py_sorted_perm.
Qed.

(** With a Python list as [qus]: infinity is appended to the caller's list
    unless an entry already equals it; each of the three lists of the
    object is a rearrangement of the values passed (nothing is dropped or
    merged); [qus_list] has an entry that is infinity; and constructing
    again from the list as it now is gives the same lists and appends
    nothing. *)
Theorem TenuousModel_lists_of_list (q0s ρs : pyarg T) (l : list T) :
  let l' := if existsb (fun e => (e =? inf)%num) l then l else l ++ [inf] in
  exists t,
    TenuousModel_lists q0s (PyList l) ρs = Ok (t, PyList l')
    /\ Permutation (q0s_list t) (as_list q0s)
    /\ Permutation (qus_list t) l'
    /\ Permutation (ρ_list t) (as_list ρs)
    /\ (exists e, In e (qus_list t) /\ ((e =? inf)%num = true \/ e = inf))
    /\ ((inf =? inf)%num = true ->
        TenuousModel_lists q0s (PyList l') ρs = Ok (t, PyList l')).
Proof.
  intros l'. unfold TenuousModel_lists, append_inf.
  destruct (existsb (fun e => (e =? inf)%num) l) eqn:Ex; subst l';
    cbn [bind ret result_monad as_list]; eexists;
    (split; [reflexivity|]); cbn [q0s_list qus_list ρ_list];
    (split; [apply py_sorted_perm|]); (split; [apply py_sorted_perm|]);
    (split; [apply py_sorted_perm|]); split.
  - apply existsb_exists in Ex. destruct Ex as (e & He & Ee).
    exists e. split; [|left; exact Ee].
    apply (Permutation_in e (Permutation_sym (py_sorted_perm l))). exact He.
  - intros _. rewrite Ex. reflexivity.
  - exists inf. split; [|right; reflexivity].
    apply (Permutation_in inf (Permutation_sym (py_sorted_perm (l ++ [inf])))).
    apply in_or_app. right. left. reflexivity.
  - intros Hinf. rewrite existsb_app. cbn [existsb]. rewrite Hinf.
    rewrite orb_true_r. reflexivity.
Qed.

End TenuousLists.

(** *** The order of [qus_list] in binary64 *)

Module ListsF64.
Import F64.

Lemma SFcompare_antisym (a b : spec_float) :
  SFcompare b a = option_map CompOpp (SFcompare a b).
Proof.
  destruct a as [sa|sa| |sa ma ea], b as [sb|sb| |sb mb eb]; cbn;
    try destruct sa; try destruct sb; try reflexivity;
    pose proof (Pos.compare_cont_antisym ma mb Eq) as Hm; cbn in Hm;
    rewrite (Z.compare_antisym ea eb);
    destruct (ea ?= eb)%Z; cbn; try reflexivity;
    rewrite <- Hm; try rewrite CompOpp_involutive; reflexivity.
Qed.

Lemma not_below_is_above (x y : float) :
  (x =? x)%float = true -> (y =? y)%float = true ->
  (y <? x)%float = false -> (x <=? y)%float = true.
Proof.
  rewrite !eqb_spec, ltb_spec, leb_spec. unfold SFeqb, SFltb, SFleb.
  rewrite (SFcompare_antisym (Prim2SF y) (Prim2SF x)).
  destruct (Prim2SF x) as [sx|sx| |sx mx ex], (Prim2SF y) as [sy|sy| |sy my ey];
    cbn; try discriminate; try reflexivity;
    try (destruct sx; try destruct sy; cbn; intros; congruence);
    try (destruct sy; cbn; intros; congruence).
  intros _ _.
  destruct sy, sx; cbn; try congruence;
    destruct (ey ?= ex)%Z; cbn; try congruence;
    destruct (Pos.compare_cont Eq my mx); cbn; congruence.
Qed.

Lemma below_is_at_most (x y : float) :
  (y <? x)%float = true -> (y <=? x)%float = true.
Proof.
  rewrite ltb_spec, leb_spec. unfold SFltb, SFleb.
  destruct (SFcompare (Prim2SF y) (Prim2SF x)) as [[| |]|];
    try discriminate; reflexivity.
Qed.

Lemma below_inf (x : float) :
  (x =? x)%float = true -> (x <? infinity)%float = true \/ x = infinity.
Proof.
  rewrite eqb_spec, ltb_spec. unfold SFeqb, SFltb.
  change (Prim2SF infinity) with (S754_infinity false).
  intros Hx. destruct (Prim2SF x) as [sx|sx| |sx mx ex] eqn:Ex;
    cbn in Hx |- *; try discriminate; auto.
  destruct sx; auto. right. apply Prim2SF_inj. rewrite Ex. reflexivity.
Qed.

Lemma eqb_inf (x : float) :
  (x =? infinity)%float = true -> x = infinity.
Proof.
  rewrite eqb_spec. unfold SFeqb.
  change (Prim2SF infinity) with (S754_infinity false).
  intros Hx. apply Prim2SF_inj.
  change (Prim2SF infinity) with (S754_infinity false).
  destruct (Prim2SF x) as [sx|sx| |sx mx ex]; cbn in Hx; try discriminate;
    destruct sx; try discriminate; reflexivity.
Qed.

Lemma py_insert_numbers (x : float) (l : list float) :
  f64_number x -> Forall f64_number l -> Forall f64_number (py_insert x l).
Proof.
  intros Hx Hl. induction Hl as [|y l Hy Hl IH]; cbn [py_insert].
  - constructor; [exact Hx|constructor].
  - destruct (y <? x)%num; constructor; auto.
Qed.

Lemma py_sorted_numbers (l : list float) :
  Forall f64_number l -> Forall f64_number (py_sorted l).
Proof.
  induction 1 as [|x l Hx Hl IH]; [constructor|].
  cbn [py_sorted fold_right]. apply py_insert_numbers; assumption.
Qed.

Lemma py_insert_sorted (x : float) (l : list float) :
  f64_number x -> Forall f64_number l -> Sorted f64_at_most l ->
  Sorted f64_at_most (py_insert x l).
Proof.
  intros Hx Hl Hs. induction Hs as [|y l Hs IH Hd]; cbn [py_insert].
  - repeat constructor.
  - inversion Hl as [|? ? Hy Hl']; subst.
    destruct (y <? x)%num eqn:Eyx.
    + constructor; [apply IH; exact Hl'|].
      destruct l as [|z l]; cbn [py_insert].
      * constructor. apply below_is_at_most. exact Eyx.
      * destruct (z <? x)%num.
        -- constructor. inversion Hd; assumption.
        -- constructor. apply below_is_at_most. exact Eyx.
    + constructor; [constructor; assumption|].
      constructor. apply not_below_is_above; assumption.
Qed.

Lemma py_sorted_sorted (l : list float) :
  Forall f64_number l -> Sorted f64_at_most (py_sorted l).
Proof.
  induction 1 as [|x l Hx Hl IH]; [constructor|].
  cbn [py_sorted fold_right]. fold (py_sorted l).
  apply py_insert_sorted; [exact Hx|apply py_sorted_numbers; exact Hl|exact IH].
Qed.

(** Inserting into finite-then-infinite blocks keeps the blocks. *)
Lemma py_insert_blocks (x : float) (A : list float) (n : nat) :
  f64_number x -> Forall (fun y => (y <? infinity)%float = true) A ->
  exists A' n',
    py_insert x (A ++ repeat infinity n) = A' ++ repeat infinity n'
    /\ Forall (fun y => (y <? infinity)%float = true) A'
    /\ (0 < n -> 0 < n') /\ (x = infinity -> 0 < n').
Proof.
  intros Hx HA. induction HA as [|y A Hy HA IH].
  - cbn [app]. destruct (below_inf Hx) as [Lx|Ex].
    + exists [x], n. split; [|split; [repeat constructor; exact Lx|split; auto]].
      * destruct n as [|n]; cbn [repeat py_insert]; [reflexivity|].
        replace (infinity <? x)%num with false; [reflexivity|].
        symmetry. change ((infinity <? x)%float = false).
        destruct (infinity <? x)%float eqn:E; [|reflexivity].
        exfalso. revert Lx E. rewrite !ltb_spec. unfold SFltb.
        rewrite (SFcompare_antisym (Prim2SF x) (Prim2SF infinity)).
        destruct (SFcompare (Prim2SF x) (Prim2SF infinity)) as [[| |]|];
          cbn; discriminate.
      * intros E. subst x. vm_compute in Lx. discriminate.
    + subst x. exists [], (S n). split; [|split; [constructor|split; lia]].
      destruct n as [|n]; cbn [repeat py_insert app]; reflexivity.
  - cbn [app py_insert]. destruct (y <? x)%num eqn:Eyx.
    + destruct IH as (A' & n' & E & HA' & Hn & Hi).
      exists (y :: A'), n'. rewrite E. split; [reflexivity|].
      split; [constructor; assumption|split; assumption].
    + destruct (below_inf Hx) as [Lx|Ex].
      * exists (x :: y :: A), n. split; [reflexivity|].
        split; [repeat constructor; assumption|split; auto].
        intros E. subst x. vm_compute in Lx. discriminate.
      * subst x. change ((y <? infinity)%float = false) in Eyx. congruence.
Qed.

Lemma py_sorted_blocks (l : list float) :
  Forall f64_number l ->
  exists A n,
    py_sorted l = A ++ repeat infinity n
    /\ Forall (fun y => (y <? infinity)%float = true) A
    /\ (In infinity l -> 0 < n).
Proof.
  induction 1 as [|x l Hx Hl IH].
  - exists [], 0. split; [reflexivity|split; [constructor|intros []]].
  - destruct IH as (A & n & E & HA & Hn).
    cbn [py_sorted fold_right]. fold (py_sorted l). rewrite E.
    destruct (@py_insert_blocks x A n Hx HA) as (A' & n' & E' & HA' & Hn' & Hi).
    exists A', n'. split; [exact E'|split; [exact HA'|]].
    intros [Ex|Hin]; [apply Hi; exact Ex|apply Hn', Hn, Hin].
Qed.

Lemma last_blocks (A : list float) (n : nat) (d : float) :
  0 < n -> last (A ++ repeat infinity n) d = infinity.
Proof.
  intros Hn. destruct n as [|n]; [lia|].
  replace (repeat infinity (S n)) with (repeat infinity n ++ [infinity]).
  - rewrite app_assoc. apply last_last.
  - change [infinity] with (repeat infinity 1). rewrite <- repeat_app.
    f_equal. lia.
Qed.

(** When the list passed as [qus] holds numbers only (no NaN),
    [qus_list] is in ascending order, each entry at most the next, and its
    last entry is infinity: the unrestricted model comes last for every
    [q0s]. *)
Theorem qus_list_ascending_to_inf
  (q0s ρs : pyarg float) (l : list float) (t : tenuous_lists float)
  (q : pyarg float) :
  Forall (fun e => (e =? e)%float = true) l ->
  TenuousModel_lists q0s (PyList l) ρs = Ok (t, q) ->
  Sorted (fun x y => (x <=? y)%float = true) (qus_list t)
  /\ last (qus_list t) 0%float = infinity.
Proof.
  intros Hl E. unfold TenuousModel_lists, append_inf in E.
  assert (exists l', qus_list t = py_sorted l' /\ Forall f64_number l'
                     /\ In infinity l') as (l' & Et & Hl' & Hin).
  { destruct (existsb (fun e => (e =? inf)%num) l) eqn:Ex;
      cbn [bind ret result_monad as_list] in E; injection E as Et _;
      subst t; cbn [qus_list].
    - exists l. split; [reflexivity|split; [exact Hl|]].
      apply existsb_exists in Ex. destruct Ex as (e & He & Ee).
      apply eqb_inf in Ee. subst e. exact He.
    - exists (l ++ [infinity]). split; [reflexivity|split].
      + apply Forall_app. split; [exact Hl|]. repeat constructor.
      + apply in_or_app. right. left. reflexivity. }
  rewrite Et. split.
  - apply (py_sorted_sorted Hl').
  - destruct (py_sorted_blocks Hl') as (A & n & EA & _ & Hn).
    rewrite EA. apply last_blocks. apply Hn. exact Hin.
Qed.

End ListsF64.

(** ** [ExpectH]: the time axis of the first elasticity *)

Module ElasticityF64.
Import F64 StructuredModel.

(** In binary64 [int(1000 / 0.1)] is 10000, so whenever the first call of
    [FeynmanKac] in [ExpectH] returns, [expectH1] has 10001 columns, one
    per time step from 0 to [T], each as long as the grid [v['x']], which
    has at least two points; the stored distortion has a row [h1] of index
    2 and, when that row is as long as the grid, it is the first column. *)
Theorem ExpectH_expectH1_shape
  (L : Libs float) (m : self float) (cols : list (list float)) :
  ExpectH_expectH1 m = Ok cols ->
  exists res rh h1,
    v m = Some res /\ Distorted m = Some rh /\ nth_error rh 2 = Some h1
    /\ Z.of_nat (length cols) = 10001%Z
    /\ Forall (fun c => length c = length (res_x res)) cols
    /\ 2 <= length (res_x res)
    /\ (length h1 = length (res_x res) -> hd [] cols = h1).
Proof.
  intros E. unfold ExpectH_expectH1 in E.
  apply result_bind_ok in E. destruct E as (μz & _ & E).
  apply result_bind_ok in E. destruct E as (rh & Erh & E).
  apply result_bind_ok in E. destruct E as (h1 & Eh & E).
  apply result_bind_ok in E. destruct E as (res & Eres & E).
  destruct (Distorted m) as [rh'|] eqn:ED; [|discriminate].
  destruct (v m) as [res'|] eqn:Ev; [|discriminate].
  cbn [attr] in Erh, Eres. injection Erh as ->. injection Eres as ->.
  unfold getitem in Eh. destruct (nth_error rh 2) as [h|] eqn:En; [|discriminate].
  injection Eh as ->.
  destruct (@FeynmanKac_columns float _ L _ _ _ _ _ _ _ E)
    as (Hlen & Hall & H2 & col0 & rest & Ec & Hsame & _).
  exists res, rh, h1.
  split; [reflexivity|]. split; [reflexivity|]. split; [exact En|].
  split; [|split; [exact Hall|split; [exact H2|]]].
  - rewrite Hlen. vm_compute. reflexivity.
  - intros Hh. rewrite Ec. cbn [hd]. apply Hsame. exact Hh.
Qed.

End ElasticityF64.

(** ** Runs in binary64 *)

Module Instances.
Import F64 StructuredModel Examples ExamplesDrift.
#[local] Set Warnings "-inexact-float".

(** Two time steps on four grid points. *)
Lemma FeynmanKac_shape_witness :
  let L := stub_libs 1%float 0.005%float in
  exists cols,
    FeynmanKac [0%float; 0%float; 0%float; 0%float]
               (0.011%float, 0.025%float)
               [(-0.01)%float; 0%float; 0.01%float; 0.02%float]
               [1%float; 2%float; 3%float; 4%float] 1%float 0.5%float
    = Ok cols
    /\ length cols = 3
    /\ Forall (fun c => length c = 4) cols
    /\ hd [] cols = [1%float; 2%float; 3%float; 4%float].
Proof.
  intros L.
  assert (E : exists cols,
             FeynmanKac [0%float; 0%float; 0%float; 0%float]
                        (0.011%float, 0.025%float)
                        [(-0.01)%float; 0%float; 0.01%float; 0.02%float]
                        [1%float; 2%float; 3%float; 4%float] 1%float 0.5%float
             = Ok cols)
    by (vm_compute; eexists; reflexivity).
  destruct E as (cols & E). exists cols. split; [exact E|].
  destruct (@FeynmanKac_shape float _ L _ _ _ _ _ _ cols E)
    as (Hl & Hall & _ & col0 & rest & Ec & Hsame & _).
  split; [rewrite Hl; vm_compute; reflexivity|].
  split; [exact Hall|].
  rewrite Ec. cbn [hd]. apply Hsame. reflexivity.
Defined.



(** Two grid points are too few for the matrix of the entropy. *)
Lemma RelativeEntropyUS_short_grid_witness :
  let L := stub_libs 1%float 0.005%float in
  __RelativeEntropyUS (default_model 0.1%float)
                      [[0%float; 0%float]; [0%float; 0%float]]
                      [[0%float; 0%float]; [0%float; 0%float]]
                      [0%float; 0.01%float]
  = Raise IndexError.
Proof.
  intros L.
  apply (@RelativeEntropyUS_short_grid float _ L).
  cbn [length]. lia.
Defined.

(** Four grid points that straddle [z̄ = 0] without meeting it. *)
Lemma RelativeEntropyUS_without_pin_witness :
  let L := stub_libs 1%float 0.005%float in
  let η := [[0%float; 0%float; 0%float; 0%float];
            [0%float; 0%float; 0%float; 0%float]] in
  let grid := [(-0.015)%float; (-0.005)%float; 0.005%float; 0.015%float] in
  __RelativeEntropyUS (default_model 0.1%float) η η grid = Ok [].
Proof.
  intros L η grid.
  assert (E : exists q,
             __RelativeEntropyUS (default_model 0.1%float) η η grid = Ok q)
    by (vm_compute; eexists; reflexivity).
  destruct E as (q & E). rewrite E. f_equal.
  apply (@RelativeEntropyUS_without_pin float _ L
           (default_model 0.1%float) η η grid q); [|exact E].
  intros z Hz. cbn [In grid] in Hz.
  repeat (destruct Hz as [<-|Hz]; [reflexivity|]). destruct Hz.
Defined.

(** A second call on three grid points of the default model. *)
Lemma UpdatingDrift_idempotent_witness :
  exists m' tr',
    UpdatingDrift (stored_f64, []) = Ok (tt, (m', tr'))
    /\ UpdatingDrift (m', tr') = Ok (tt, (m', tr')).
Proof.
  assert (E : exists m' tr',
             UpdatingDrift (stored_f64, []) = Ok (tt, (m', tr')))
    by (vm_compute; do 2 eexists; reflexivity).
  destruct E as (m' & tr' & E). exists m', tr'. split; [exact E|].
  apply (@UpdatingDrift_idempotent float _ stored_f64 [] m' tr'); [|exact E].
  intros res Hv. injection Hv as <-. discriminate.
Defined.

(** The calibration of the default model with target 0.1. *)
Lemma solvetheta_frame_witness :
  let L := stub_libs 0%float 0.005%float in
  exists m' tr' t s dv q,
    solvetheta (bounded_model, []) = Ok (tt, (m', tr'))
    /\ m' = with_qErr (with_dvErr (with_status (with_θ bounded_model t) s) dv)
                      q.
Proof.
  intros L.
  assert (E : exists m' tr',
             solvetheta (bounded_model, []) = Ok (tt, (m', tr')))
    by (vm_compute; do 2 eexists; reflexivity).
  destruct E as (m' & tr' & E).
  destruct (@solvetheta_frame float _ _ L bounded_model [] m' tr' E)
    as (t & s & dv & q & Em).
  exists m', tr', t, s, dv, q. split; [exact E|exact Em].
Defined.

Lemma solvetheta_protocol_witness :
  let L := stub_libs 0%float 0.005%float in
  exists m' tr' guess xs ev1 ev2,
    solvetheta (bounded_model, []) = Ok (tt, (m', tr'))
    /\ tr' = [] ++ ev1 ++ [CallFsolve guess] ++ ev2
    /\ In guess thetalist
    /\ calibrations ev1 = map (fun θ' => (θ', true)) thetalist
    /\ calibrations ev2 = map (fun θ' => (θ', false)) (guess :: xs).
Proof.
  intros L.
  assert (E : exists m' tr',
             solvetheta (bounded_model, []) = Ok (tt, (m', tr')))
    by (vm_compute; do 2 eexists; reflexivity).
  destruct E as (m' & tr' & E).
  assert (Hq : (qᵤₛ bounded_model =? inf)%num = false) by reflexivity.
  destruct (@solvetheta_protocol float _ _ L bounded_model [] m' tr' Hq E)
    as (guess & xs & ev1 & ev2 & P).
  exists m', tr', guess, xs, ev1, ev2. split; [exact E|exact P].
Defined.

(** Matching at θ = 0.5 with the slopes of [bounded_model]. *)
Lemma MatchODE_result_witness :
  let L := stub_libs 1%float 0.005%float in
  let m := bounded_model in
  exists res,
    __MatchODE m 0.5%float None = Ok res
    /\ res_x res = zgrid (Dz m)
    /\ (exists diff, v0Diff m 0.5%float (res_dv0 res) = Ok diff
                     /\ res_diff res = s_abs diff)
    /\ exists dvl' dvr',
         dvl m = Some dvl' /\ dvr m = Some dvr'
         /\ __ODEsolver m (zl m, ofZ 0) dvl' (res_dv0 res) 0.5%float
            = Ok (res_negsol res)
         /\ __ODEsolver m (ofZ 0, zr m) (res_dv0 res) dvr' 0.5%float
            = Ok (res_possol res).
Proof.
  intros L m.
  assert (E : exists res, __MatchODE m 0.5%float None = Ok res)
    by (vm_compute; eexists; reflexivity).
  destruct E as (res & E). exists res. split; [exact E|].
  exact (@MatchODE_result float _ L m 0.5%float None res E).
Defined.

Lemma Distortion_rows_witness :
  let L := stub_libs 1%float 0.005%float in
  let m := bounded_model in
  exists res rh s1' s2' r0 r1 h0 h1,
    __MatchODE m 0.5%float None = Ok res
    /\ __Distortion m res 0.5%float = Ok (rh, s1', s2')
    /\ rh = [r0; r1; h0; h1]
    /\ length r0 = length (res_x res) /\ length r1 = length (res_x res)
    /\ length s1' = length (res_x res) /\ length s2' = length (res_x res).
Proof.
  intros L m.
  assert (E : exists res rh s1' s2',
             __MatchODE m 0.5%float None = Ok res
             /\ __Distortion m res 0.5%float = Ok (rh, s1', s2')).
  { do 4 eexists. split; [vm_compute; reflexivity|].
    vm_compute; reflexivity. }
  destruct E as (res & rh & s1' & s2' & EM & ED).
  destruct (@Distortion_rows float _ L m res 0.5%float rh s1' s2' ED)
    as (r0 & r1 & h0 & h1 & y1 & Erh & _ & _ & _ & _ & H0 & H1 & Hs1 & Hs2 & _).
  exists res, rh, s1', s2', r0, r1, h0, h1.
  split; [exact EM|]. split; [exact ED|]. split; [exact Erh|].
  split; [exact H0|]. split; [exact H1|]. split; [exact Hs1|exact Hs2].
Defined.

(** A model fresh from the constructor has no distortions. *)
Lemma drift_methods_need_distortions_witness :
  let L := stub_libs 1%float 0.005%float in
  let m := default_model 0.1%float in
  UpdatingDrift (m, []) = Raise TypeError
  /\ ExpectH_μz m = Raise TypeError
  /\ ExpectH_expectH1 m = Raise TypeError.
Proof.
  intros L m.
  exact (@drift_methods_need_distortions float _ L m [] eq_refl).
Defined.

(** One grid point is not enough for the mesh width. *)
Lemma FeynmanKac_raises_witness :
  let L := stub_libs 1%float 0.005%float in
  FeynmanKac [0%float] (0.011%float, 0.025%float) [0%float] [1%float]
             1%float 0.5%float
  = Raise IndexError.
Proof.
  intros L.
  assert (H1 : length [0%float] < 2) by (cbn [length]; lia).
  exact (proj1 (@FeynmanKac_raises float _ L [0%float]
                  (0.011%float, 0.025%float) [0%float] [1%float]
                  1%float 0.5%float) H1).
Defined.

(** A NumPy array without infinity as [qus]. *)
Lemma TenuousModel_lists_raises_witness :
  TenuousModel_lists (PyList [0.05%float; 0.1%float])
                     (PyArray [0.1%float; 0.2%float])
                     (PyList [0.5%float; 1%float])
  = Raise AttributeError.
Proof.
  exact (proj1 (proj2 (@TenuousModel_lists_raises float _ _
                         (PyList [0.05%float; 0.1%float])
                         (PyList [0.5%float; 1%float])))
               [0.1%float; 0.2%float] eq_refl).
Defined.

(** The default arguments, and the constructor called again with the
    list it has extended. *)
Lemma TenuousModel_lists_of_list_witness :
  let q0s := PyList [0.05%float; 0.1%float] in
  let ρs := PyList [0.5%float; 1%float] in
  exists t,
    TenuousModel_lists q0s (PyList [0.1%float; 0.2%float]) ρs
    = Ok (t, PyList [0.1%float; 0.2%float; infinity])
    /\ TenuousModel_lists q0s (PyList [0.1%float; 0.2%float; infinity]) ρs
       = Ok (t, PyList [0.1%float; 0.2%float; infinity]).
Proof.
  intros q0s ρs.
  destruct (@TenuousModel_lists_of_list float _ _ q0s ρs
              [0.1%float; 0.2%float])
    as (t & E & _ & _ & _ & _ & Hi).
  exists t. split; [exact E|exact (Hi eq_refl)].
Defined.

(** The default arguments [qus = [0.1, 0.2]], in the other order. *)
Lemma qus_list_ascending_to_inf_witness :
  exists t q,
    TenuousModel_lists (PyList [0.05%float; 0.1%float])
                       (PyList [0.2%float; 0.1%float])
                       (PyList [0.5%float; 1%float]) = Ok (t, q)
    /\ qus_list t = [0.1%float; 0.2%float; infinity]
    /\ Sorted (fun x y => (x <=? y)%float = true) (qus_list t)
    /\ last (qus_list t) 0%float = infinity.
Proof.
  assert (E : exists t q,
             TenuousModel_lists (PyList [0.05%float; 0.1%float])
                                (PyList [0.2%float; 0.1%float])
                                (PyList [0.5%float; 1%float]) = Ok (t, q)
             /\ qus_list t = [0.1%float; 0.2%float; infinity])
    by (vm_compute; do 2 eexists; split; reflexivity).
  destruct E as (t & q & E & Et). exists t, q.
  split; [exact E|]. split; [exact Et|].
  apply (@ListsF64.qus_list_ascending_to_inf
           (PyList [0.05%float; 0.1%float]) (PyList [0.5%float; 1%float])
           [0.2%float; 0.1%float] t q); [|exact E].
  repeat constructor.
Defined.

(** The first elasticity on four grid points of the default model. *)
Lemma ExpectH_expectH1_shape_witness :
  let L := stub_libs 1%float 0.005%float in
  exists cols,
    ExpectH_expectH1 ExamplesStored.stored_four = Ok cols
    /\ Z.of_nat (length cols) = 10001%Z
    /\ Forall (fun c => length c = 4) cols
    /\ hd [] cols = [0.1%float; 0.1%float; 0.1%float; 0.1%float].
Proof.
  intros L.
  destruct (ExpectH_expectH1 ExamplesStored.stored_four) as [cols|e] eqn:E;
    [|vm_compute in E; discriminate].
  exists cols. split; [reflexivity|].
  destruct (@ElasticityF64.ExpectH_expectH1_shape L ExamplesStored.stored_four
              cols E)
    as (res & rh & h1 & Ev & ED & Eh & Hl & Hall & _ & Hhd).
  injection Ev as <-. injection ED as <-. injection Eh as <-.
  split; [exact Hl|]. split; [exact Hall|].
  apply Hhd. reflexivity.
Defined.

End Instances.

(** ** Runs in exact arithmetic *)

Module InstancesExact.
Import Exact ExactSolver SolverFacts StructuredModel.
Local Open Scope R_scope.

(** The unit model at its mean-reversion point, with no second
    distortion: the discriminant vanishes. *)
Lemma S1_solves_constraint_witness :
  let m := ExamplesEntropy.entropy_model in
  exists s1,
    __S1 m (Sc 0) (Sc 0) = Sc s1
    /\ (a m * (s1 * s1) + 2 * b m * s1 * 0 + d m * (0 * 0)) / 2
       + (ρ1 m + ρ2 m * (0 - z̄ m)) * (αz m - βz m * (0 - z̄ m) + 0)
       + norm (σz m) * norm (σz m) * ρ2 m / 2 - q0s m * q0s m / 2 = 0.
Proof.
  intros m.
  destruct (S1_discriminant m (Sc 0) (Sc 0)) as [disc|l] eqn:E;
    [|cbn in E; discriminate].
  assert (Ha : a m <> 0) by (cbn; lra).
  assert (Hd : 0 <= disc).
  { cbn -[Rplus Rmult Rminus Rdiv Ropp sqrt IZR Rlt_dec Rle_dec Req_dec_T]
      in E.
    injection E as <-.
    replace (0 * 0 + 1 * 1) with 1 by ring. rewrite sqrt_1.
    apply Req_le. field. }
  destruct (@MinimizerExact.S1_solves_constraint m 0 0 disc Ha E Hd)
    as (s1 & E1 & Hc & _).
  exists s1. split; [exact E1|exact Hc].
Defined.

(** Three roots of the boundary polynomial. *)
Lemma ApproxBound_extremes_witness :
  let m := ExamplesEntropy.entropy_model in
  exists lo hi,
    ApproxBound m [(1, 0, 0); (-2, 0, 0); (3, 0, 0)]
    = Ok (with_dvr (with_dvl m (Some hi)) (Some lo))
    /\ lo = -2 /\ hi = 3.
Proof.
  intros m.
  assert (Hne : [(1, 0, 0); (-2, 0, 0); (3, 0, 0)] <> @nil (R * R * R))
    by discriminate.
  destruct (proj2 (@BoundsExact.ApproxBound_extremes m
                     [(1, 0, 0); (-2, 0, 0); (3, 0, 0)]) Hne)
    as (lo & hi & E & Hlo & Hhi & Hall & _).
  exists lo, hi. split; [exact E|].
  cbn [map fst In] in Hlo, Hhi, Hall.
  pose proof (Hall 1 (or_introl eq_refl)) as H1.
  pose proof (Hall (-2) (or_intror (or_introl eq_refl))) as H2.
  pose proof (Hall 3 (or_intror (or_intror (or_introl eq_refl)))) as H3.
  split.
  - destruct Hlo as [<-|[<-|[<-|[]]]]; lra.
  - destruct Hhi as [<-|[<-|[<-|[]]]]; lra.
Defined.

(** The matrix of the unit model on the three grid points around the
    kink. *)
Lemma entropy_Q_rows_sum_to_zero_witness :
  exists Q,
    entropy_Q ExamplesEntropy.entropy_model ExamplesEntropy.entropy_η
              ExamplesEntropy.entropy_grid = Ok Q
    /\ matvec Q [1; 1; 1] = [0; 0; 0]
    /\ ~ nonsingular Q.
Proof.
  destruct (@EntropyExact.entropy_Q_ok ExamplesEntropy.entropy_model
              [0; 0; 0] [0; 0; 0] ExamplesEntropy.entropy_grid)
    as (Q & EQ & _);
    [cbn [length ExamplesEntropy.entropy_grid]; lia|reflexivity|reflexivity|].
  exists Q. split; [exact EQ|].
  destruct (@EntropyRows.entropy_Q_rows_sum_to_zero
              ExamplesEntropy.entropy_model ExamplesEntropy.entropy_η
              ExamplesEntropy.entropy_grid Q EQ) as (Hsum & Hsing).
  split; [exact Hsum|]. apply Hsing. discriminate.
Defined.


(** A constant payoff on the grid 0, 1, 2, 3 with one time step. *)
Lemma constant_run (c : R) :
  @FeynmanKac R scalar (exact_libs ExamplesEntropy.silent_libs)
              [0; 0; 0; 0] (0, 1) [0; 1; 2; 3] [c; c; c; c] 1 1
  = Ok [[c; c; c; c]; [c; c; c; c]].
Proof.
  assert (H3 : (3 <= length [0; 1; 2; 3])%nat) by (cbn [length]; lia).
  assert (Hz : nth 1 [0; 1; 2; 3] 0 <> nth 0 [0; 1; 2; 3] 0)
    by (cbn [nth]; lra).
  assert (Ht : 0 < 1) by lra.
  assert (HT : 0 <= 1) by lra.
  pose proof (@FeynmanKacExact.FeynmanKac_zero_drift
                ExamplesEntropy.silent_libs (0, 1) [0; 1; 2; 3] [c; c; c; c]
                1 1 H3 Hz Ht HT eq_refl) as E.
  cbv zeta in E. change (repeat 0 (length [0; 1; 2; 3])) with [0; 0; 0; 0] in E.
  rewrite E. clear E.
  replace (1 / 1) with (IZR 1) by field.
  rewrite FeynmanKacExact.py_int_IZR.
  change (length [0; 1; 2; 3] - 2)%nat with (4 - 2)%nat.
  change (length [0; 1; 2; 3]) with 4%nat.
  change [c; c; c; c] with (repeat c 4).
  rewrite FeynmanKacExact.fk_march_constant_grid;
    [reflexivity| |lia].
  apply FeynmanKacExact.fk_off_nonneg; [cbn [nth]; lra|lra].
Qed.

(** Payoffs 1 and 2 combined with weights 3 and 5. *)
Lemma FeynmanKac_linear_witness :
  @FeynmanKac R scalar (exact_libs ExamplesEntropy.silent_libs)
              [0; 0; 0; 0] (0, 1) [0; 1; 2; 3]
              (lincomb 3 5 [1; 1; 1; 1] [2; 2; 2; 2]) 1 1
  = Ok (map2 (lincomb 3 5)
             [[1; 1; 1; 1]; [1; 1; 1; 1]] [[2; 2; 2; 2]; [2; 2; 2; 2]]).
Proof.
  exact (@FeynmanKacLinear.FeynmanKac_linear
           ExamplesEntropy.silent_libs [0; 0; 0; 0] (0, 1) [0; 1; 2; 3]
           [1; 1; 1; 1] [2; 2; 2; 2] 1 1 3 5 _ _
           eq_refl eq_refl (constant_run 1) (constant_run 2)).
Defined.

(** The matrix of [Rhos(1/2)] for the unit model on three grid points. *)
Lemma Rhos_Q_row_sums_witness :
  let m := ExamplesStored.stored_three 0 in
  exists Q,
    Rhos_Q m [[1; 1; 1]; [0; 0; 0]] (1 / 2) = Ok Q
    /\ length Q = 3%nat
    /\ forall j, (j < 3)%nat ->
         dot (nth j Q []) [1; 1; 1]
         = - (1 / 2) * (1 - 1 / 2) / 2
           * (norm (nth j [1; 1; 1] 0, nth j [0; 0; 0] 0)
              * norm (nth j [1; 1; 1] 0, nth j [0; 0; 0] 0)).
Proof.
  intros m.
  destruct (Rhos_Q m [[1; 1; 1]; [0; 0; 0]] (1 / 2)) as [Q|e] eqn:E;
    [|cbn -[Rplus Rmult Rminus Rdiv Ropp sqrt IZR Rlt_dec Rle_dec Req_dec_T]
        in E; discriminate].
  exists Q. split; [reflexivity|].
  assert (Hv : exists res, v m = Some res
                           /\ res_x res = ExamplesEntropy.entropy_grid)
    by (eexists; split; reflexivity).
  destruct Hv as (res & Hv & Hx).
  assert (H3 : (3 <= length (res_x res))%nat)
    by (rewrite Hx; cbn [length ExamplesEntropy.entropy_grid]; lia).
  destruct (@ChernoffRows.Rhos_Q_row_sums m res [1; 1; 1] [0; 0; 0] (1 / 2)
              Q Hv H3 E) as (Hl & Hrow & _).
  rewrite Hx in Hl, Hrow.
  split; [exact Hl|exact Hrow].
Defined.

End InstancesExact.
